(** * SymmetricAlgebra: crystals of GL(n), lattice words and linear combinations

    A shallow embedding of [src/crystal.ts] (with the breadth-first
    expansion of its earlier revision), [src/util.ts], [src/algebra.ts] and
    the evaluation loop of [src/parse.ts].

    JavaScript numbers that the program uses as integers (letters, indices,
    row lengths, multiplicities) are modelled as [Z]; the dimension formula,
    which divides, is modelled on IEEE binary64 ([spec_float] with precision
    53 and maximal exponent 1024).  The program adds and multiplies
    multiplicities in binary64 as well, which agrees with [Z] as long as
    the values stay safe integers: the theorems that depend on the value
    of a sum or of a product of multiplicities assume a bound
    ([MAX_SAFE_INTEGER]) that keeps them there.  The number of arguments
    that the engine accepts in a call is a parameter ([max_spread]) of
    [algebraPow] and of what calls it.  Arrays are lists, the object used as a
    string-keyed set is a [gset string], and the callback of the traversal
    is a function that updates the state of its client.  The [for (;;)] loop
    of the traversal is run for a given number of iterations. *)

From Stdlib Require Import ZArith Lia SpecFloat Ascii.
From stdpp Require Import base tactics option list strings gmap pretty sorting.

Local Open Scope Z_scope.

(** ** Values *)

Abbreviation Vertex := (list Z) (only parsing).
Abbreviation Partition := (list Z) (only parsing).

(** [a[i]] for an array of numbers: [None] stands for [undefined]
    (negative or past-the-end index). *)
Definition js_get (a : list Z) (i : Z) : option Z :=
  if i <? 0 then None else a !! Z.to_nat i.

(** [a[i] += d].  Reading an absent slot gives [undefined], whose sum is
    [NaN]; that situation is reported as [None]. *)
Definition js_add_at (a : list Z) (i d : Z) : option (list Z) :=
  match js_get a i with
  | Some x => Some (<[Z.to_nat i := x + d]> a)
  | None => None
  end.

(** Outcome of a call: a value, a thrown [Error], a loop still running
    when the iteration budget ended, or a step that left the integer model
    (an [undefined] operand). *)
Inductive outcome (A : Type) : Type :=
  | Ret (a : A)
  | Throw (msg : string)
  | Timeout
  | Fault.
Arguments Ret {A} a.
Arguments Throw {A} msg.
Arguments Timeout {A}.
Arguments Fault {A}.

Definition bind {A B} (o : outcome A) (k : A → outcome B) : outcome B :=
  match o with
  | Ret a => k a
  | Throw m => Throw m
  | Timeout => Timeout
  | Fault => Fault
  end.

Notation "x ←! o ; k" := (bind o (λ x, k))
  (at level 20, o at level 100, k at level 200, right associativity).

(** ** util.ts *)

Inductive js_order := Neg | Zero | Pos.

(** [compareLists]: lexicographic comparison, a proper prefix is smaller. *)
Fixpoint compareLists (a b : list Z) : js_order :=
  match a, b with
  | x :: a', y :: b' =>
      if x <? y then Neg else if y <? x then Pos else compareLists a' b'
  | [], _ :: _ => Neg
  | _ :: _, [] => Pos
  | [], [] => Zero
  end.

(** The array-to-string conversion of JavaScript: decimal numerals joined
    by commas. *)
Fixpoint join (sep : string) (l : list string) : string :=
  match l with
  | [] => ""
  | [s] => s
  | s :: l' => s +:+ sep +:+ join sep l'
  end.

Definition toString (v : list Z) : string := join "," (pretty <$> v).

Definition assertOrCrash (cond : bool) (msg : option string) : outcome unit :=
  if cond then Ret tt
  else Throw ("Assertion failed" +:+
              match msg with None => "." | Some m => ": " +:+ m end).

(** ** crystal.ts: partitions and lattice words *)

Fixpoint weakly_decreasing (nums : list Z) : bool :=
  match nums with
  | a :: (b :: _) as tl => if a <? b then false else weakly_decreasing tl
  | _ => true
  end.

Definition isPartition (nums : list Z) : bool :=
  weakly_decreasing nums &&
  match last nums with
  | Some x => negb (x <=? 0)
  | None => true
  end.

(** One letter of the loop body of [latticeWordToMaybePartition]. *)
Definition lattice_step (partition : Partition) (num : Z) : option Partition :=
  if num - 1 =? Z.of_nat (length partition) then Some (partition ++ [1])
  else if num =? 1 then js_add_at partition 0 1
  else if Z.of_nat (length partition) <? num - 1 then None
  else
    match js_get partition (num - 2), js_get partition (num - 1) with
    | Some above, Some here =>
        if here <? above then js_add_at partition (num - 1) 1 else None
    | _, _ => None (* a comparison with [undefined] is false *)
    end.

Fixpoint latticeWordToMaybePartition (sofar : Partition) (word : list Z)
  : option Partition :=
  match word with
  | [] => Some sofar
  | num :: word' =>
      match lattice_step sofar num with
      | Some partition => latticeWordToMaybePartition partition word'
      | None => None
      end
  end.

Definition hwToPartition (v : Vertex) : outcome Partition :=
  match latticeWordToMaybePartition [] v with
  | Some result => Ret result
  | None =>
      _ ←! assertOrCrash false
             (Some ("Given vertex " +:+ toString v +:+ " was not a partition"));
      Fault
  end.

Definition isLatticeWord (v : Vertex) : bool :=
  bool_decide (is_Some (latticeWordToMaybePartition [] v)).

(** ** crystal.ts: the edge operator *)

(** The loop of [crystal_f], from position [j] on. *)
Fixpoint crystal_f_scan (i : Z) (v : list Z) (j bottom size : Z) : Z * Z :=
  match v with
  | [] => (bottom, size)
  | x :: v' =>
      if x =? i then
        if size <=? 0 then crystal_f_scan i v' (j + 1) j 1
        else crystal_f_scan i v' (j + 1) bottom (size + 1)
      else if x =? i + 1 then crystal_f_scan i v' (j + 1) bottom (size - 1)
      else crystal_f_scan i v' (j + 1) bottom size
  end.

Definition crystal_f (i : Z) (v : Vertex) : Z :=
  let '(bottom, size) := crystal_f_scan i v 0 0 0 in
  if size <=? 0 then -1 else bottom.

(** The earlier version of the operator, which keeps the stack of open
    brackets and returns the modified copy. *)
Module StackVersion.

(** [stack.pop()] removes the last element and is harmless on []. *)
Definition pop (stack : list Z) : list Z := removelast stack.

Fixpoint scan (i : Z) (v : list Z) (j : Z) (stack : list Z) : list Z :=
  match v with
  | [] => stack
  | x :: v' =>
      if x =? i then scan i v' (j + 1) (stack ++ [j])
      else if x =? i + 1 then scan i v' (j + 1) (pop stack)
      else scan i v' (j + 1) stack
  end.

Definition crystal_f (i : Z) (v : Vertex) : option Vertex :=
  match scan i v 0 [] with
  | [] => None
  | modify :: _ => Some (<[Z.to_nat modify := i + 1]> v)
  end.

End StackVersion.

Definition vertexHeight (v : Vertex) : Z := foldl Z.max 0 v.

(** [partitionToHw]: row [i] contributes [part[i]] copies of [i + 1]. *)
Fixpoint hw_rows (i : Z) (part : list Z) : Vertex :=
  match part with
  | [] => []
  | r :: part' => replicate (Z.to_nat r) (i + 1) ++ hw_rows (i + 1) part'
  end.

Definition partitionToHw (part : Partition) : outcome Vertex :=
  _ ←! assertOrCrash (isPartition part) None;
  Ret (hw_rows 0 part).

(** ** crystal.ts: the traversal *)

(** The state of the loop of [visitGLnCrystal].  Both stacks are kept with
    their top (the end of the JavaScript array) first.  [client] is the state
    of the visitor, which the callback updates on each call. *)
Record dfs_state (A : Type) : Type := DfsState {
  seen : gset string;
  mutVert : Vertex;
  mutStack : list Z;
  expStack : list Z;
  toExpand : Z;
  client : A
}.
Arguments DfsState {A}.
Arguments seen {A}.
Arguments mutVert {A}.
Arguments mutStack {A}.
Arguments expStack {A}.
Arguments toExpand {A}.
Arguments client {A}.

Inductive step_result (A : Type) : Type :=
  | Break
  | Continue (st : dfs_state A)
  | Undefined.
Arguments Break {A}.
Arguments Continue {A} st.
Arguments Undefined {A}.

(** One iteration of the [for (;;)] loop. *)
Definition dfs_step {A} (n : Z) (visit : A → Vertex → A) (st : dfs_state A)
  : step_result A :=
  if toExpand st =? n then
    match mutStack st with
    | [] => Break
    | idx :: mutStack' =>
        match js_add_at (mutVert st) idx (-1), expStack st with
        | Some v, resume :: expStack' =>
            Continue (DfsState (seen st) v mutStack' expStack' resume (client st))
        | _, _ => Undefined
        end
    end
  else
    let maybeIdx := crystal_f (toExpand st) (mutVert st) in
    if maybeIdx <? 0 then
      Continue (DfsState (seen st) (mutVert st) (mutStack st) (expStack st)
                         (toExpand st + 1) (client st))
    else
      match js_add_at (mutVert st) maybeIdx 1 with
      | None => Undefined
      | Some moved =>
          let mutVertStr := toString moved in
          if bool_decide (mutVertStr ∈ seen st) then
            match js_add_at moved maybeIdx (-1) with
            | None => Undefined
            | Some back =>
                Continue (DfsState (seen st) back (mutStack st) (expStack st)
                                   (toExpand st + 1) (client st))
            end
          else
            Continue (DfsState ({[mutVertStr]} ∪ seen st) moved
                               (maybeIdx :: mutStack st)
                               ((toExpand st + 1) :: expStack st)
                               1 (visit (client st) moved))
      end.

Inductive status := Halted | Running | Stuck.

(** At most [fuel] iterations of the loop, with the state reached. *)
Fixpoint dfs_loop {A} (fuel : nat) (n : Z) (visit : A → Vertex → A)
    (st : dfs_state A) : status * dfs_state A :=
  match fuel with
  | O => (Running, st)
  | S fuel' =>
      match dfs_step n visit st with
      | Break => (Halted, st)
      | Continue st' => dfs_loop fuel' n visit st'
      | Undefined => (Stuck, st)
      end
  end.

(** The state on entry of the loop: [start] is marked and visited. *)
Definition dfs_start {A} (visit : A → Vertex → A) (a0 : A) (start : Vertex)
  : dfs_state A :=
  DfsState {[toString start]} start [] [] 1 (visit a0 start).

Definition visitGLnCrystal {A} (fuel : nat) (n : Z) (start : Vertex)
    (visit : A → Vertex → A) (a0 : A) : outcome A :=
  _ ←! assertOrCrash (isLatticeWord start) None;
  _ ←! assertOrCrash (vertexHeight start <=? n) None;
  match dfs_loop fuel n visit (dfs_start visit a0 start) with
  | (Halted, st) => Ret (client st)
  | (Running, _) => Timeout
  | (Stuck, _) => Fault
  end.

(** The visitor of [expandInGL]: push a copy of the vertex. *)
Definition push_copy (crystal : list Vertex) (v : Vertex) : list Vertex :=
  crystal ++ [v].

Definition expandInGL (fuel : nat) (n : Z) (start : Vertex)
  : outcome (list Vertex) :=
  visitGLnCrystal fuel n start push_copy [].

(** The calls made to the visitor up to the end of the first [k] iterations
    of the loop, the call on [start] included, in order. *)
Definition visitor_calls (k : nat) (n : Z) (start : Vertex) : list Vertex :=
  client (dfs_loop k n push_copy (dfs_start push_copy [] start)).2.

(** The crystal graph: an edge is one application of some [f_i] with
    [1 <= i < n], as the operator that returns the modified copy has it. *)
Definition edge (n : Z) (v w : Vertex) : Prop :=
  ∃ i, 1 ≤ i < n ∧ StackVersion.crystal_f i v = Some w.

Definition reachable (n : Z) (start : Vertex) : Vertex → Prop :=
  rtc (edge n) start.

(** ** crystal.ts: dimensions *)

(** JavaScript numbers where the program divides: IEEE 754 binary64. *)
Abbreviation number := spec_float (only parsing).
Definition of_Z (z : Z) : number := binary_normalize 53 1024 z 0 false.
Definition num_mul : number → number → number := SFmul 53 1024.
Definition num_div : number → number → number := SFdiv 53 1024.
Definition num_lt : number → number → bool := SFltb.

(** [Math.round]: the nearest integer, halves rounded up; zeros, infinities
    and NaN are returned as they are, and a value in [-0.5, 0) gives -0. *)
Definition Math_round (x : number) : number :=
  match x with
  | S754_finite s m e =>
      if 0 <=? e then x
      else
        let num := if s then Z.neg m else Z.pos m in
        let den := 2 ^ (- e) in
        let r := (2 * num + den) `div` (2 * den) in
        if r =? 0 then S754_zero s else of_Z r
  | _ => x
  end.

(** The [while] loop of [hookLength] over the rows below row [i]. *)
Fixpoint hook_below (rows : list Z) (j : Z) : Z :=
  match rows with
  | r :: rows' => if j <? r then 1 + hook_below rows' j else 0
  | [] => 0
  end.

(** [None] is the [NaN] obtained from an absent row. *)
Definition hookLength (part : Partition) (i j : Z) : option Z :=
  let k := hook_below (drop (Z.to_nat (i + 1)) part) j in
  match js_get part i with
  | Some row => Some (k + row - j)
  | None => None
  end.

Definition hook_number (part : Partition) (i j : Z) : number :=
  match hookLength part i j with
  | Some h => of_Z h
  | None => S754_nan
  end.

(** The inner loop of [dimensionInGL] on row [i], with [count] cells left
    and the next column number [j] (counted from 1). *)
Fixpoint dim_row (n : Z) (part : Partition) (i j : Z) (count : nat)
    (product : number) : number :=
  match count with
  | O => product
  | S count' =>
      dim_row n part i (j + 1) count'
        (num_mul product
           (num_div (of_Z (n + j - (i + 1))) (hook_number part i (j - 1))))
  end.

Fixpoint dim_rows (n : Z) (part : Partition) (rows : list Z) (i : Z)
    (product : number) : number :=
  match rows with
  | [] => product
  | r :: rows' =>
      dim_rows n part rows' (i + 1) (dim_row n part i 1 (Z.to_nat r) product)
  end.

Definition dimensionInGL (n : Z) (partition : Partition) : outcome number :=
  _ ←! assertOrCrash (isPartition partition) None;
  Ret (Math_round (dim_rows n partition partition 0 (of_Z 1))).

(** ** crystal.ts: tensor products *)

(** The visitor of [tensorPartitions]. *)
Definition push_if_lattice (partLeft : Partition) (partitions : list Partition)
    (v : Vertex) : list Partition :=
  match latticeWordToMaybePartition partLeft v with
  | Some maybePartition => partitions ++ [maybePartition]
  | None => partitions
  end.

Definition tensorPartitions (fuel : nat) (n : Z) (partLeft partRight : Partition)
  : outcome (list Partition) :=
  _ ←! assertOrCrash ((2 <=? n) && isPartition partLeft && isPartition partRight)
         None;
  dim1 ←! dimensionInGL n partLeft;
  dim2 ←! dimensionInGL n partRight;
  let '(partLeft, partRight) :=
    if num_lt dim1 dim2 then (partRight, partLeft) else (partLeft, partRight) in
  start ←! partitionToHw partRight;
  visitGLnCrystal fuel n start (push_if_lattice partLeft) [].

(** ** algebra.ts: normal form of a linear combination *)

Record term : Type := Term { part : Partition; mult : Z }.
Abbreviation Linear := (list term) (only parsing).

(** The comparator passed to [sort] is [-compareLists(part1, part2)]; it is
    negative or zero, so that [a] may stay before [b], unless [a] is
    smaller. *)
Definition keeps_before (a b : term) : bool :=
  match compareLists (part a) (part b) with
  | Neg => false
  | _ => true
  end.

(** [Array.prototype.sort] is stable; for a comparator that is a total
    preorder its result is the stable sorted arrangement, which insertion
    from the right computes. *)
Fixpoint sort_insert (a : term) (l : list term) : list term :=
  match l with
  | [] => [a]
  | b :: l' => if keeps_before a b then a :: l else b :: sort_insert a l'
  end.

Definition sort_desc (lin : Linear) : list term := foldr sort_insert [] lin.

(** The body of the loop of [algebraNormalise]; [result] is kept with its
    last element first. *)
Definition normalise_step (result : list term) (t : term) : list term :=
  if mult t =? 0 then result
  else
    match result with
    | [] => [Term (part t) (mult t)]
    | lst :: rest =>
        match compareLists (part lst) (part t) with
        | Zero =>
            let newMult := mult lst + mult t in
            if newMult =? 0 then rest else Term (part lst) newMult :: rest
        | _ => Term (part t) (mult t) :: result
        end
    end.

Definition algebraNormalise (lin : Linear) : Linear :=
  reverse (foldl normalise_step [] (sort_desc lin)).

(** What [algebraNormalise] promises: parts strictly decreasing in the order
    of [compareLists], no multiplicity 0. *)
Fixpoint strictly_descending (l : list term) : bool :=
  match l with
  | a :: (b :: _) as tl =>
      match compareLists (part a) (part b) with
      | Pos => strictly_descending tl
      | _ => false
      end
  | _ => true
  end.

Definition is_normal (l : Linear) : bool :=
  strictly_descending l && forallb (λ t, negb (mult t =? 0)) l.

(** ** Notions used in the proofs *)

(** The two integers of [crystal_f] describe the stack: its height is the
    positive part of [size] and, when it is not empty, its bottom is
    [bottom]. *)
Definition tracks (bottom size : Z) (stack : list Z) : Prop :=
  Z.of_nat (length stack) = Z.max size 0 ∧
  (0 < size → head stack = Some bottom).

(** The stack holds positions of letters [i] of the word, in increasing
    order. *)
Definition open_positions (i : Z) (v : list Z) (bound : Z) (stack : list Z)
  : Prop :=
  Forall (λ p, p < bound ∧ js_get v p = Some i) stack ∧
  StronglySorted Z.lt stack.

(** The result of [compareLists] with its arguments exchanged. *)
Definition flip_order (o : js_order) : js_order :=
  match o with Neg => Pos | Zero => Zero | Pos => Neg end.

(** Terms compared by their partitions. *)
Definition gt_part (a b : term) : Prop := compareLists (part a) (part b) = Pos.
Definition ge_part (a b : term) : Prop := compareLists (part a) (part b) ≠ Neg.

(** The accumulated [result] (last element first) while the loop runs over
    a list that is sorted: it is in normal form and its last element is not
    smaller than what is still to come. *)
Definition merge_inv (result rest : list term) : Prop :=
  Sorted (flip gt_part) result ∧ Forall (λ t, mult t ≠ 0) result ∧
  match result with
  | [] => True
  | lst :: _ => Forall (ge_part lst) rest
  end.

(** Strings without a comma: the numerals of [toString]. *)
Fixpoint comma_free (s : string) : Prop :=
  match s with
  | EmptyString => True
  | String c s' => c ≠ ","%char ∧ comma_free s'
  end.

(** Words of a fixed length over the letters [1 .. n]. *)
Definition well_formed (n : Z) (m : nat) (v : Vertex) : Prop :=
  length v = m ∧ Forall (λ x, 1 ≤ x ≤ n) v.

(** All of them, to bound the number of vertices that can be seen. *)
Fixpoint words (n : Z) (m : nat) : list Vertex :=
  match m with
  | O => [[]]
  | S m' => x ← seqZ 1 n; (cons x) <$> words n m'
  end.

(** Every edge out of [u] with an index below [t] leads to a visited
    vertex. *)
Definition expanded (visited : list Vertex) (u : Vertex) (t : Z) : Prop :=
  ∀ i w, 1 ≤ i < t → StackVersion.crystal_f i u = Some w → w ∈ visited.

(** The current path of the search, read off the two stacks: the working
    vertex [v] with its cursor [te], the index modified and the cursor to
    resume with for each step down, and the vertices from [v] up to
    [start]. *)
Inductive path (n : Z) (visited : list Vertex) (start : Vertex)
  : Vertex → Z → list Z → list Z → list Vertex → Prop :=
  | path_root te :
      1 ≤ te ≤ n → start ∈ visited → expanded visited start te →
      path n visited start start te [] [] [start]
  | path_down parent e ms es verts v te :
      path n visited start parent e ms es verts →
      2 ≤ e →
      StackVersion.crystal_f (e - 1) parent = Some v →
      v ∈ visited →
      1 ≤ te ≤ n → expanded visited v te →
      path n visited start v te (crystal_f (e - 1) parent :: ms) (e :: es)
           (v :: verts).

(** The invariant of the loop of [visitGLnCrystal] (visitor [push_copy]). *)
Record dfs_inv (n : Z) (start : Vertex) (st : dfs_state (list Vertex)) : Prop :=
  DfsInv {
    inv_seen : ∀ s, s ∈ seen st ↔ s ∈ toString <$> client st;
    inv_nodup : NoDup (client st);
    inv_reach : Forall (reachable n start) (client st);
    inv_path : ∃ verts,
      path n (client st) start (mutVert st) (toExpand st) (mutStack st)
           (expStack st) verts ∧
      ∀ w, w ∈ client st → w ∈ verts ∨ expanded (client st) w n
  }.

(** The number of iterations still possible. *)
Definition potential (n : Z) (universe : Z) (st : dfs_state (list Vertex)) : Z :=
  (universe - Z.of_nat (length (client st))) * (n + 1)
  + foldr (λ e acc, (n - e + 1) + acc) 0 (expStack st)
  + (n - toExpand st).

(** The state of a traversal with visitor [visit], from the state of the
    traversal that records the calls. *)
Definition replay {A} (visit : A → Vertex → A) (a0 : A)
    (st : dfs_state (list Vertex)) : dfs_state A :=
  DfsState (seen st) (mutVert st) (mutStack st) (expStack st) (toExpand st)
           (foldl visit a0 (client st)).

(** The conditions under which the loop body of
    [latticeWordToMaybePartition] executes [return null]. *)
Definition returns_null (partition : Partition) (num : Z) : bool :=
  negb (num - 1 =? Z.of_nat (length partition)) && negb (num =? 1) &&
  ((Z.of_nat (length partition) <? num - 1) ||
   negb (match js_get partition (num - 2), js_get partition (num - 1) with
         | Some above, Some here => here <? above
         | _, _ => false
         end)).

(** A partition of 601 rows whose dimension formula in GL(600) overflows. *)
Definition overflow_partition : Partition := 600 :: replicate 600 1.

(** ** Counting letters and cells *)

(** The number of occurrences of the letter [x] in the word [w]. *)
Definition count_letter (x : Z) (w : list Z) : Z :=
  Z.of_nat (length (filter (λ y, y = x) w)).

(** The length of row [i] of a partition, 0 past its last row. *)
Definition row (p : list Z) (i : nat) : Z := default 0 (p !! i).

(** The number of cells of a partition. *)
Definition size_of (p : list Z) : Z := foldr Z.add 0 p.

(** Every prefix of the word contains each letter [i >= 1] at least as
    often as the letter [i + 1]. *)
Definition ballot (v : list Z) : Prop :=
  ∀ u w i, v = u ++ w → 1 ≤ i → count_letter (i + 1) u ≤ count_letter i u.

(** ** algebra.ts: units, sums, products and powers *)

(** [algebraUnit]: the inclusion of the integers. *)
Definition algebraUnit (num : Z) : Linear := [Term [] num].

(** [algebraPart]: a partition as a linear combination. *)
Definition algebraPart (part : Partition) : outcome Linear :=
  _ ←! assertOrCrash (isPartition part) None;
  Ret [Term part 1].

(** [algebraAdd(...lins)]. *)
Definition algebraAdd (lins : list Linear) : Linear :=
  algebraNormalise (concat lins).

(** [class AlgebraType]: the constructor is private, the only values are
    [Sym] and the results of [GL]. *)
Module AlgebraType.
Record t : Type := Make { algebra : string; n : Z }.
Definition Sym : t := Make "sym" 0.
Definition GL (n : Z) : outcome t :=
  _ ←! assertOrCrash (2 <=? n) None;
  Ret (Make "gl" n).
Definition restrict (this : t) (lin : Linear) : Linear :=
  if String.eqb (algebra this) "gl" then
    let restricted :=
      filter (λ elem, Z.of_nat (length (part elem)) ≤ n this) lin in
    if (length restricted =? 0)%nat then algebraUnit 0 else restricted
  else lin.
Definition tensorIn (this : t) (part1 part2 : Partition) : Z :=
  if String.eqb (algebra this) "gl" then n this
  else Z.of_nat (length part1 + length part2).
End AlgebraType.

(** The body of the two inner loops of [algebraMul] for one pair of
    terms: what is pushed on [product]. *)
Definition mul_terms (fuel : nat) (type : AlgebraType.t) (t1 t2 : term)
  : outcome (list term) :=
  if (length (part t1) =? 0)%nat then
    Ret [Term (part t2) (mult t1 * mult t2)]
  else if (length (part t2) =? 0)%nat then
    Ret [Term (part t1) (mult t1 * mult t2)]
  else
    parts ←! tensorPartitions fuel
               (AlgebraType.tensorIn type (part t1) (part t2))
               (part t1) (part t2);
    Ret ((λ part, Term part (mult t1 * mult t2)) <$> parts).

(** The loop over the terms of [lins[i]], for one term of [sofar]. *)
Fixpoint mul_inner (fuel : nat) (type : AlgebraType.t) (t1 : term)
    (lin : list term) (product : list term) : outcome (list term) :=
  match lin with
  | [] => Ret product
  | t2 :: lin' =>
      pushed ←! mul_terms fuel type t1 t2;
      mul_inner fuel type t1 lin' (product ++ pushed)
  end.

(** The loop over the terms of [sofar]. *)
Fixpoint mul_outer (fuel : nat) (type : AlgebraType.t) (sofar lin : list term)
    (product : list term) : outcome (list term) :=
  match sofar with
  | [] => Ret product
  | t1 :: sofar' =>
      product' ←! mul_inner fuel type t1 lin product;
      mul_outer fuel type sofar' lin product'
  end.

(** The loop over [lins[1 ..]]. *)
Fixpoint mul_loop (fuel : nat) (type : AlgebraType.t) (sofar : Linear)
    (lins : list Linear) : outcome Linear :=
  match lins with
  | [] => Ret sofar
  | lin :: lins' =>
      product ←! mul_outer fuel type sofar lin [];
      mul_loop fuel type (algebraNormalise product) lins'
  end.

Definition algebraMul (fuel : nat) (type : AlgebraType.t) (lins : list Linear)
  : outcome Linear :=
  match lins with
  | [] => Ret (algebraUnit 1)
  | first :: rest => mul_loop fuel type first rest
  end.

(** [algebraPow].  [Array(pow)] throws a [RangeError] when [pow] is not an
    array length, that is negative or above 2^32 - 1.  The call
    [algebraMul(type, ...array)] passes the [pow] elements as arguments,
    and an engine accepts only so many: [max_spread] is the largest length
    that the engine running the program can spread into this call (about
    1.2e5 in Node.js); above it the call throws a [RangeError], whose
    message in V8 is the one given here.  Memory is not modelled: for
    lengths in the billions the engine may give up while it fills the
    array, before the call. *)
Definition algebraPow (max_spread : Z) (fuel : nat) (type : AlgebraType.t)
    (lin : Linear) (pow : Z) : outcome Linear :=
  if pow =? 0 then Ret (algebraUnit 1)
  else if (pow <? 0) || (4294967295 <? pow) then Throw "Invalid array length"
  else if max_spread <? pow then Throw "Maximum call stack size exceeded"
  else algebraMul fuel type (replicate (Z.to_nat pow) lin).

(** ** crystal.ts, earlier revision: breadth-first expansion *)

(** [Array.prototype.map] with a callback that may throw. *)
Fixpoint map_outcome {A B} (f : A → outcome B) (l : list A)
  : outcome (list B) :=
  match l with
  | [] => Ret []
  | x :: l' => y ←! f x; ys ←! map_outcome f l'; Ret (y :: ys)
  end.

(** The earlier revision of crystal.ts, which expands the crystal breadth
    first with the operator of [StackVersion], keeps every vertex, and only
    then looks for lattice words.  [isPartition], [vertexHeight],
    [hookLength], [dimensionInGL] and [partitionToHw] are the same text in
    both revisions. *)
Module BreadthFirst.
(** The loop of [hwToMaybePartition], whose body is the one of
    [latticeWordToMaybePartition]. *)
Fixpoint hw_loop (partition : Partition) (v : list Z) : option Partition :=
  match v with
  | [] => Some partition
  | num :: v' =>
      match lattice_step partition num with
      | Some partition' => hw_loop partition' v'
      | None => None
      end
  end.
Definition hwToMaybePartition (v : Vertex) : option Partition := hw_loop [] v.
Definition hwToPartition (v : Vertex) : outcome Partition :=
  match hwToMaybePartition v with
  | Some result => Ret result
  | None =>
      _ ←! assertOrCrash false
             (Some ("Given vertex " +:+ toString v +:+ " was not a partition"));
      Fault
  end.
Definition isLatticeWord (v : Vertex) : bool :=
  bool_decide (is_Some (hwToMaybePartition v)).
(** [class NumsSet]: the key of a vertex is [nums.join("|")]. *)
Definition key (nums : list Z) : string := join "|" (pretty <$> nums).
(** The body of the loop over [i] for the vertex [v] of the frontier, on
    the pair of [seen] and [new_frontier]. *)
Definition try_edge (v : Vertex) (acc : gset string * list Vertex) (i : Z)
  : gset string * list Vertex :=
  match StackVersion.crystal_f i v with
  | Some result =>
      if bool_decide (key result ∈ acc.1) then acc
      else ({[key result]} ∪ acc.1, acc.2 ++ [result])
  | None => acc
  end.
(** The loop over the frontier. *)
Definition expand_frontier (n : Z) (frontier : list Vertex)
    (seen : gset string) : gset string * list Vertex :=
  foldl (λ acc v, foldl (try_edge v) acc (seqZ 1 (n - 1))) (seen, []) frontier.
(** The [while] loop, for at most [fuel] rounds. *)
Fixpoint bfs_loop (fuel : nat) (n : Z) (crystal : list Vertex)
    (seen : gset string) (frontier : list Vertex) : outcome (list Vertex) :=
  match frontier, fuel with
  | [], _ => Ret crystal
  | _ :: _, O => Timeout
  | _ :: _, S fuel' =>
      let new := expand_frontier n frontier seen in
      bfs_loop fuel' n (crystal ++ new.2) new.1 new.2
  end.
Definition expandInGL (fuel : nat) (n : Z) (start : Vertex)
  : outcome (list Vertex) :=
  _ ←! assertOrCrash (isLatticeWord start) None;
  _ ←! assertOrCrash (vertexHeight start <=? n) None;
  bfs_loop fuel n [start] {[key start]} [start].
Definition tensorHwWithCrystal (v : Vertex) (crystal : list Vertex)
  : list Vertex :=
  foldl (λ result c,
           let tensorElem := v ++ c in
           if isLatticeWord tensorElem then result ++ [tensorElem]
           else result) [] crystal.
Definition tensorPartitions (fuel : nat) (n : Z) (part1 part2 : Partition)
  : outcome (list Partition) :=
  _ ←! assertOrCrash ((2 <=? n) && isPartition part1 && isPartition part2)
         None;
  dim1 ←! dimensionInGL n part1;
  dim2 ←! dimensionInGL n part2;
  let '(part1, part2) :=
    if num_lt dim1 dim2 then (part2, part1) else (part1, part2) in
  v1 ←! partitionToHw part1;
  v2 ←! partitionToHw part2;
  crystal2 ←! expandInGL fuel n v2;
  map_outcome hwToPartition (tensorHwWithCrystal v1 crystal2).
End BreadthFirst.

(** ** parse.ts: evaluation of the postfix form *)

(** [class ParseError]. *)
Module ParseError.
Record t : Type := Make { pos : Z; extent : Z; msg : string }.
End ParseError.

(** [class Item]: [item] is a number, an array of numbers or the string of
    an operator. *)
Module Item.
Inductive value : Type :=
  | Num (num : Z)
  | Arr (nums : list Z)
  | Str (op : string).
Record t : Type := Make { item : value; pos : Z }.
End Item.

(** The loop of [evaluate] over the items, and the test that follows it.
    The top of [stack] is the head of the list; [leftArg] and [rightArg]
    are the source's [left] and [right]. *)
Fixpoint evaluate_loop (max_spread : Z) (fuel : nat) (type : AlgebraType.t)
    (str_length : Z) (items : list Item.t) (stack : list Linear)
  : outcome (ParseError.t + Linear) :=
  match items with
  | [] =>
      match stack with
      | [result] => Ret (inr result)
      | _ => Ret (inl (ParseError.Make 0 str_length "Missing operations"))
      end
  | it :: items' =>
      match Item.item it with
      | Item.Num num =>
          evaluate_loop max_spread fuel type str_length items' (algebraUnit num :: stack)
      | Item.Arr nums =>
          lin ←! algebraPart nums;
          evaluate_loop max_spread fuel type str_length items'
            (AlgebraType.restrict type lin :: stack)
      | Item.Str op =>
          match stack with
          | rightArg :: leftArg :: stack' =>
              if String.eqb op "+" then
                evaluate_loop max_spread fuel type str_length items'
                  (algebraAdd [leftArg; rightArg] :: stack')
              else if String.eqb op "*" then
                product ←! algebraMul fuel type [leftArg; rightArg];
                evaluate_loop max_spread fuel type str_length items' (product :: stack')
              else if String.eqb op "^" then
                match rightArg with
                | [exponent] =>
                    if (0 <? length (part exponent))%nat then
                      Ret (inl (ParseError.Make (Item.pos it) 1
                                  ("Exponent must be a number in " +:+ op)))
                    else
                      power ←! algebraPow max_spread fuel type leftArg (mult exponent);
                      evaluate_loop max_spread fuel type str_length items'
                        (power :: stack')
                | _ =>
                    Ret (inl (ParseError.Make (Item.pos it) 1
                                ("Exponent must be a number in " +:+ op)))
                end
              else evaluate_loop max_spread fuel type str_length items' stack'
          | _ =>
              Ret (inl (ParseError.Make (Item.pos it) 1
                          ("Not enough arguments to " +:+ op)))
          end
      end
  end.

(** [evaluate], given the value [rpnResult] of [toRPN(str)] and
    [str.length]. *)
Definition evaluate (max_spread : Z) (fuel : nat) (type : AlgebraType.t)
    (str_length : Z) (rpnResult : ParseError.t + list Item.t)
  : outcome (ParseError.t + Linear) :=
  match rpnResult with
  | inl err => Ret (inl err)
  | inr items => evaluate_loop max_spread fuel type str_length items []
  end.

(** ** Further notions used in the proofs *)

(** The coefficient of the partition [p] in the formal sum that a list of
    terms denotes. *)
Definition coefficient (p : Partition) (l : Linear) : Z :=
  foldr (λ t acc, (if decide (part t = p) then mult t else 0) + acc) 0 l.

(** A partition that the algebra accepts: valid, and of at most [n] rows in
    the representation ring of GL(n). *)
Definition fits (type : AlgebraType.t) (p : Partition) : Prop :=
  isPartition p = true ∧
  (AlgebraType.algebra type = "gl" →
   Z.of_nat (length p) ≤ AlgebraType.n type).

(** The values of [AlgebraType] that the class can produce. *)
Definition valid_type (type : AlgebraType.t) : Prop :=
  type = AlgebraType.Sym ∨ ∃ n, AlgebraType.GL n = Ret type.

(** What the loop of [visitGLnCrystal] still has to do, up to a constant:
    the operators not yet tried at the working vertex and at each vertex
    of the path above it, less [n] times the number of visited vertices. *)
Definition debt (n : Z) (st : dfs_state (list Vertex)) : Z :=
  foldr (λ e acc, (n - e + 1) + acc) 0 (expStack st) + (n - toExpand st)
  - n * Z.of_nat (length (client st)).

(** A string without the character [c]. *)
Fixpoint char_free (c : ascii) (s : string) : Prop :=
  match s with
  | EmptyString => True
  | String c' s' => c' ≠ c ∧ char_free c s'
  end.

(** What the breadth-first search has collected: [seen] holds the keys of
    the vertices of [crystal], which are distinct and reachable. *)
Definition collected (n : Z) (start : Vertex) (seen : gset string)
    (crystal : list Vertex) : Prop :=
  (∀ s, s ∈ seen ↔ s ∈ BreadthFirst.key <$> crystal) ∧
  NoDup crystal ∧ Forall (reachable n start) crystal.

(** The invariant of the [while] loop of the breadth-first [expandInGL]. *)
Definition bfs_inv (n : Z) (start : Vertex) (crystal : list Vertex)
    (seen : gset string) (frontier : list Vertex) : Prop :=
  collected n start seen crystal ∧ head crystal = Some start ∧
  (∀ v, v ∈ frontier → v ∈ crystal) ∧
  (∀ w, w ∈ crystal → w ∈ frontier ∨ expanded crystal w n).

(** The value on [l] of the linear map that is [g] on partitions. *)
Definition weighted (g : Partition → Z) (l : Linear) : Z :=
  foldr (λ t acc, mult t * g (part t) + acc) 0 l.

(** The partitions that the body of the loops of [algebraMul] pushes for a
    pair of partitions, each with the product of the multiplicities. *)
Definition product_parts (fuel : nat) (type : AlgebraType.t)
    (part1 part2 : Partition) : outcome (list Partition) :=
  if (length part1 =? 0)%nat then Ret [part2]
  else if (length part2 =? 0)%nat then Ret [part1]
  else tensorPartitions fuel (AlgebraType.tensorIn type part1 part2)
                        part1 part2.

(** How often [p] occurs among them (0 where the product does not
    return). *)
Definition structure_constant (fuel : nat) (type : AlgebraType.t)
    (p part1 part2 : Partition) : Z :=
  match product_parts fuel type part1 part2 with
  | Ret ps => Z.of_nat (length (filter (λ q, q = p) ps))
  | _ => 0
  end.

(** The pairs of a partition with the terms of [lin] on which the product
    returns. *)
Definition defined_on (fuel : nat) (type : AlgebraType.t) (part1 : Partition)
    (lin : Linear) : Prop :=
  Forall (λ t2, ∃ ps, product_parts fuel type part1 (part t2) = Ret ps) lin.

(** An outcome that is a value with [P], or the end of the iteration
    budget, or an [Error] whose message has [E]. *)
Definition safe {A} (E : string → Prop) (P : A → Prop) (o : outcome A)
  : Prop :=
  match o with
  | Ret a => P a
  | Throw m => E m
  | Timeout => True
  | Fault => False
  end.

(** Expressions in the three operators, with the position of each token. *)
Inductive binop : Type := Plus | Times | Power.

Definition op_token (o : binop) : string :=
  match o with Plus => "+" | Times => "*" | Power => "^" end.

Inductive expr : Type :=
  | ENum (num : Z) (pos : Z)
  | EPart (nums : list Z) (pos : Z)
  | EOp (o : binop) (pos : Z) (leftArg rightArg : expr).

(** The postfix form of an expression. *)
Fixpoint postfix (e : expr) : list Item.t :=
  match e with
  | ENum num pos => [Item.Make (Item.Num num) pos]
  | EPart nums pos => [Item.Make (Item.Arr nums) pos]
  | EOp o pos leftArg rightArg =>
      postfix leftArg ++ postfix rightArg ++
      [Item.Make (Item.Str (op_token o)) pos]
  end.

(** The value of an expression: the operands from left to right, then the
    operation; the first failure is the result. *)
Fixpoint expr_value (max_spread : Z) (fuel : nat) (type : AlgebraType.t)
    (e : expr)
  : outcome (ParseError.t + Linear) :=
  match e with
  | ENum num _ => Ret (inr (algebraUnit num))
  | EPart nums _ =>
      lin ←! algebraPart nums; Ret (inr (AlgebraType.restrict type lin))
  | EOp o pos leftArg rightArg =>
      l ←! expr_value max_spread fuel type leftArg;
      match l with
      | inl err => Ret (inl err)
      | inr l =>
          r ←! expr_value max_spread fuel type rightArg;
          match r with
          | inl err => Ret (inl err)
          | inr r =>
              match o with
              | Plus => Ret (inr (algebraAdd [l; r]))
              | Times =>
                  product ←! algebraMul fuel type [l; r]; Ret (inr product)
              | Power =>
                  match r with
                  | [exponent] =>
                      if (0 <? length (part exponent))%nat then
                        Ret (inl (ParseError.Make pos 1
                                    "Exponent must be a number in ^"))
                      else
                        power ←! algebraPow max_spread fuel type l (mult exponent);
                        Ret (inr power)
                  | _ =>
                      Ret (inl (ParseError.Make pos 1
                                  "Exponent must be a number in ^"))
                  end
              end
          end
      end
  end.

(** [Number.MAX_SAFE_INTEGER].  The integers up to it in absolute value
    are JavaScript numbers, and a sum or a product of two of them that
    stays in this range is computed exactly; beyond it the program rounds
    where the model, on [Z], does not. *)
Definition MAX_SAFE_INTEGER : Z := 2 ^ 53 - 1.

(** The sum of [|mult t| * g (part t)] over the terms of [l]. *)
Definition absweighted (g : Partition → Z) (l : Linear) : Z :=
  foldr (λ t acc, Z.abs (mult t) * g (part t) + acc) 0 l.

(** The sum of the absolute values of the multiplicities.  It bounds every
    multiplicity of the list and every sum of some of them, taken in any
    order: a list of weight at most [MAX_SAFE_INTEGER] is added up
    exactly. *)
Definition weight (l : Linear) : Z := absweighted (λ _, 1) l.

(** The number of partitions pushed for a pair of partitions (0 where the
    product does not return). *)
Definition product_count (fuel : nat) (type : AlgebraType.t)
    (part1 part2 : Partition) : Z :=
  match product_parts fuel type part1 part2 with
  | Ret ps => Z.of_nat (length ps)
  | _ => 0
  end.

(** * Properties *)

Example isPartition_tests :
  isPartition [] = true ∧ isPartition [1] = true ∧ isPartition [1; 1] = true ∧
  isPartition [2; 1] = true ∧ isPartition [-1] = false ∧
  isPartition [1; 2] = false.
Proof. repeat split. Qed.

Example isLatticeWord_tests :
  isLatticeWord [] = true ∧ isLatticeWord [1] = true ∧
  isLatticeWord [2] = false ∧ isLatticeWord [1; 1; 2; 3; 1; 2] = true ∧
  isLatticeWord [1; 2; 2] = false.
Proof. repeat split. Qed.

Example hwToPartition_tests :
  hwToPartition [1; 1; 2; 2; 1] = Ret [3; 2] ∧
  hwToPartition [1; 1; 2; 1; 2; 3] = Ret [3; 2; 1] ∧
  partitionToHw [4; 2; 1] = Ret [1; 1; 1; 1; 2; 2; 3].
Proof. repeat split. Qed.

Example crystal_f_tests :
  crystal_f 1 [1; 1] = 0 ∧ crystal_f 1 [2; 1] = 1 ∧ crystal_f 1 [2; 2] = -1 ∧
  crystal_f 2 [3; 2; 2; 3; 2] = 1 ∧
  StackVersion.crystal_f 1 [2; 1] = Some [2; 2] ∧
  StackVersion.crystal_f 1 [2; 2] = None ∧
  StackVersion.crystal_f 2 [3; 2; 2; 3; 2] = Some [3; 3; 2; 3; 2].
Proof. repeat split. Qed.

(** C6: the documented concrete cases.  [expandInGL(3, [1])] returns the
    vertices [1], [2], [3]; [expandInGL(3, [1,1])] returns the six vertices
    [1,1], [2,1], [2,2], [3,1], [3,2], [3,3] (in depth-first order);
    [dimensionInGL(3, [2,1])] is 8; [tensorPartitions(2, [1], [1])] returns
    the partitions [2] and [1,1]. *)
Theorem concrete_cases :
  (∃ fuel, expandInGL fuel 3 [1] = Ret [[1]; [2]; [3]]) ∧
  (∃ fuel l, expandInGL fuel 3 [1; 1] = Ret l ∧
     l ≡ₚ [[1; 1]; [2; 1]; [2; 2]; [3; 1]; [3; 2]; [3; 3]]) ∧
  dimensionInGL 3 [2; 1] = Ret (of_Z 8) ∧
  (∃ fuel l, tensorPartitions fuel 2 [1] [1] = Ret l ∧ l ≡ₚ [[2]; [1; 1]]).
Proof.
  split_and!.
  - by exists 20%nat.
  - exists 40%nat, [[1; 1]; [2; 1]; [2; 2]; [3; 2]; [3; 3]; [3; 1]].
    split; [by vm_compute|].
    do 3 apply Permutation_skip.
    symmetry. apply (Permutation_cons_append [[3; 2]; [3; 3]] [3; 1]).
  - by vm_compute.
  - exists 20%nat, [[2]; [1; 1]]. split; [by vm_compute|done].
Qed.

(** ** Array access *)

Lemma js_get_Some a i x :
  js_get a i = Some x ↔ 0 ≤ i ∧ a !! Z.to_nat i = Some x.
Proof.
  unfold js_get. destruct (Z.ltb_spec i 0); split; intros; destruct_and?; (done || lia).
Qed.

Lemma js_get_app_r (l : list Z) c :
  js_get (l ++ [c]) (Z.of_nat (length l)) = Some c.
Proof.
  apply js_get_Some. split; [lia|].
  rewrite Nat2Z.id. by apply list_lookup_middle.
Qed.

Lemma js_get_app_l (l : list Z) a c :
  js_get ((l ++ [a]) ++ [c]) (Z.of_nat (length l)) = Some a.
Proof.
  apply js_get_Some. split; [lia|].
  rewrite Nat2Z.id, <- app_assoc. by apply list_lookup_middle.
Qed.

Lemma js_add_at_app_r (l : list Z) c d :
  js_add_at (l ++ [c]) (Z.of_nat (length l)) d = Some (l ++ [c + d]).
Proof.
  unfold js_add_at. rewrite js_get_app_r, Nat2Z.id.
  f_equal. rewrite insert_app_r_alt by lia.
  by replace (length l - length l)%nat with 0%nat by lia.
Qed.

(** ** Partitions *)

Lemma weakly_decreasing_cons a l :
  weakly_decreasing (a :: l) = true → weakly_decreasing l = true.
Proof. destruct l as [|b l]; simpl; [done|]. by case_match. Qed.

Lemma weakly_decreasing_app_inv l1 l2 :
  weakly_decreasing (l1 ++ l2) = true → weakly_decreasing l2 = true.
Proof.
  induction l1 as [|a l1 IH]; [done|]. intros H.
  apply IH. by eapply weakly_decreasing_cons.
Qed.

Lemma weakly_decreasing_middle l1 a b l2 :
  weakly_decreasing (l1 ++ a :: b :: l2) = true → b ≤ a.
Proof.
  intros H%weakly_decreasing_app_inv. simpl in H.
  destruct (Z.ltb_spec a b); [done|lia].
Qed.

Lemma isPartition_positive p : isPartition p = true → Forall (λ x, 0 < x) p.
Proof.
  unfold isPartition. intros [Hd Hl]%andb_true_iff.
  induction p as [|a [|b p] IH].
  - constructor.
  - simpl in Hl. constructor; [|constructor].
    destruct (Z.leb_spec a 0); [done|lia].
  - assert (Forall (λ x, 0 < x) (b :: p)) as Hp.
    { apply IH; [by eapply weakly_decreasing_cons|done]. }
    constructor; [|done].
    apply Forall_cons_1 in Hp as [? _]. simpl in Hd.
    destruct (Z.ltb_spec a b); [done|lia].
Qed.

(** ** The canonical lattice word of a partition *)

Lemma lattice_row_grow (done : list Z) c (k : nat) w :
  1 ≤ c →
  match last done with Some a => c + Z.of_nat k ≤ a | None => True end →
  latticeWordToMaybePartition (done ++ [c])
    (replicate k (Z.of_nat (length done) + 1) ++ w)
  = latticeWordToMaybePartition (done ++ [c + Z.of_nat k]) w.
Proof.
  revert c. induction k as [|k IH]; intros c Hc Hlast.
  { simpl. by rewrite Z.add_0_r. }
  cbn [replicate app latticeWordToMaybePartition].
  assert (lattice_step (done ++ [c]) (Z.of_nat (length done) + 1)
          = Some (done ++ [c + 1])) as ->.
  { unfold lattice_step. rewrite length_app. simpl length.
    destruct (Z.eqb_spec (Z.of_nat (length done) + 1 - 1)
                (Z.of_nat (length done + 1))); [lia|].
    destruct (Z.eqb_spec (Z.of_nat (length done) + 1) 1) as [H0|Hn0].
    { destruct done; [|simpl in H0; lia]. done. }
    destruct (Z.ltb_spec (Z.of_nat (length done + 1))
                (Z.of_nat (length done) + 1 - 1)); [lia|].
    destruct done as [|a0 done0 _] using rev_ind; [done|].
    rewrite last_snoc in Hlast. rewrite length_app in *. simpl length in *.
    replace (Z.of_nat (length done0 + 1) + 1 - 2)
      with (Z.of_nat (length done0)) by lia.
    replace (Z.of_nat (length done0 + 1) + 1 - 1)
      with (Z.of_nat (length (done0 ++ [a0]))) by (rewrite length_app; simpl; lia).
    rewrite js_get_app_l, js_get_app_r.
    destruct (Z.ltb_spec c a0); [|lia].
    by rewrite js_add_at_app_r. }
  rewrite IH; [|lia|destruct (last done); [lia|done]].
  do 3 f_equal. lia.
Qed.

Lemma lattice_row (done : list Z) r w :
  0 < r →
  match last done with Some a => r ≤ a | None => True end →
  latticeWordToMaybePartition done
    (replicate (Z.to_nat r) (Z.of_nat (length done) + 1) ++ w)
  = latticeWordToMaybePartition (done ++ [r]) w.
Proof.
  intros Hr Hlast.
  destruct (Z.to_nat r) as [|k] eqn:Hk; [lia|].
  cbn [replicate app latticeWordToMaybePartition].
  assert (lattice_step done (Z.of_nat (length done) + 1) = Some (done ++ [1]))
    as ->.
  { unfold lattice_step.
    by destruct (Z.eqb_spec (Z.of_nat (length done) + 1 - 1)
                   (Z.of_nat (length done))); [|lia]. }
  rewrite lattice_row_grow; [|lia|destruct (last done); [lia|done]].
  do 3 f_equal. lia.
Qed.

Lemma lattice_hw_rows (done rest : list Z) :
  weakly_decreasing (done ++ rest) = true →
  Forall (λ x, 0 < x) rest →
  latticeWordToMaybePartition done (hw_rows (Z.of_nat (length done)) rest)
  = Some (done ++ rest).
Proof.
  revert done. induction rest as [|r rest IH]; intros done Hd Hpos.
  { simpl. by rewrite app_nil_r. }
  apply Forall_cons_1 in Hpos as [Hr Hpos].
  cbn [hw_rows]. rewrite lattice_row; [|done|].
  - replace (Z.of_nat (length done) + 1)
      with (Z.of_nat (length (done ++ [r]))) by (rewrite length_app; simpl; lia).
    rewrite IH; [by rewrite <- app_assoc| |done].
    by rewrite <- app_assoc.
  - destruct done as [|a done0 _] using rev_ind; [done|].
    rewrite last_snoc. rewrite <- app_assoc in Hd.
    exact (weakly_decreasing_middle done0 a r rest Hd).
Qed.

(** C3: for a valid partition [p], [partitionToHw(p)] returns a word on
    which the lattice-word recognizer, started from the empty partition,
    succeeds and returns [p]. *)
Theorem partitionToHw_round_trip (p : Partition) :
  isPartition p = true →
  ∃ v, partitionToHw p = Ret v ∧ latticeWordToMaybePartition [] v = Some p.
Proof.
  intros Hp. exists (hw_rows 0 p). split.
  - unfold partitionToHw. by rewrite Hp.
  - apply (lattice_hw_rows [] p).
    + by apply andb_true_iff in Hp as [? _].
    + by apply isPartition_positive.
Qed.

Lemma partitionToHw_round_trip_witness :
  isPartition [4; 2; 1] = true ∧
  ∃ v, partitionToHw [4; 2; 1] = Ret v ∧
       latticeWordToMaybePartition [] v = Some [4; 2; 1].
Proof. split; [reflexivity|]. apply partitionToHw_round_trip. reflexivity. Defined.

(** ** The edge operator and its stack of open brackets *)

Lemma tracks_scan i v j bottom size stack :
  tracks bottom size stack →
  tracks (crystal_f_scan i v j bottom size).1 (crystal_f_scan i v j bottom size).2
         (StackVersion.scan i v j stack).
Proof.
  revert j bottom size stack.
  induction v as [|x v IH]; intros j bottom size stack [Hlen Hbot]; [done|].
  simpl. destruct (x =? i).
  - destruct (Z.leb_spec size 0).
    + apply IH. destruct stack; [|simpl in Hlen; lia]. by split.
    + apply IH. destruct stack as [|b stack]; [simpl in Hlen; lia|].
      split; [|by intros; apply Hbot].
      rewrite length_app. simpl in *. lia.
  - destruct (x =? i + 1); [|by apply IH].
    apply IH. unfold StackVersion.pop.
    destruct stack as [|b stack _] using rev_ind.
    { change (length []) with 0%nat in Hlen. split; [simpl; lia|]. intros. lia. }
    rewrite removelast_last. rewrite length_app in Hlen. simpl in Hlen.
    split; [lia|]. intros Hs.
    destruct stack as [|b0 stack]; [simpl in Hlen; lia|].
    apply Hbot. lia.
Qed.

Lemma crystal_f_head i v :
  crystal_f i v = match StackVersion.scan i v 0 [] with [] => -1 | b :: _ => b end.
Proof.
  pose proof (tracks_scan i v 0 0 0 []) as [Hlen Hbot]; [by split|].
  unfold crystal_f. destruct (crystal_f_scan i v 0 0 0) as [bottom size].
  simpl in *. destruct (Z.leb_spec size 0).
  - destruct (StackVersion.scan i v 0 []); [done|simpl in Hlen; lia].
  - destruct (StackVersion.scan i v 0 []); [simpl in Hlen; lia|].
    specialize (Hbot ltac:(lia)). by simplify_eq/=.
Qed.

Lemma open_positions_snoc i v bound stack :
  open_positions i v bound stack → js_get v bound = Some i →
  open_positions i v (bound + 1) (stack ++ [bound]).
Proof.
  intros [Hall Hsort] Hget. split.
  - apply Forall_app. split.
    + eapply Forall_impl; [done|]. intros p [? ?]. split; [lia|done].
    + repeat constructor; [lia|done].
  - induction Hall as [|p stack [Hp _] Hall IH]; [repeat constructor|].
    apply StronglySorted_inv in Hsort as [Hsort Hps].
    simpl. constructor; [by apply IH|].
    apply Forall_app. split; [done|]. repeat constructor. lia.
Qed.

Lemma open_positions_pop i v bound stack :
  open_positions i v bound stack →
  open_positions i v (bound + 1) (StackVersion.pop stack).
Proof.
  intros Hop. unfold StackVersion.pop.
  destruct stack as [|b stack _] using rev_ind.
  { split; constructor. }
  rewrite removelast_last. destruct Hop as [Hall Hsort].
  apply Forall_app in Hall as [Hall _]. split.
  - eapply Forall_impl; [done|]. intros p [? ?]. split; [lia|done].
  - clear Hall. induction stack as [|p stack IH]; [constructor|].
    apply StronglySorted_inv in Hsort as [Hsort Hps].
    apply Forall_app in Hps as [Hps _]. constructor; auto.
Qed.

Lemma open_positions_weaken i v bound stack :
  open_positions i v bound stack → open_positions i v (bound + 1) stack.
Proof.
  intros [Hall Hsort]. split; [|done].
  eapply Forall_impl; [done|]. intros p [? ?]. split; [lia|done].
Qed.

Lemma open_positions_scan i pre v stack :
  open_positions i (pre ++ v) (Z.of_nat (length pre)) stack →
  open_positions i (pre ++ v) (Z.of_nat (length (pre ++ v)))
    (StackVersion.scan i v (Z.of_nat (length pre)) stack).
Proof.
  revert pre stack. induction v as [|x v IH]; intros pre stack Hop.
  { by rewrite app_nil_r in *. }
  assert (Z.of_nat (length pre) + 1 = Z.of_nat (length (pre ++ [x]))) as Hlen.
  { rewrite length_app. simpl. lia. }
  assert (js_get (pre ++ x :: v) (Z.of_nat (length pre)) = Some x) as Hget.
  { apply js_get_Some. split; [lia|].
    rewrite Nat2Z.id. by apply list_lookup_middle. }
  simpl. rewrite Hlen. rewrite (cons_middle x pre v), app_assoc in *.
  destruct (Z.eqb_spec x i) as [->|].
  - apply IH. rewrite <- Hlen. by apply open_positions_snoc.
  - destruct (x =? i + 1); apply IH; rewrite <- Hlen.
    + by apply open_positions_pop.
    + by apply open_positions_weaken.
Qed.

Lemma crystal_f_open i v :
  match StackVersion.scan i v 0 [] with
  | [] => True
  | b :: rest => 0 ≤ b ∧ js_get v b = Some i ∧ Forall (λ p, b < p) rest
  end.
Proof.
  pose proof (open_positions_scan i [] v []) as [Hall Hsort].
  { split; constructor. }
  cbn [app length] in *. change (Z.of_nat 0) with 0 in *.
  destruct (StackVersion.scan i v 0 []) as [|b rest]; [done|].
  apply Forall_cons_1 in Hall as [[_ Hget] _].
  apply StronglySorted_inv in Hsort as [_ Hrest].
  split_and!; [|done|done]. by apply js_get_Some in Hget as [? _].
Qed.

(** Moving along an edge: [mutVert[maybeIdx] += 1] writes [i + 1]. *)
Lemma js_add_at_insert v b i :
  js_get v b = Some i → js_add_at v b 1 = Some (<[Z.to_nat b := i + 1]> v).
Proof. intros H. unfold js_add_at. by rewrite H. Qed.

(** C2: the two-integer [crystal_f] returns -1 exactly when the stack of
    the bracket matching (letters [i] open, letters [i + 1] close the most
    recent open bracket) ends empty, and otherwise the bottom of that stack,
    which is a letter [i] lying to the left of every other bracket left
    open; hence it agrees with the stack-based [crystal_f], which returns
    [null] in the first case and the word with that letter replaced by
    [i + 1] in the second. *)
Theorem crystal_f_refines_stack (i : Z) (v : Vertex) :
  let unmatched := StackVersion.scan i v 0 [] in
  crystal_f i v = match unmatched with [] => -1 | b :: _ => b end ∧
  match unmatched with
  | [] => True
  | b :: rest => 0 ≤ b ∧ js_get v b = Some i ∧ Forall (λ p, b < p) rest
  end ∧
  StackVersion.crystal_f i v =
    (if crystal_f i v <? 0 then None
     else Some (<[Z.to_nat (crystal_f i v) := i + 1]> v)) ∧
  (if crystal_f i v <? 0 then None else js_add_at v (crystal_f i v) 1)
    = StackVersion.crystal_f i v.
Proof.
  intros unmatched. pose proof (crystal_f_head i v) as Hhead.
  pose proof (crystal_f_open i v) as Hopen.
  unfold StackVersion.crystal_f. fold unmatched in Hhead, Hopen |- *.
  split_and!; [done|done| |].
  - rewrite Hhead. destruct unmatched as [|b rest]; [done|].
    destruct Hopen as (? & _). by destruct (Z.ltb_spec b 0); [lia|].
  - rewrite Hhead. destruct unmatched as [|b rest]; [done|].
    destruct Hopen as (? & Hget & _).
    destruct (Z.ltb_spec b 0); [lia|]. by apply js_add_at_insert.
Qed.

(** ** The order of [compareLists] *)

Lemma compareLists_flip a b : compareLists b a = flip_order (compareLists a b).
Proof.
  revert b. induction a as [|x a IH]; intros [|y b]; simpl; try done.
  destruct (Z.ltb_spec x y), (Z.ltb_spec y x); try done; lia.
Qed.

Lemma compareLists_Zero a b : compareLists a b = Zero ↔ a = b.
Proof.
  revert b. induction a as [|x a IH]; intros b; destruct b as [|y b]; simpl;
    try done.
  destruct (Z.ltb_spec x y), (Z.ltb_spec y x);
    try (split; [done|]; intros [= ? ?]; lia).
  rewrite IH. assert (x = y) as -> by lia.
  split; [by intros ->|by intros [= ->]].
Qed.

Lemma compareLists_trans a b c :
  compareLists a b ≠ Neg → compareLists b c ≠ Neg →
  compareLists a c ≠ Neg ∧
  (compareLists a b = Pos ∨ compareLists b c = Pos → compareLists a c = Pos).
Proof.
  revert b c. induction a as [|x a IH]; intros [|y b] [|z c]; simpl;
    try (intros; split; [done|]; intros [?|?]; done).
  destruct (Z.ltb_spec x y), (Z.ltb_spec y x), (Z.ltb_spec y z),
    (Z.ltb_spec z y), (Z.ltb_spec x z), (Z.ltb_spec z x);
    try lia; try (intros; split; [done|]; intros [?|?]; done).
  apply IH.
Qed.

Lemma keeps_before_ge a b : keeps_before a b = true ↔ ge_part a b.
Proof. unfold keeps_before, ge_part. by destruct (compareLists _ _). Qed.

Lemma gt_ge a b : gt_part a b → ge_part a b.
Proof. unfold gt_part, ge_part. by intros ->. Qed.

Lemma ge_total a b : ¬ ge_part a b → ge_part b a.
Proof.
  unfold ge_part. rewrite (compareLists_flip (part a) (part b)).
  destruct (compareLists (part a) (part b)); naive_solver.
Qed.

Global Instance ge_part_trans : Transitive ge_part.
Proof. intros a b c ? ?. by eapply compareLists_trans. Qed.

Lemma gt_ge_trans a b c : gt_part a b → ge_part b c → gt_part a c.
Proof.
  intros Hab Hbc. eapply compareLists_trans; [by apply gt_ge|done|by left].
Qed.

(** ** The sort and the merge of [algebraNormalise] *)

Lemma sort_insert_sorted a l : Sorted ge_part l → Sorted ge_part (sort_insert a l).
Proof.
  induction 1 as [|b l Hl IH Hb]; simpl; [by repeat constructor|].
  destruct (keeps_before a b) eqn:Hab.
  - constructor; [by constructor|]. constructor. by apply keeps_before_ge.
  - constructor; [done|].
    assert (ge_part b a) as Hba.
    { apply ge_total. rewrite <- keeps_before_ge. by rewrite Hab. }
    destruct Hb as [|c l Hbc]; simpl; [by constructor|].
    destruct (keeps_before a c); by constructor.
Qed.

Lemma sort_desc_sorted l : StronglySorted ge_part (sort_desc l).
Proof.
  apply Sorted_StronglySorted; [apply _|].
  induction l as [|a l IH]; simpl; [constructor|].
  by apply sort_insert_sorted.
Qed.

Lemma strictly_descending_Sorted l :
  strictly_descending l = true ↔ Sorted gt_part l.
Proof.
  induction l as [|a [|b l] IH]; [by split; [constructor|]..|].
  change (strictly_descending (a :: b :: l))
    with (match compareLists (part a) (part b) with
          | Pos => strictly_descending (b :: l) | _ => false end).
  split.
  - destruct (compareLists (part a) (part b)) eqn:Hab; try done.
    intros. constructor; [by apply IH|by constructor].
  - intros [Hs Hh]%Sorted_inv. apply HdRel_inv in Hh.
    unfold gt_part in Hh. rewrite Hh. by apply IH.
Qed.

Lemma is_normal_spec l :
  is_normal l = true ↔ Sorted gt_part l ∧ Forall (λ t, mult t ≠ 0) l.
Proof.
  unfold is_normal. rewrite andb_true_iff, strictly_descending_Sorted.
  rewrite forallb_forall, Forall_forall.
  split; intros [? Hm]; (split; [done|]); intros t Ht%list_elem_of_In.
  - specialize (Hm t Ht). destruct (Z.eqb_spec (mult t) 0); [done|lia].
  - specialize (Hm t Ht). by destruct (Z.eqb_spec (mult t) 0).
Qed.

Lemma sort_desc_normal l : Sorted gt_part l → sort_desc l = l.
Proof.
  induction 1 as [|a l Hl IH Ha]; [done|].
  simpl. rewrite IH. destruct Ha as [|b l Hab]; [done|].
  simpl. apply gt_ge, keeps_before_ge in Hab. by rewrite Hab.
Qed.

Lemma normalise_step_inv result t rest :
  StronglySorted ge_part (t :: rest) → merge_inv result (t :: rest) →
  merge_inv (normalise_step result t) rest.
Proof.
  intros [Hrest Ht]%StronglySorted_inv (Hs & Hm & Hb).
  unfold normalise_step. destruct (Z.eqb_spec (mult t) 0) as [|Hmt].
  { split_and!; [done..|]. destruct result; [done|].
    by apply Forall_cons_1 in Hb as [_ ?]. }
  destruct result as [|lst result]; [by repeat constructor|].
  apply Forall_cons_1 in Hb as [Hlt Hb].
  apply Forall_cons_1 in Hm as [Hml Hm].
  apply Sorted_inv in Hs as [Hs Hh].
  destruct (compareLists (part lst) (part t)) eqn:Hc.
  - by destruct Hlt.
  - destruct (Z.eqb_spec (mult lst + mult t) 0).
    + split_and!; [done..|]. destruct Hh as [|x result Hx]; [done|].
      eapply Forall_impl; [exact Hb|]. intros y Hy.
      unfold flip in Hx. by eapply gt_ge, gt_ge_trans.
    + split_and!.
      * constructor; [done|]. by destruct Hh; constructor.
      * by constructor.
      * done.
  - split_and!.
    + constructor; [by constructor|]. by constructor.
    + by repeat constructor.
    + done.
Qed.

Lemma normalise_loop_inv rest result :
  StronglySorted ge_part rest → merge_inv result rest →
  merge_inv (foldl normalise_step result rest) [].
Proof.
  revert result. induction rest as [|t rest IH]; intros result Hs Hi; [done|].
  simpl. apply IH; [by apply StronglySorted_inv in Hs as [? _]|].
  by apply normalise_step_inv.
Qed.

Lemma algebraNormalise_normal l : is_normal (algebraNormalise l) = true.
Proof.
  apply is_normal_spec. unfold algebraNormalise.
  destruct (normalise_loop_inv (sort_desc l) []) as (Hs & Hm & _).
  { apply sort_desc_sorted. }
  { by repeat constructor. }
  split; [|by apply Forall_reverse].
  exact (Sorted_reverse _ _ Hs).
Qed.

Lemma normalise_loop_normal l result :
  Sorted gt_part l → Forall (λ t, mult t ≠ 0) l →
  match result, l with
  | lst :: _, t :: _ => gt_part lst t
  | _, _ => True
  end →
  foldl normalise_step result l = reverse l ++ result.
Proof.
  intros Hs. revert result. induction Hs as [|t l Hl IH Ht]; intros result Hm Hb.
  { done. }
  apply Forall_cons_1 in Hm as [Hmt Hm].
  assert (normalise_step result t = t :: result) as Hstep.
  { unfold normalise_step. destruct (Z.eqb_spec (mult t) 0); [done|].
    destruct t as [p m]. destruct result as [|lst result]; [done|].
    unfold gt_part in Hb. by rewrite Hb. }
  simpl. rewrite Hstep, IH; [|done|by destruct Ht].
  by rewrite reverse_cons, <- app_assoc.
Qed.

Lemma algebraNormalise_fixes_normal l :
  is_normal l = true → algebraNormalise l = l.
Proof.
  intros [Hs Hm]%is_normal_spec. unfold algebraNormalise.
  rewrite sort_desc_normal by done.
  rewrite normalise_loop_normal by (done || by destruct l).
  by rewrite app_nil_r, reverse_involutive.
Qed.

(** C9: [algebraNormalise] is idempotent; its result is sorted strictly
    descending in the order of [compareLists] (so without duplicate
    partitions) and free of multiplicity 0, and a list of that form is
    returned unchanged. *)
Theorem algebraNormalise_idempotent (l : Linear) :
  algebraNormalise (algebraNormalise l) = algebraNormalise l ∧
  is_normal (algebraNormalise l) = true ∧
  (is_normal l = true → algebraNormalise l = l).
Proof.
  split_and!.
  - apply algebraNormalise_fixes_normal, algebraNormalise_normal.
  - apply algebraNormalise_normal.
  - apply algebraNormalise_fixes_normal.
Qed.

Lemma algebraNormalise_idempotent_witness :
  let l := [Term [2; 1] 1; Term [1] 5; Term [] 3] in
  is_normal l = true ∧ algebraNormalise l = l.
Proof.
  intros l. split; [reflexivity|].
  apply (algebraNormalise_idempotent l). reflexivity.
Defined.

(** ** Keys of the seen set *)

Lemma pretty_N_char_comma x : pretty_N_char x ≠ ","%char.
Proof. unfold pretty_N_char. by repeat case_match. Qed.

Lemma pretty_N_go_comma_free x s :
  comma_free s → comma_free (pretty_N_go x s) ∧ (s ≠ "" → pretty_N_go x s ≠ "").
Proof.
  revert s. induction (N.lt_wf_0 x) as [x _ IH]; intros s Hs.
  assert (x = 0 ∨ 0 < x)%N as [->|Hx] by lia.
  { by rewrite pretty_N_go_0. }
  rewrite pretty_N_go_step by done.
  destruct (IH (x `div` 10)%N) with (s := String (pretty_N_char (x `mod` 10)) s)
    as [Hc Hne].
  - by apply N.div_lt.
  - split; [apply pretty_N_char_comma|done].
  - split; [done|]. intros _. by apply Hne.
Qed.

Lemma pretty_positive_comma_free (p : positive) :
  comma_free (pretty p) ∧ pretty p ≠ "".
Proof.
  unfold pretty, pretty_positive, pretty, pretty_N.
  destruct (decide (N.pos p = 0)%N); [done|].
  rewrite pretty_N_go_step by lia.
  destruct (pretty_N_go_comma_free (N.pos p `div` 10)%N
              (String (pretty_N_char (N.pos p `mod` 10)) "")) as [? Hne].
  - split; [apply pretty_N_char_comma|done].
  - split; [done|]. by apply Hne.
Qed.

Lemma pretty_Z_comma_free (z : Z) : comma_free (pretty z) ∧ pretty z ≠ "".
Proof.
  destruct z as [|p|p]; unfold pretty, pretty_Z.
  - by repeat split.
  - apply pretty_positive_comma_free.
  - split; [|done]. split; [done|]. apply pretty_positive_comma_free.
Qed.

(** Two comma-free strings followed by nothing or by a comma. *)
Lemma comma_free_prefix_inj s1 s2 r1 r2 :
  comma_free s1 → comma_free s2 →
  (r1 = "" ∨ ∃ t, r1 = String ","%char t) →
  (r2 = "" ∨ ∃ t, r2 = String ","%char t) →
  s1 +:+ r1 = s2 +:+ r2 → s1 = s2 ∧ r1 = r2.
Proof.
  revert s2. induction s1 as [|c s1 IH]; intros [|c2 s2] H1 H2 Hr1 Hr2 Heq;
    simpl in *.
  - done.
  - destruct H2 as [Hc _]. destruct Hr1 as [->|[t ->]]; [done|]. by simplify_eq.
  - destruct H1 as [Hc _]. destruct Hr2 as [->|[t ->]]; [done|]. by simplify_eq.
  - destruct H1 as [_ H1], H2 as [_ H2]. simplify_eq.
    destruct (IH s2) as [-> ->]; done.
Qed.

Lemma append_empty_r (s : string) : s +:+ "" = s.
Proof.
  induction s as [|c s IH]; [done|].
  change (String c (s +:+ "") = String c s). by rewrite IH.
Qed.

Lemma join_rest (s : string) (l : list string) :
  ∃ r, join "," (s :: l) = s +:+ r ∧
       ((r = "" ∧ l = []) ∨ (r = String ","%char (join "," l) ∧ l ≠ [])).
Proof.
  destruct l as [|s' l].
  - exists "". split; [|by left]. simpl. by rewrite append_empty_r.
  - exists (String ","%char (join "," (s' :: l))). split; [done|by right].
Qed.

Lemma join_inj (l1 l2 : list string) :
  Forall (λ s, comma_free s ∧ s ≠ "") l1 →
  Forall (λ s, comma_free s ∧ s ≠ "") l2 →
  join "," l1 = join "," l2 → l1 = l2.
Proof.
  intros H1. revert l2. induction H1 as [|s1 l1 [Hc1 Hn1] H1 IH];
    intros l2 H2 Heq.
  - destruct H2 as [|s2 l2 [Hc2 Hn2] H2]; [done|].
    destruct (join_rest s2 l2) as (r & Hr & _). rewrite Hr in Heq.
    simpl in Heq. destruct s2; [done|discriminate].
  - destruct H2 as [|s2 l2 [Hc2 Hn2] H2].
    { destruct (join_rest s1 l1) as (r & Hr & _). rewrite Hr in Heq.
      simpl in Heq. destruct s1; [done|discriminate]. }
    destruct (join_rest s1 l1) as (r1 & Hr1 & Hd1).
    destruct (join_rest s2 l2) as (r2 & Hr2 & Hd2).
    rewrite Hr1, Hr2 in Heq.
    apply comma_free_prefix_inj in Heq as [-> Hr]; [|done|done|..].
    + f_equal. destruct Hd1 as [[-> ->]|[-> Hl1]], Hd2 as [[-> ->]|[-> Hl2]];
        try done.
      apply IH; [done|]. by simplify_eq.
    + destruct Hd1 as [[-> _]|[-> _]]; eauto.
    + destruct Hd2 as [[-> _]|[-> _]]; eauto.
Qed.

Lemma toString_inj (v w : list Z) : toString v = toString w → v = w.
Proof.
  unfold toString. intros Heq%join_inj.
  - revert w Heq. induction v as [|x v IH]; intros [|y w] Heq; try done.
    injection Heq as Hx Hrest.
    f_equal; [by apply (inj pretty)|by apply IH].
  - apply Forall_fmap, Forall_true. intros x. apply pretty_Z_comma_free.
  - apply Forall_fmap, Forall_true. intros x. apply pretty_Z_comma_free.
Qed.

(** ** Edges of the crystal *)

Lemma crystal_f_cases i v :
  (crystal_f i v < 0 ∧ StackVersion.crystal_f i v = None) ∨
  (∃ w, 0 ≤ crystal_f i v ∧ js_get v (crystal_f i v) = Some i ∧
        w = <[Z.to_nat (crystal_f i v) := i + 1]> v ∧
        StackVersion.crystal_f i v = Some w ∧
        js_add_at v (crystal_f i v) 1 = Some w ∧
        js_add_at w (crystal_f i v) (-1) = Some v).
Proof.
  pose proof (crystal_f_head i v) as Hhead.
  pose proof (crystal_f_open i v) as Hopen.
  unfold StackVersion.crystal_f.
  destruct (StackVersion.scan i v 0 []) as [|b rest].
  { left. split; [lia|done]. }
  right. destruct Hopen as (Hb & Hget & _). rewrite Hhead.
  eexists. split_and!; [done|done|done|done|by apply js_add_at_insert|].
  apply js_get_Some in Hget as [_ Hget].
  unfold js_add_at.
  assert (js_get (<[Z.to_nat b:=i + 1]> v) b = Some (i + 1)) as ->.
  { apply js_get_Some. split; [done|].
    apply list_lookup_insert_eq. by eapply lookup_lt_Some. }
  cbv beta iota. rewrite list_insert_insert_eq. f_equal.
  apply list_insert_id. rewrite Hget. f_equal. lia.
Qed.

Lemma edge_well_formed n m v w :
  well_formed n m v → edge n v w → well_formed n m w.
Proof.
  intros [Hlen Hall] (i & Hi & Hf).
  destruct (crystal_f_cases i v) as [[_ Hnone]|(w' & _ & _ & -> & Hw & _)];
    [congruence|].
  assert (w = <[Z.to_nat (crystal_f i v):=i + 1]> v) as -> by congruence.
  split; [by rewrite length_insert|].
  apply Forall_insert; [done|lia].
Qed.

Lemma reachable_well_formed n start w :
  well_formed n (length start) start → reachable n start w →
  well_formed n (length start) w.
Proof.
  intros Hs. revert w. unfold reachable. apply rtc_ind_r; [done|].
  intros y z _ Hyz IH. by eapply edge_well_formed.
Qed.

Lemma words_complete n m v : well_formed n m v → v ∈ words n m.
Proof.
  intros [<- Hall]. induction Hall as [|x v Hx Hall IH]; simpl.
  - by apply list_elem_of_singleton.
  - apply list_elem_of_bind. exists x. split.
    + by apply list_elem_of_fmap_2.
    + apply elem_of_seqZ. lia.
Qed.

Lemma visited_bound n m (visited : list Vertex) :
  NoDup visited → Forall (well_formed n m) visited →
  (length visited ≤ length (words n m))%nat.
Proof.
  intros Hnd Hwf. apply submseteq_length, NoDup_submseteq; [done|].
  intros v Hv. apply words_complete.
  by eapply Forall_forall in Hwf.
Qed.

(** ** Lattice words use positive letters *)

Lemma lattice_step_positive p num q : lattice_step p num = Some q → 1 ≤ num.
Proof.
  unfold lattice_step.
  destruct (Z.eqb_spec (num - 1) (Z.of_nat (length p))); [lia|].
  destruct (Z.eqb_spec num 1); [lia|].
  destruct (Z.ltb_spec (Z.of_nat (length p)) (num - 1)); [done|].
  destruct (js_get p (num - 2)) eqn:Hget; [|done].
  apply js_get_Some in Hget. lia.
Qed.

Lemma lattice_word_positive p v q :
  latticeWordToMaybePartition p v = Some q → Forall (λ x, 1 ≤ x) v.
Proof.
  revert p. induction v as [|x v IH]; intros p H; [constructor|].
  simpl in H. destruct (lattice_step p x) eqn:Hstep; [|done].
  constructor; [by eapply lattice_step_positive|by eapply IH].
Qed.

Lemma vertexHeight_bound v : Forall (λ x, x ≤ vertexHeight v) v.
Proof.
  unfold vertexHeight.
  cut (∀ a, a ≤ foldl Z.max a v ∧ Forall (λ x, x ≤ foldl Z.max a v) v).
  { intros H. apply H. }
  induction v as [|x v IH]; intros a; simpl; [split; [lia|constructor]|].
  destruct (IH (Z.max a x)) as [Ha Hall]. split; [lia|].
  constructor; [lia|done].
Qed.

Lemma start_well_formed n start :
  isLatticeWord start = true → vertexHeight start ≤ n →
  well_formed n (length start) start.
Proof.
  intros Hlw Hh. split; [done|].
  apply bool_decide_eq_true in Hlw as [q Hq].
  apply lattice_word_positive in Hq.
  pose proof (vertexHeight_bound start) as Hb.
  rewrite Forall_forall in *. intros x Hx.
  specialize (Hq x Hx). specialize (Hb x Hx). lia.
Qed.

(** ** The invariant of the traversal *)

Lemma expanded_mono (visited visited' : list Vertex) u t :
  (∀ w, w ∈ visited → w ∈ visited') →
  expanded visited u t → expanded visited' u t.
Proof. intros Hsub He i w Hi Hw. eauto. Qed.

Lemma path_mono n (visited visited' : list Vertex) start v te ms es verts :
  (∀ w, w ∈ visited → w ∈ visited') →
  path n visited start v te ms es verts →
  path n visited' start v te ms es verts.
Proof.
  intros Hsub. induction 1; econstructor; eauto using expanded_mono.
Qed.

Lemma path_retop n visited start v te te' ms es verts :
  path n visited start v te ms es verts →
  1 ≤ te' ≤ n → expanded visited v te' →
  path n visited start v te' ms es verts.
Proof. intros Hp ? ?. inversion Hp; subst; by econstructor. Qed.

Lemma path_top n visited start v te ms es verts :
  path n visited start v te ms es verts →
  1 ≤ te ≤ n ∧ expanded visited v te ∧ v ∈ visited ∧
  Forall (λ e, 2 ≤ e ≤ n) es.
Proof.
  induction 1 as [|parent e ms es verts v te Hp IH];
    [split_and!; first [done|lia|constructor]|].
  destruct IH as (? & _ & _ & ?). split_and!; try done; try lia.
  constructor; [lia|done].
Qed.

Lemma expanded_next visited v te :
  expanded visited v te →
  match StackVersion.crystal_f te v with
  | Some w => w ∈ visited
  | None => True
  end →
  expanded visited v (te + 1).
Proof.
  intros He Hw i w Hi Hf.
  destruct (decide (i = te)) as [->|]; [by rewrite Hf in Hw|].
  eapply He; [|done]. lia.
Qed.

Lemma potential_bounds n start st :
  1 ≤ n → well_formed n (length start) start → dfs_inv n start st →
  0 ≤ potential n (Z.of_nat (length (words n (length start)))) st.
Proof.
  intros Hn Hwf [_ Hnd Hreach (verts & Hp & _)].
  apply path_top in Hp as (Hte & _ & _ & Hes).
  assert (length (client st) ≤ length (words n (length start)))%nat.
  { apply visited_bound; [done|].
    eapply Forall_impl; [done|]. intros w. by apply reachable_well_formed. }
  assert (0 ≤ foldr (λ e acc, (n - e + 1) + acc) 0 (expStack st)).
  { induction Hes; simpl; lia. }
  unfold potential. nia.
Qed.

Lemma dfs_step_inv n start st :
  1 ≤ n → dfs_inv n start st →
  match dfs_step n push_copy st with
  | Break =>
      mutVert st = start ∧
      ∀ w, w ∈ client st → expanded (client st) w n
  | Continue st' =>
      dfs_inv n start st' ∧
      ∀ universe, potential n universe st' < potential n universe st
  | Undefined => False
  end.
Proof.
  intros Hn [Hseen Hnd Hreach (verts & Hp & Hclosed)].
  destruct st as [sn v ms es te vis]. simpl in *.
  pose proof (path_top _ _ _ _ _ _ _ _ Hp) as (Hte & Hexp & Hv & Hes).
  unfold dfs_step. simpl.
  destruct (Z.eqb_spec te n) as [->|Hne].
  - (* backtrack *)
    inversion Hp as [te' ? ? ? | parent e ms' es' verts' v' te' Hp' He Hf Hv' ? ?];
      subst.
    { split; [done|]. intros w Hw.
      destruct (Hclosed w Hw) as [->%list_elem_of_singleton|]; done. }
    destruct (crystal_f_cases (e - 1) parent)
      as [[_ Hnone]|(w & _ & _ & _ & Hw & _ & Hback)]; [congruence|].
    assert (w = v) as -> by congruence. rewrite Hback.
    split.
    + split; simpl; [done..|]. exists verts'. split; [done|].
      intros w Hw'. destruct (Hclosed w Hw') as [Hin|]; [|by right].
      apply elem_of_cons in Hin as [->|]; [by right|by left].
    + intros universe. unfold potential. simpl. lia.
  - destruct (crystal_f_cases te v)
      as [[Hneg Hnone]|(w & Hidx & _ & _ & Hw & Hmove & Hback)].
    + (* no edge *)
      destruct (Z.ltb_spec (crystal_f te v) 0); [|lia]. split.
      * split; simpl; [done..|]. exists verts. split; [|done].
        eapply path_retop; [done|lia|].
        apply expanded_next; [done|]. by rewrite Hnone.
      * intros universe. unfold potential. simpl. lia.
    + destruct (Z.ltb_spec (crystal_f te v) 0); [lia|].
      rewrite Hmove. case_bool_decide as Hin.
      * (* an edge to a vertex seen before *)
        rewrite Hback. split.
        -- split; simpl; [done..|]. exists verts. split; [|done].
           eapply path_retop; [done|lia|].
           apply expanded_next; [done|]. rewrite Hw.
           apply Hseen, list_elem_of_fmap_1 in Hin as (w' & Heq & Hw').
           by apply toString_inj in Heq as ->.
        -- intros universe. unfold potential. simpl. lia.
      * (* an edge to a new vertex *)
        assert (w ∉ vis) as Hnew.
        { intros Hw'. apply Hin, Hseen. by apply list_elem_of_fmap_2. }
        assert (∀ u, u ∈ vis → u ∈ push_copy vis w) as Hsub.
        { intros u Hu. apply elem_of_app. by left. }
        assert (w ∈ push_copy vis w) as Hwin.
        { apply elem_of_app. right. by apply list_elem_of_singleton. }
        split.
        -- split; simpl.
           ++ intros s. unfold push_copy. rewrite fmap_app, elem_of_app.
              rewrite elem_of_union, elem_of_singleton, Hseen.
              simpl. rewrite list_elem_of_singleton. tauto.
           ++ apply NoDup_app. split_and!; [done| |apply NoDup_singleton].
              intros u Hu ->%list_elem_of_singleton. done.
           ++ apply Forall_app. split; [done|]. constructor; [|done].
              eapply rtc_r; [by eapply Forall_forall in Hreach|].
              exists te. split; [lia|done].
           ++ exists (w :: verts). split.
              ** replace (crystal_f te v) with (crystal_f (te + 1 - 1) v)
                   by (f_equal; lia).
                 econstructor.
                 --- eapply path_retop; [by eapply path_mono|lia|].
                     apply expanded_next; [by eapply expanded_mono|].
                     by rewrite Hw.
                 --- lia.
                 --- by replace (te + 1 - 1) with te by lia.
                 --- done.
                 --- lia.
                 --- intros i u Hi. lia.
              ** intros u [Hu| ->%list_elem_of_singleton]%elem_of_app.
                 --- destruct (Hclosed u Hu) as [?|?].
                     +++ left. by apply elem_of_cons; right.
                     +++ right. by eapply expanded_mono.
                 --- left. by apply elem_of_cons; left.
        -- intros universe. unfold potential, push_copy. simpl.
           rewrite length_app. simpl. lia.
Qed.

(** ** Running the loop *)

Lemma dfs_step_replay {A} n (visit : A → Vertex → A) a0 st :
  dfs_step n visit (replay visit a0 st) =
  match dfs_step n push_copy st with
  | Break => Break
  | Continue st' => Continue (replay visit a0 st')
  | Undefined => Undefined
  end.
Proof.
  destruct st as [sn v ms es te vis]. unfold dfs_step, replay. simpl.
  repeat (case_match; simplify_eq/=; try done).
  unfold push_copy. by rewrite foldl_app.
Qed.

Lemma dfs_loop_replay {A} k n (visit : A → Vertex → A) a0 st :
  dfs_loop k n visit (replay visit a0 st) =
  ((dfs_loop k n push_copy st).1, replay visit a0 (dfs_loop k n push_copy st).2).
Proof.
  revert st. induction k as [|k IH]; intros st; [done|].
  simpl. rewrite dfs_step_replay.
  destruct (dfs_step n push_copy st); [done|apply IH|done].
Qed.

Lemma dfs_loop_stable {A} k k' n (visit : A → Vertex → A) st st' :
  dfs_loop k n visit st = (Halted, st') → (k ≤ k')%nat →
  dfs_loop k' n visit st = (Halted, st').
Proof.
  revert k' st. induction k as [|k IH]; intros k' st Hk Hle; [done|].
  destruct k' as [|k']; [lia|]. simpl in *.
  destruct (dfs_step n visit st); [done| |done].
  apply IH; [done|lia].
Qed.

Lemma dfs_inv_start n start :
  1 ≤ n → dfs_inv n start (dfs_start push_copy [] start).
Proof.
  intros Hn. split; simpl.
  - intros s. by rewrite elem_of_singleton, list_elem_of_singleton.
  - apply NoDup_singleton.
  - constructor; [|done]. apply rtc_refl.
  - exists [start]. split; [|by left].
    constructor; [lia|by apply list_elem_of_singleton|].
    intros i w Hi. lia.
Qed.

Lemma dfs_loop_inv n start k st :
  1 ≤ n → dfs_inv n start st →
  (dfs_loop k n push_copy st).1 ≠ Stuck ∧
  dfs_inv n start (dfs_loop k n push_copy st).2.
Proof.
  intros Hn. revert st. induction k as [|k IH]; intros st Hinv; [done|].
  simpl. pose proof (dfs_step_inv n start st Hn Hinv) as Hstep.
  destruct (dfs_step n push_copy st); [done| |done].
  apply IH, Hstep.
Qed.

Lemma dfs_loop_halts n start k st :
  1 ≤ n → well_formed n (length start) start → dfs_inv n start st →
  potential n (Z.of_nat (length (words n (length start)))) st < Z.of_nat k →
  ∃ st', dfs_loop k n push_copy st = (Halted, st') ∧ dfs_inv n start st' ∧
         ∀ w, w ∈ client st' → expanded (client st') w n.
Proof.
  intros Hn Hwf. revert st. induction k as [|k IH]; intros st Hinv Hpot.
  { pose proof (potential_bounds n start st Hn Hwf Hinv). lia. }
  simpl. pose proof (dfs_step_inv n start st Hn Hinv) as Hstep.
  destruct (dfs_step n push_copy st) as [|st1|]; [|..|done].
  - exists st. by destruct Hstep.
  - destruct Hstep as [Hinv1 Hdec]. apply IH; [done|].
    specialize (Hdec (Z.of_nat (length (words n (length start))))). lia.
Qed.

Lemma path_start_visited n visited start v te ms es verts :
  path n visited start v te ms es verts → start ∈ visited.
Proof. by induction 1. Qed.

Lemma closed_reachable n (visited : list Vertex) start :
  start ∈ visited → (∀ w, w ∈ visited → expanded visited w n) →
  ∀ w, reachable n start w → w ∈ visited.
Proof.
  intros Hs Hclosed. unfold reachable. apply rtc_ind_r; [done|].
  intros y z _ (i & Hi & Hf) Hy. by eapply Hclosed.
Qed.

(** With no operator at all ([n <= 0]) the cursor never meets [n]. *)
Lemma dfs_loop_no_operator {A} k n (visit : A → Vertex → A) sn te c :
  n < te →
  dfs_loop k n visit (DfsState sn [] [] [] te c)
  = (Running, DfsState sn [] [] [] (te + Z.of_nat k) c).
Proof.
  revert te. induction k as [|k IH]; intros te Hte.
  { simpl. by rewrite Z.add_0_r. }
  simpl. unfold dfs_step. simpl.
  destruct (Z.eqb_spec te n); [lia|].
  rewrite IH by lia. do 2 f_equal. lia.
Qed.

Lemma edge_needs_operator n v w : n ≤ 1 → reachable n v w → v = w.
Proof.
  intros Hn. unfold reachable. apply rtc_ind_r; [done|].
  intros y z _ (i & Hi & _). lia.
Qed.

Lemma well_formed_no_letter n start :
  n ≤ 0 → well_formed n (length start) start → start = [].
Proof.
  intros Hn [_ Hall]. destruct Hall as [|x ? Hx]; [done|lia].
Qed.

(** Under its preconditions [visitGLnCrystal] is the loop, whichever the
    visitor: its result is read off the run that records the calls. *)
Lemma visitGLnCrystal_run {A} k n start (visit : A → Vertex → A) a0 :
  isLatticeWord start = true → vertexHeight start ≤ n →
  visitGLnCrystal k n start visit a0 =
  match dfs_loop k n push_copy (dfs_start push_copy [] start) with
  | (Halted, st) => Ret (foldl visit a0 (client st))
  | (Running, _) => Timeout
  | (Stuck, _) => Fault
  end.
Proof.
  intros Hlw Hh. unfold visitGLnCrystal. rewrite Hlw.
  destruct (Z.leb_spec (vertexHeight start) n); [|lia]. simpl.
  change (dfs_start visit a0 start)
    with (replay visit a0 (dfs_start push_copy [] start)).
  rewrite dfs_loop_replay.
  by destruct (dfs_loop k n push_copy _) as [[] ?].
Qed.

(** For [1 <= n] the loop ends, and the calls made are a duplicate-free
    list of the reachable vertices. *)
Lemma traversal_halts n start :
  1 ≤ n → well_formed n (length start) start →
  ∃ k st,
    (∀ k', (k ≤ k')%nat →
       dfs_loop k' n push_copy (dfs_start push_copy [] start) = (Halted, st)) ∧
    NoDup (client st) ∧ (∀ v, v ∈ client st ↔ reachable n start v).
Proof.
  intros Hn Hwf.
  set (k := S (Z.to_nat (potential n
                 (Z.of_nat (length (words n (length start))))
                 (dfs_start push_copy [] start)))).
  destruct (dfs_loop_halts n start k (dfs_start push_copy [] start))
    as (st & Hrun & [_ Hnd Hreach (verts & Hp & _)] & Hclosed);
    [done|done|by apply dfs_inv_start|lia|].
  exists k, st. split_and!.
  - intros k' Hk. by apply (dfs_loop_stable k).
  - done.
  - intros v. split; [by apply Forall_forall|].
    apply closed_reachable; [by eapply path_start_visited|done].
Qed.

(** ** Traversal theorems *)

(** C1: for a lattice word [start] of height at most [n], the calls that
    [visitGLnCrystal] makes to its visitor settle, after finitely many
    iterations, on a list without duplicates whose elements are exactly the
    vertices reachable from [start] by the operators f_1 .. f_(n-1); when
    [1 <= n] the function returns, having made exactly these calls. *)
Theorem visitGLnCrystal_visits_reachable_once (n : Z) (start : Vertex) :
  isLatticeWord start = true → vertexHeight start ≤ n →
  ∃ vs k,
    NoDup vs ∧ (∀ v, v ∈ vs ↔ reachable n start v) ∧
    (∀ k', (k ≤ k')%nat → visitor_calls k' n start = vs) ∧
    (1 ≤ n → ∀ k', (k ≤ k')%nat → ∀ A (visit : A → Vertex → A) a0,
       visitGLnCrystal k' n start visit a0 = Ret (foldl visit a0 vs)).
Proof.
  intros Hlw Hh. pose proof (start_well_formed n start Hlw Hh) as Hwf.
  destruct (decide (1 ≤ n)) as [Hn|Hn].
  - destruct (traversal_halts n start Hn Hwf) as (k & st & Hrun & Hnd & Hvs).
    exists (client st), k. split_and!; [done|done| |].
    + intros k' Hk. unfold visitor_calls. by rewrite Hrun.
    + intros _ k' Hk A visit a0.
      by rewrite visitGLnCrystal_run, Hrun.
  - assert (start = []) as -> by (apply (well_formed_no_letter n); [lia|done]).
    exists [[]], 0%nat. split_and!.
    + apply NoDup_singleton.
    + intros v. rewrite list_elem_of_singleton.
      split; [intros ->; apply rtc_refl|].
      intros Hr. symmetry. apply (edge_needs_operator n); [lia|done].
    + intros k' _. unfold visitor_calls, dfs_start.
      by rewrite dfs_loop_no_operator by lia.
    + lia.
Qed.

Lemma visitGLnCrystal_visits_reachable_once_witness :
  isLatticeWord [1; 1] = true ∧ vertexHeight [1; 1] ≤ 3 ∧
  ∃ vs k,
    NoDup vs ∧ (∀ v, v ∈ vs ↔ reachable 3 [1; 1] v) ∧
    (∀ k', (k ≤ k')%nat → visitor_calls k' 3 [1; 1] = vs) ∧
    (1 ≤ 3 → ∀ k', (k ≤ k')%nat → ∀ A (visit : A → Vertex → A) a0,
       visitGLnCrystal k' 3 [1; 1] visit a0 = Ret (foldl visit a0 vs)).
Proof.
  split; [reflexivity|]. split; [vm_compute; discriminate|].
  apply visitGLnCrystal_visits_reachable_once; [reflexivity|].
  vm_compute; discriminate.
Defined.

Lemma reachable_empty n v : reachable n [] v → v = [].
Proof.
  unfold reachable. intros Hr. symmetry. revert v Hr.
  apply rtc_ind_r; [done|].
  intros y z _ (i & _ & Hf) <-. done.
Qed.

Lemma singleton_list {A} (x : A) (l : list A) :
  NoDup l → (∀ y, y ∈ l ↔ y = x) → l = [x].
Proof.
  intros Hnd Hl. destruct l as [|a l].
  { pose proof (proj2 (Hl x) eq_refl) as H. by apply elem_of_nil in H. }
  assert (a = x) as -> by (apply Hl; by left).
  destruct l as [|b l]; [done|].
  assert (b = x) as -> by (apply Hl; right; by left).
  apply NoDup_cons in Hnd as [Hx _]. destruct Hx. by left.
Qed.

(** C8, where the code keeps it: for [1 <= n], a traversal started on the
    empty vertex returns, and the visitor was called exactly once, on the
    empty vertex. *)
Theorem empty_vertex_traversal (n : Z) :
  1 ≤ n →
  ∃ k, ∀ k', (k ≤ k')%nat →
    visitor_calls k' n [] = [[]] ∧
    ∀ A (visit : A → Vertex → A) a0,
      visitGLnCrystal k' n [] visit a0 = Ret (visit a0 []).
Proof.
  intros Hn.
  destruct (traversal_halts n []) as (k & st & Hrun & Hnd & Hvs);
    [done|by split|].
  assert (client st = [[]]) as Hst.
  { apply singleton_list; [done|]. intros v. rewrite Hvs. split.
    - apply reachable_empty.
    - intros ->. apply rtc_refl. }
  exists k. intros k' Hk. split.
  - unfold visitor_calls. by rewrite Hrun.
  - intros A visit a0. rewrite visitGLnCrystal_run; [|done|].
    + by rewrite Hrun, Hst.
    + unfold vertexHeight. simpl. lia.
Qed.

Lemma empty_vertex_traversal_witness :
  1 ≤ 1 ∧
  ∃ k, ∀ k', (k ≤ k')%nat →
    visitor_calls k' 1 [] = [[]] ∧
    ∀ A (visit : A → Vertex → A) a0,
      visitGLnCrystal k' 1 [] visit a0 = Ret (visit a0 []).
Proof. split; [lia|]. apply empty_vertex_traversal. lia. Defined.

(** C8, where the code breaks it: for [n = 0] the traversal of the empty
    vertex passes both assertions and never returns.  The cursor
    [toExpand] starts at 1 and the loop ends only when it equals [n],
    although the loop documents it as ranging over [1, n]; the
    breadth-first revision returns the one vertex there
    ([breadth_first_tests]). *)
Lemma empty_vertex_traversal_GL0_diverges :
  ¬ ∃ fuel r, expandInGL fuel 0 [] = Ret r.
Proof.
  intros (fuel & r & Hr). unfold expandInGL, visitGLnCrystal, dfs_start in Hr.
  simpl in Hr. by rewrite dfs_loop_no_operator in Hr by lia.
Qed.

(** C10: every vertex handed to the visitor, and so every element of the
    list returned by [expandInGL], has the length of [start] and letters in
    [1 .. n]. *)
Theorem visited_vertices_well_formed (n : Z) (start : Vertex) (k : nat) :
  isLatticeWord start = true → vertexHeight start ≤ n →
  Forall (λ v, length v = length start ∧ Forall (λ x, 1 ≤ x ≤ n) v)
         (visitor_calls k n start) ∧
  ∀ l, expandInGL k n start = Ret l →
       Forall (λ v, length v = length start ∧ Forall (λ x, 1 ≤ x ≤ n) v) l.
Proof.
  intros Hlw Hh. pose proof (start_well_formed n start Hlw Hh) as Hwf.
  assert (Forall (well_formed n (length start)) (visitor_calls k n start))
    as Hcalls.
  { destruct (decide (1 ≤ n)) as [Hn|Hn].
    - destruct (dfs_loop_inv n start k (dfs_start push_copy [] start))
        as [_ [_ _ Hreach _]]; [done|by apply dfs_inv_start|].
      eapply Forall_impl; [exact Hreach|].
      intros w. by apply reachable_well_formed.
    - assert (start = []) as ->
        by (apply (well_formed_no_letter n); [lia|done]).
      unfold visitor_calls, dfs_start.
      rewrite dfs_loop_no_operator by lia. by repeat constructor. }
  split; [done|]. intros l Hl.
  unfold expandInGL, visitGLnCrystal in Hl. rewrite Hlw in Hl.
  destruct (Z.leb_spec (vertexHeight start) n); [|lia]. simpl in Hl.
  unfold visitor_calls in Hcalls.
  destruct (dfs_loop k n push_copy (dfs_start push_copy [] start))
    as [[] st]; by simplify_eq/=.
Qed.

Lemma visited_vertices_well_formed_witness :
  isLatticeWord [1; 1; 2] = true ∧ vertexHeight [1; 1; 2] ≤ 3 ∧
  Forall (λ v, length v = length [1; 1; 2] ∧ Forall (λ x, 1 ≤ x ≤ 3) v)
         (visitor_calls 5 3 [1; 1; 2]) ∧
  ∀ l, expandInGL 5 3 [1; 1; 2] = Ret l →
       Forall (λ v, length v = length [1; 1; 2] ∧ Forall (λ x, 1 ≤ x ≤ 3) v) l.
Proof.
  split; [reflexivity|]. split; [vm_compute; discriminate|].
  apply visited_vertices_well_formed; [reflexivity|].
  vm_compute; discriminate.
Defined.

(** ** Failure outcomes *)

Lemma lattice_step_null partition num :
  lattice_step partition num = None ↔ returns_null partition num = true.
Proof.
  unfold lattice_step, returns_null.
  destruct (Z.eqb_spec (num - 1) (Z.of_nat (length partition))); [done|].
  destruct (Z.eqb_spec num 1) as [->|].
  { simpl. unfold js_add_at, js_get. simpl.
    destruct partition; [simpl in *; lia|done]. }
  destruct (Z.ltb_spec (Z.of_nat (length partition)) (num - 1)); [done|].
  simpl. destruct (js_get partition (num - 2)); [|done].
  unfold js_add_at. destruct (js_get partition (num - 1)); [|done].
  by destruct (_ <? _).
Qed.

Lemma isPartition_spec p :
  isPartition p = true ↔
  (∀ i a b, p !! i = Some a → p !! S i = Some b → b ≤ a) ∧
  Forall (λ x, 0 < x) p.
Proof.
  split.
  - intros Hp. split; [|by apply isPartition_positive].
    apply andb_true_iff in Hp as [Hd _]. intros i a b Ha Hb.
    rewrite <- (take_drop_middle p i a Ha) in Hd.
    assert (drop (S i) p = b :: drop (S (S i)) p) as Hdrop.
    { rewrite <- (take_drop_middle p (S i) b Hb) at 1.
      rewrite drop_app_length'; [done|].
      rewrite length_take. apply lookup_lt_Some in Hb. lia. }
    rewrite Hdrop in Hd. by eapply weakly_decreasing_middle.
  - intros [Hadj Hpos]. unfold isPartition. apply andb_true_iff. split.
    + clear Hpos. induction p as [|a [|b p] IH]; [done..|].
      simpl. destruct (Z.ltb_spec a b) as [Hlt|].
      { specialize (Hadj 0%nat a b eq_refl eq_refl). lia. }
      apply IH. intros i x y Hx Hy. by apply (Hadj (S i)).
    + destruct (last p) as [x|] eqn:Hlast; [|done].
      apply last_Some in Hlast as [l' ->].
      apply Forall_app in Hpos as [_ [Hx _]%Forall_cons_1].
      by destruct (Z.leb_spec x 0); [lia|].
Qed.

Lemma lattice_step_partition p num q :
  isPartition p = true → lattice_step p num = Some q → isPartition q = true.
Proof.
  rewrite !isPartition_spec. intros [Hadj Hpos]. unfold lattice_step.
  destruct (Z.eqb_spec (num - 1) (Z.of_nat (length p))).
  { intros [= <-]. split.
    - intros i a b Ha Hb.
      destruct (decide (S i < length p)%nat).
      + rewrite lookup_app_l in Ha, Hb by lia. by eapply Hadj.
      + assert (S i = length p) as Hi.
        { apply lookup_lt_Some in Hb. rewrite length_app in Hb. simpl in Hb. lia. }
        rewrite Hi, list_lookup_middle in Hb by done.
        rewrite lookup_app_l in Ha by lia.
        eapply Forall_forall in Hpos; [|by eapply list_elem_of_lookup_2].
        simplify_eq. lia.
    - apply Forall_app. split; [done|]. by repeat constructor. }
  assert (∀ j x, p !! j = Some x →
            (∀ y, (0 < j)%nat → p !! pred j = Some y → x < y) →
            (∀ i a b, <[j:=x + 1]> p !! i = Some a →
                      <[j:=x + 1]> p !! S i = Some b → b ≤ a) ∧
            Forall (λ x, 0 < x) (<[j:=x + 1]> p)) as Hbump.
  { intros j x Hx Habove. split.
    - intros i a b Ha Hb.
      apply list_lookup_insert_Some in Ha as [(-> & <- & _)|[Hne Ha]];
        apply list_lookup_insert_Some in Hb as [(Heq & <- & _)|[Hne' Hb]];
        try lia.
      + specialize (Hadj _ _ _ Hx Hb). lia.
      + subst j. specialize (Habove a ltac:(lia) Ha). lia.
      + by eapply Hadj.
    - apply Forall_insert; [done|].
      eapply Forall_forall in Hpos; [|by eapply list_elem_of_lookup_2]. lia. }
  destruct (Z.eqb_spec num 1) as [->|].
  { unfold js_add_at. destruct (js_get p 0) as [x|] eqn:Hget; [|done].
    apply js_get_Some in Hget as [_ Hget]. intros [= <-].
    apply Hbump; [done|]. simpl. lia. }
  destruct (Z.ltb_spec (Z.of_nat (length p)) (num - 1)); [done|].
  destruct (js_get p (num - 2)) as [above|] eqn:Ha; [|done].
  destruct (js_get p (num - 1)) as [here|] eqn:Hh; [|done].
  destruct (Z.ltb_spec here above); [|done].
  unfold js_add_at. rewrite Hh. intros [= <-].
  apply js_get_Some in Ha as [? Ha]. apply js_get_Some in Hh as [? Hh].
  apply Hbump; [done|]. intros y _ Hy.
  replace (pred (Z.to_nat (num - 1))) with (Z.to_nat (num - 2)) in Hy by lia.
  by simplify_eq.
Qed.

Lemma latticeWord_partition sofar word p :
  isPartition sofar = true →
  latticeWordToMaybePartition sofar word = Some p → isPartition p = true.
Proof.
  revert sofar. induction word as [|num word IH]; intros sofar Hs; simpl.
  { by intros [= <-]. }
  destruct (lattice_step sofar num) as [q|] eqn:Hq; [|done].
  apply IH. by eapply lattice_step_partition.
Qed.

Lemma visitGLnCrystal_no_fault {A} fuel n start (visit : A → Vertex → A) a0 :
  visitGLnCrystal fuel n start visit a0 ≠ Fault.
Proof.
  destruct (isLatticeWord start) eqn:Hlw;
    [|by unfold visitGLnCrystal; rewrite Hlw].
  destruct (Z.leb_spec (vertexHeight start) n) as [Hh|Hh].
  2:{ unfold visitGLnCrystal. rewrite Hlw.
      by destruct (Z.leb_spec (vertexHeight start) n); [lia|]. }
  rewrite visitGLnCrystal_run by done.
  pose proof (start_well_formed n start Hlw Hh) as Hwf.
  destruct (decide (1 ≤ n)) as [Hn|Hn].
  - destruct (dfs_loop_inv n start fuel (dfs_start push_copy [] start))
      as [Hok _]; [done|by apply dfs_inv_start|].
    by destruct (dfs_loop fuel n push_copy _) as [[] ?].
  - assert (start = []) as ->
      by (apply (well_formed_no_letter n); [lia|done]).
    unfold dfs_start. by rewrite dfs_loop_no_operator by lia.
Qed.

(** C7: [latticeWordToMaybePartition] reports failure by its result: each
    letter either extends the partition or meets one of the two
    [return null] conditions, and from a valid partition every result is a
    valid partition.  [hwToPartition] throws exactly on the words that are
    not lattice words, and [visitGLnCrystal] throws exactly when [start] is
    not a lattice word or is higher than [n]; it never reads an undefined
    slot. *)
Theorem failure_outcomes :
  (∀ partition num,
     lattice_step partition num = None ↔ returns_null partition num = true) ∧
  (∀ sofar word,
     isPartition sofar = true →
     match latticeWordToMaybePartition sofar word with
     | Some p => isPartition p = true
     | None => True
     end) ∧
  (∀ v, (∃ msg, hwToPartition v = Throw msg) ↔ isLatticeWord v = false) ∧
  (∀ v, (∃ p, hwToPartition v = Ret p) ↔ isLatticeWord v = true) ∧
  (∀ A fuel n start (visit : A → Vertex → A) a0,
     ((∃ msg, visitGLnCrystal fuel n start visit a0 = Throw msg) ↔
      (isLatticeWord start = false ∨ n < vertexHeight start)) ∧
     visitGLnCrystal fuel n start visit a0 ≠ Fault).
Proof.
  split_and!.
  - apply lattice_step_null.
  - intros sofar word Hs.
    destruct (latticeWordToMaybePartition sofar word) eqn:Hp; [|done].
    by eapply latticeWord_partition.
  - intros v. unfold hwToPartition, isLatticeWord.
    destruct (latticeWordToMaybePartition [] v) as [p|]; simpl.
    + split; [by intros [? ?]|done].
    + split; [done|by eexists].
  - intros v. unfold hwToPartition, isLatticeWord.
    destruct (latticeWordToMaybePartition [] v) as [p|]; simpl.
    + split; [done|by eexists].
    + split; [by intros [? ?]|done].
  - intros A fuel n start visit a0. split; [|apply visitGLnCrystal_no_fault].
    unfold visitGLnCrystal.
    destruct (isLatticeWord start); simpl.
    + destruct (Z.leb_spec (vertexHeight start) n); simpl.
      * split; [|intros [?|?]; [done|lia]].
        intros [msg Hm]. by destruct (dfs_loop _ _ _ _) as [[] ?].
      * split; [by right|by eexists].
    + split; [by left|by eexists].
Qed.

Lemma failure_outcomes_witness :
  isPartition [2; 1] = true ∧
  match latticeWordToMaybePartition [2; 1] [1; 2; 3] with
  | Some p => isPartition p = true
  | None => True
  end.
Proof.
  split; [reflexivity|].
  apply (proj1 (proj2 failure_outcomes) [2; 1] [1; 2; 3]). reflexivity.
Defined.

(** ** The swap of [tensorPartitions] *)

Lemma num_lt_asym a b : num_lt a b = true → num_lt b a = false.
Proof.
  unfold num_lt, SFltb, SFcompare.
  destruct a as [[]|[]| |[] m1 e1], b as [[]|[]| |[] m2 e2]; try done.
  all: change (Pos.compare_cont Eq m1 m2) with (m1 ?= m2)%positive;
    change (Pos.compare_cont Eq m2 m1) with (m2 ?= m1)%positive;
    rewrite (Z.compare_antisym e1 e2), (Pos.compare_antisym m1 m2);
    destruct (e1 ?= e2); simpl; try done;
    by destruct (m1 ?= m2)%positive.
Qed.

(** When one dimension is smaller than the other, the two orders of the
    arguments run the same traversal. *)
Lemma tensorPartitions_swap fuel n p q d1 d2 :
  dimensionInGL n p = Ret d1 → dimensionInGL n q = Ret d2 →
  num_lt d1 d2 = true →
  tensorPartitions fuel n p q = tensorPartitions fuel n q p.
Proof.
  intros Hp Hq Hlt. unfold tensorPartitions. rewrite Hp, Hq. simpl.
  rewrite Hlt, (num_lt_asym _ _ Hlt).
  by destruct (2 <=? n), (isPartition p), (isPartition q).
Qed.

(** The dimension of [overflow_partition] is computed as NaN, which is
    smaller than nothing: with [[1]] on the left the traversal starts from a
    word of height 601 and the assertion fails, with [[1]] on the right it
    returns. *)
Lemma tensorPartitions_overflow :
  dimensionInGL 600 overflow_partition = Ret S754_nan ∧
  tensorPartitions 0 600 [1] overflow_partition = Throw "Assertion failed." ∧
  ∃ l, tensorPartitions (Z.to_nat 400000) 600 overflow_partition [1] = Ret l.
Proof.
  split_and!; [by vm_compute..|].
  eexists. vm_compute. reflexivity.
Qed.

(** * Further properties *)

(** ** Partitions and the order of lists *)

Lemma weakly_decreasing_head a l :
  weakly_decreasing (a :: l) = true → Forall (λ x, x ≤ a) l.
Proof.
  revert a. induction l as [|b l IH]; intros a H; [constructor|].
  simpl in H. destruct (Z.ltb_spec a b); [done|].
  constructor; [lia|]. eapply Forall_impl; [by apply IH|].
  intros x ?; simpl in *. lia.
Qed.

(** X1: [isPartition] accepts exactly the sequences whose entries are all
    positive and in which no entry is larger than an earlier one. *)
Theorem isPartition_pairwise (nums : list Z) :
  isPartition nums = true ↔
  Forall (λ x, 0 < x) nums ∧
  ∀ i j a b, (i ≤ j)%nat → nums !! i = Some a → nums !! j = Some b → b ≤ a.
Proof.
  split.
  - intros Hp. split; [by apply isPartition_positive|].
    apply andb_true_iff in Hp as [Hd _].
    induction nums as [|x nums IH]; [done|].
    intros i j a b Hij Ha Hb.
    destruct i as [|i], j as [|j]; simplify_eq/=; try lia.
    + apply weakly_decreasing_head in Hd.
      eapply Forall_forall in Hd; [done|]. by eapply list_elem_of_lookup_2.
    + apply (IH (weakly_decreasing_cons _ _ Hd) i j); [lia|done..].
  - intros [Hpos Hpair]. unfold isPartition. apply andb_true_iff. split.
    + clear Hpos. induction nums as [|a [|b nums] IH]; [done..|].
      simpl. destruct (Z.ltb_spec a b) as [Hlt|].
      { specialize (Hpair 0%nat 1%nat a b). simpl in Hpair.
        specialize (Hpair ltac:(lia) eq_refl eq_refl). lia. }
      apply IH. intros i j x y Hij Hx Hy.
      apply (Hpair (S i) (S j)); [lia|done..].
    + destruct (last nums) as [x|] eqn:Hlast; [|done].
      apply last_Some in Hlast as [l' ->].
      apply Forall_app in Hpos as [_ [Hx _]%Forall_cons_1].
      by destruct (Z.leb_spec x 0); [lia|].
Qed.

Lemma isPartition_pairwise_witness :
  isPartition [3; 2; 2] = true ∧ Forall (λ x, 0 < x) [3; 2; 2].
Proof.
  split; [reflexivity|].
  exact (proj1 (proj1 (isPartition_pairwise [3; 2; 2]) eq_refl)).
Defined.

Lemma compareLists_Neg_spec a b :
  compareLists a b = Neg ↔
  (∃ y b', b = a ++ y :: b') ∨
  (∃ c x y a' b', a = c ++ x :: a' ∧ b = c ++ y :: b' ∧ x < y).
Proof.
  revert b. induction a as [|x a IH]; intros b; destruct b as [|y b]; simpl.
  - split; [done|]. intros [(? & ? & ?)|(c & ? & ? & ? & ? & Hc & _)].
    + done.
    + by destruct c.
  - split; [|done]. intros _. left. by eexists _, _.
  - split; [done|]. intros [(? & ? & ?)|(c & ? & ? & ? & ? & _ & Hc & _)].
    + done.
    + by destruct c.
  - destruct (Z.ltb_spec x y) as [Hxy|Hxy].
    { split; [|done]. intros _. right. by exists [], x, y, a, b. }
    destruct (Z.ltb_spec y x) as [Hyx|Hyx].
    { split; [done|]. intros [(? & ? & ?)|(c & x' & y' & a' & b' & Ha & Hb & Hlt)].
      - simplify_eq. lia.
      - destruct c; simplify_eq/=; lia. }
    assert (x = y) as -> by lia. rewrite IH. split.
    + intros [(y' & b' & ->)|(c & x' & y' & a' & b' & -> & -> & Hlt)].
      * left. by eexists _, _.
      * right. by exists (y :: c), x', y', a', b'.
    + intros [(y' & b' & Hb)|(c & x' & y' & a' & b' & Ha & Hb & Hlt)].
      * left. simplify_eq/=. by eexists _, _.
      * destruct c as [|z c]; simplify_eq/=; [lia|].
        right. by exists c, x', y', a', b'.
Qed.

(** X2: [compareLists] is the lexicographic order: it returns -1 exactly
    when the first list is a proper prefix of the second or the lists first
    differ at a position where the first has the smaller entry; it returns
    0 exactly on equal lists, it returns 1 exactly when the exchanged call
    returns -1, and "smaller" is transitive. *)
Theorem compareLists_lexicographic (a b : list Z) :
  (compareLists a b = Neg ↔
     (∃ y b', b = a ++ y :: b') ∨
     (∃ c x y a' b', a = c ++ x :: a' ∧ b = c ++ y :: b' ∧ x < y)) ∧
  (compareLists a b = Zero ↔ a = b) ∧
  (compareLists a b = Pos ↔ compareLists b a = Neg) ∧
  (∀ c, compareLists a b = Neg → compareLists b c = Neg →
        compareLists a c = Neg).
Proof.
  split_and!.
  - apply compareLists_Neg_spec.
  - apply compareLists_Zero.
  - rewrite (compareLists_flip a b).
    by destruct (compareLists a b).
  - intros c Hab Hbc.
    destruct (compareLists_trans c b a) as [_ Hpos].
    + rewrite (compareLists_flip b c), Hbc. done.
    + rewrite (compareLists_flip a b), Hab. done.
    + rewrite (compareLists_flip c a), Hpos; [done|].
      left. by rewrite (compareLists_flip b c), Hbc.
Qed.

Lemma compareLists_lexicographic_witness :
  compareLists [1; 2] [1; 3] = Neg ∧ compareLists [1; 3] [2] = Neg ∧
  compareLists [1; 2] [2] = Neg.
Proof.
  split; [reflexivity|]. split; [reflexivity|].
  exact (proj2 (proj2 (proj2 (compareLists_lexicographic [1; 2] [1; 3])))
           [2] eq_refl eq_refl).
Defined.

(** ** The partition built by the lattice-word recognizer *)

Lemma count_letter_cons x y w :
  count_letter x (y :: w) = (if decide (y = x) then 1 else 0) + count_letter x w.
Proof.
  unfold count_letter. rewrite filter_cons.
  destruct (decide (y = x)); simpl; lia.
Qed.

Lemma count_letter_app x u w :
  count_letter x (u ++ w) = count_letter x u + count_letter x w.
Proof. unfold count_letter. rewrite filter_app, length_app. lia. Qed.

Lemma count_letter_nonneg x w : 0 ≤ count_letter x w.
Proof. unfold count_letter. lia. Qed.


Lemma js_add_at_row p k d q (i : nat) :
  js_add_at p k d = Some q →
  row q i = row p i + (if decide (Z.of_nat i = k) then d else 0).
Proof.
  unfold js_add_at. destruct (js_get p k) as [x|] eqn:Hget; [|done].
  intros [= <-]. apply js_get_Some in Hget as [Hk Hget]. unfold row.
  destruct (decide (Z.of_nat i = k)) as [<-|Hne].
  - rewrite Nat2Z.id in *. rewrite list_lookup_insert_eq, Hget; [done|].
    by eapply lookup_lt_Some.
  - rewrite list_lookup_insert_ne by lia. lia.
Qed.

Lemma lattice_step_row p x q (i : nat) :
  lattice_step p x = Some q →
  row q i = row p i + (if decide (x = Z.of_nat i + 1) then 1 else 0).
Proof.
  unfold lattice_step.
  destruct (Z.eqb_spec (x - 1) (Z.of_nat (length p))) as [Hlen|].
  { intros [= <-]. unfold row.
    destruct (decide (i < length p)%nat) as [Hi|Hi].
    - rewrite lookup_app_l by done. destruct (decide _); [lia|lia].
    - destruct (decide (i = length p)) as [->|].
      + rewrite list_lookup_middle by done.
        rewrite (lookup_ge_None_2 p) by lia. destruct (decide _); simpl; lia.
      + rewrite !lookup_ge_None_2; [|lia|rewrite length_app; simpl; lia].
        destruct (decide _); simpl; lia. }
  destruct (Z.eqb_spec x 1) as [->|].
  { intros Hq. rewrite (js_add_at_row _ _ _ _ i Hq).
    do 2 destruct (decide _); lia. }
  destruct (Z.ltb_spec (Z.of_nat (length p)) (x - 1)); [done|].
  destruct (js_get p (x - 2)); [|done].
  destruct (js_get p (x - 1)); [|done].
  destruct (_ <? _); [|done].
  intros Hq. rewrite (js_add_at_row _ _ _ _ i Hq).
  do 2 destruct (decide _); lia.
Qed.

Lemma size_of_app (a b : list Z) : size_of (a ++ b) = size_of a + size_of b.
Proof.
  unfold size_of. induction a as [|x a IH]; simpl; [done|]. rewrite IH. lia.
Qed.

Lemma js_add_at_size p k d q :
  js_add_at p k d = Some q → size_of q = size_of p + d.
Proof.
  unfold js_add_at. destruct (js_get p k) as [x|] eqn:Hget; [|done].
  intros [= <-]. apply js_get_Some in Hget as [_ Hget].
  revert Hget. generalize (Z.to_nat k). clear k.
  induction p as [|a p IH]; intros [|k] Hget; simplify_eq/=.
  - unfold size_of. simpl. lia.
  - unfold size_of in *. simpl. rewrite (IH k Hget). lia.
Qed.

Lemma lattice_step_size p x q :
  lattice_step p x = Some q → size_of q = size_of p + 1.
Proof.
  unfold lattice_step.
  destruct (_ =? _).
  { intros [= <-]. rewrite size_of_app. unfold size_of. simpl. lia. }
  destruct (_ =? _); [apply js_add_at_size|].
  destruct (_ <? _); [done|].
  destruct (js_get p (x - 2)); [|done].
  destruct (js_get p (x - 1)); [|done].
  destruct (_ <? _); [apply js_add_at_size|done].
Qed.

Lemma latticeWord_row_count sofar word p (i : nat) :
  latticeWordToMaybePartition sofar word = Some p →
  row p i = row sofar i + count_letter (Z.of_nat i + 1) word.
Proof.
  revert sofar. induction word as [|x word IH]; intros sofar; simpl.
  { intros [= <-]. unfold count_letter. simpl. lia. }
  destruct (lattice_step sofar x) as [q|] eqn:Hq; [|done].
  intros Hp. rewrite (IH q Hp), (lattice_step_row _ _ _ i Hq), count_letter_cons.
  lia.
Qed.

Lemma latticeWord_size sofar word p :
  latticeWordToMaybePartition sofar word = Some p →
  size_of p = size_of sofar + Z.of_nat (length word).
Proof.
  revert sofar. induction word as [|x word IH]; intros sofar; simpl.
  { intros [= <-]. lia. }
  destruct (lattice_step sofar x) as [q|] eqn:Hq; [|done].
  intros Hp. rewrite (IH q Hp), (lattice_step_size _ _ _ Hq). lia.
Qed.

Lemma lattice_step_length p x q :
  lattice_step p x = Some q →
  Z.of_nat (length q) = Z.max (Z.of_nat (length p)) x.
Proof.
  assert (∀ k d, js_add_at p k d = Some q →
            length q = length p ∧ k < Z.of_nat (length p)) as Hadd.
  { intros k d. unfold js_add_at.
    destruct (js_get p k) as [y|] eqn:Hget; [|done]. intros [= <-].
    apply js_get_Some in Hget as [? Hget%lookup_lt_Some].
    rewrite length_insert. lia. }
  unfold lattice_step.
  destruct (Z.eqb_spec (x - 1) (Z.of_nat (length p))).
  { intros [= <-]. rewrite length_app. simpl. lia. }
  destruct (Z.eqb_spec x 1) as [->|].
  { intros [-> ?]%Hadd. lia. }
  destruct (Z.ltb_spec (Z.of_nat (length p)) (x - 1)); [done|].
  destruct (js_get p (x - 2)); [|done].
  destruct (js_get p (x - 1)); [|done].
  destruct (_ <? _); [|done].
  intros [-> ?]%Hadd. lia.
Qed.

Lemma foldl_max_init a b w :
  foldl Z.max (Z.max a b) w = Z.max a (foldl Z.max b w).
Proof.
  revert b. induction w as [|x w IH]; intros b; [done|].
  simpl. rewrite <- IH. f_equal. lia.
Qed.

Lemma latticeWord_length sofar word p :
  latticeWordToMaybePartition sofar word = Some p →
  Z.of_nat (length p) = Z.max (Z.of_nat (length sofar)) (vertexHeight word).
Proof.
  unfold vertexHeight. rewrite <- foldl_max_init.
  replace (Z.max (Z.of_nat (length sofar)) 0) with (Z.of_nat (length sofar))
    by lia.
  revert sofar. induction word as [|x word IH]; intros sofar; simpl.
  { by intros [= <-]. }
  destruct (lattice_step sofar x) as [q|] eqn:Hq; [|done].
  intros Hp. rewrite (IH q Hp). by rewrite (lattice_step_length _ _ _ Hq).
Qed.



Lemma latticeWord_app sofar u w :
  latticeWordToMaybePartition sofar (u ++ w) =
  match latticeWordToMaybePartition sofar u with
  | Some p => latticeWordToMaybePartition p w
  | None => None
  end.
Proof.
  revert sofar. induction u as [|x u IH]; intros sofar; simpl; [done|].
  by destruct (lattice_step sofar x).
Qed.

Lemma latticeWord_from_partition p w :
  isPartition p = true →
  latticeWordToMaybePartition [] (hw_rows 0 p ++ w) =
  latticeWordToMaybePartition p w.
Proof.
  intros Hp. rewrite latticeWord_app.
  assert (latticeWordToMaybePartition [] (hw_rows 0 p) = Some p) as ->; [|done].
  apply (lattice_hw_rows [] p); [|by apply isPartition_positive].
  by apply andb_true_iff in Hp as [? _].
Qed.

(** X4: the recognizer may be resumed.  Running it on a concatenation is
    running it on the first word and, if that succeeds, on the second word
    from the partition reached; and starting from a valid partition [p] is
    the same as starting from the empty partition on the canonical word of
    [p] followed by the word. *)
Theorem latticeWord_resume (p : Partition) (u w : list Z) :
  latticeWordToMaybePartition p (u ++ w) =
    match latticeWordToMaybePartition p u with
    | Some q => latticeWordToMaybePartition q w
    | None => None
    end ∧
  (isPartition p = true →
   latticeWordToMaybePartition [] (hw_rows 0 p ++ w) =
   latticeWordToMaybePartition p w).
Proof.
  assert (∀ u' sofar,
            latticeWordToMaybePartition sofar (u' ++ w) =
            match latticeWordToMaybePartition sofar u' with
            | Some q => latticeWordToMaybePartition q w
            | None => None
            end) as Happ.
  { induction u' as [|x u' IH]; intros sofar; simpl; [done|].
    by destruct (lattice_step sofar x). }
  split; [apply Happ|]. intros Hp. rewrite Happ.
  assert (latticeWordToMaybePartition [] (hw_rows 0 p) = Some p) as ->;
    [|done].
  apply (lattice_hw_rows [] p); [|by apply isPartition_positive].
  by apply andb_true_iff in Hp as [? _].
Qed.

Lemma latticeWord_resume_witness :
  isPartition [2; 1] = true ∧
  latticeWordToMaybePartition [] (hw_rows 0 [2; 1] ++ [1; 3]) =
  latticeWordToMaybePartition [2; 1] [1; 3].
Proof.
  split; [reflexivity|].
  apply (latticeWord_resume [2; 1] [] [1; 3]). reflexivity.
Defined.

(** ** Lattice words *)

Lemma row_positive p (i : nat) :
  isPartition p = true → (i < length p)%nat → 0 < row p i.
Proof.
  intros Hp%isPartition_positive Hi. unfold row.
  destruct (lookup_lt_is_Some_2 p i Hi) as [x Hx]. rewrite Hx. simpl.
  eapply Forall_forall in Hp; [done|]. by eapply list_elem_of_lookup_2.
Qed.

Lemma row_past p (i : nat) : (length p ≤ i)%nat → row p i = 0.
Proof. intros Hi. unfold row. by rewrite lookup_ge_None_2. Qed.

(** When the next letter is accepted, for a partition whose rows count the
    letters read so far. *)
Lemma lattice_step_accepts p u x :
  isPartition p = true →
  (∀ i : nat, row p i = count_letter (Z.of_nat i + 1) u) →
  is_Some (lattice_step p x) ↔
  1 ≤ x ∧ (x = 1 ∨ count_letter x u < count_letter (x - 1) u).
Proof.
  intros Hp Hrow.
  assert (∀ y, 1 ≤ y → count_letter y u = row p (Z.to_nat (y - 1))) as Hcount.
  { intros y Hy. rewrite Hrow. f_equal. lia. }
  unfold lattice_step.
  destruct (Z.eqb_spec (x - 1) (Z.of_nat (length p))) as [Hlen|Hlen].
  { split; [|by eexists]. intros _. split; [lia|].
    destruct (decide (x = 1)); [by left|right].
    rewrite !Hcount by lia. rewrite row_past by lia.
    apply row_positive; [done|lia]. }
  destruct (Z.eqb_spec x 1) as [->|Hx1].
  { split; [intros _; split; [lia|by left]|]. intros _.
    destruct p as [|a p]; [done|]. by eexists. }
  destruct (Z.ltb_spec (Z.of_nat (length p)) (x - 1)) as [Hgt|Hle].
  { split; [by intros [? ?]|]. intros [Hx [?|Hlt]]; [done|].
    rewrite !Hcount in Hlt by lia. rewrite !row_past in Hlt by lia. lia. }
  destruct (decide (2 ≤ x)) as [Hx|Hx].
  - destruct (lookup_lt_is_Some_2 p (Z.to_nat (x - 2)) ltac:(lia))
      as [above Ha].
    destruct (lookup_lt_is_Some_2 p (Z.to_nat (x - 1)) ltac:(lia))
      as [here Hh].
    assert (js_get p (x - 2) = Some above) as -> by (apply js_get_Some; split; [lia|done]).
    assert (js_get p (x - 1) = Some here) as Hget by (apply js_get_Some; split; [lia|done]).
    rewrite Hget.
    assert (count_letter x u = here) as ->.
    { rewrite Hcount by lia. unfold row. by rewrite Hh. }
    assert (count_letter (x - 1) u = above) as ->.
    { rewrite Hcount by lia. unfold row.
      replace (Z.to_nat (x - 1 - 1)) with (Z.to_nat (x - 2)) by lia.
      by rewrite Ha. }
    destruct (Z.ltb_spec here above).
    + split; [intros _; split; [lia|by right]|]. intros _.
      unfold js_add_at. rewrite Hget. by eexists.
    + split; [by intros [? ?]|]. intros [_ [?|?]]; lia.
  - assert (js_get p (x - 2) = None) as ->.
    { unfold js_get. by destruct (Z.ltb_spec (x - 2) 0); [|lia]. }
    split; [by intros [? ?]|]. intros [? _]. lia.
Qed.

Lemma ballot_nil : ballot [].
Proof.
  intros u w i Huw _. symmetry in Huw. apply app_eq_nil in Huw as [-> _].
  unfold count_letter. simpl. lia.
Qed.

Lemma ballot_snoc v x :
  ballot (v ++ [x]) ↔
  ballot v ∧ (2 ≤ x → count_letter x v < count_letter (x - 1) v).
Proof.
  split.
  - intros Hb. split.
    + intros u w i -> Hi. apply (Hb u (w ++ [x]) i); [|done].
      by rewrite app_assoc.
    + intros Hx. specialize (Hb (v ++ [x]) [] (x - 1)).
      rewrite app_nil_r in Hb. specialize (Hb eq_refl ltac:(lia)).
      rewrite !count_letter_app, !count_letter_cons in Hb.
      replace (x - 1 + 1) with x in Hb by lia.
      unfold count_letter at 2 4 in Hb. simpl in Hb.
      destruct (decide (x = x)); [|done].
      destruct (decide (x = x - 1)); [lia|]. lia.
  - intros [Hb Hx] u w i Huw Hi.
    destruct w as [|y w _] using rev_ind.
    + rewrite app_nil_r in Huw. subst u.
      rewrite !count_letter_app, !count_letter_cons.
      unfold count_letter at 2 4. simpl.
      specialize (Hb v [] i). rewrite app_nil_r in Hb.
      specialize (Hb eq_refl Hi).
      destruct (decide (x = i + 1)) as [->|]; destruct (decide _); try lia.
      specialize (Hx ltac:(lia)). replace (i + 1 - 1) with i in Hx by lia. lia.
    + rewrite app_assoc in Huw. apply app_inj_tail in Huw as [-> _].
      by apply (Hb u w i).
Qed.

Lemma latticeWord_rows u p :
  latticeWordToMaybePartition [] u = Some p →
  isPartition p = true ∧
  ∀ i : nat, row p i = count_letter (Z.of_nat i + 1) u.
Proof.
  intros Hp. split; [exact (latticeWord_partition [] u p eq_refl Hp)|].
  intros i. rewrite (latticeWord_row_count [] u p i Hp).
  unfold row. by rewrite lookup_nil.
Qed.

(** X5: a word is a lattice word exactly when its letters are positive and
    every prefix contains each letter [i] at least as often as the letter
    [i + 1]. *)
Theorem isLatticeWord_ballot (v : Vertex) :
  isLatticeWord v = true ↔ Forall (λ x, 1 ≤ x) v ∧ ballot v.
Proof.
  unfold isLatticeWord. rewrite bool_decide_eq_true.
  induction v as [|x v IH] using rev_ind.
  { split; [intros _; split; [constructor|apply ballot_nil]|by eexists]. }
  rewrite latticeWord_app, Forall_app, ballot_snoc.
  destruct (latticeWordToMaybePartition [] v) as [p|] eqn:Hp.
  - destruct (latticeWord_rows v p Hp) as [Hpart Hrow].
    assert (is_Some (Some p)) as Hsome by by eexists.
    apply IH in Hsome as [Hpos Hb]. simpl.
    assert (is_Some (match lattice_step p x with
                     | Some q => Some q | None => None end)
            ↔ is_Some (lattice_step p x)) as ->
      by by destruct (lattice_step p x).
    rewrite (lattice_step_accepts p v x Hpart Hrow). split.
    + intros [Hx Hc]. split_and!; [done|by repeat constructor|done|].
      intros ?. destruct Hc; [lia|done].
    + intros ((_ & [Hx _]%Forall_cons_1) & _ & Hc). split; [done|].
      destruct (decide (x = 1)); [by left|right]. apply Hc. lia.
  - split; [by intros [? ?]|]. intros ((Hpos & _) & Hb & _).
    assert (is_Some (@None (list Z))) as [? ?]; [|done].
    apply IH. done.
Qed.

Lemma isLatticeWord_ballot_witness :
  isLatticeWord [1; 1; 2] = true ∧ ballot [1; 1; 2].
Proof.
  split; [reflexivity|].
  exact (proj2 (proj1 (isLatticeWord_ballot [1; 1; 2]) eq_refl)).
Defined.

(** ** Hook lengths *)





(** ** The canonical word of a partition *)

Lemma foldl_max_replicate a (k : nat) x :
  foldl Z.max a (replicate k x) = if k is O then a else Z.max a x.
Proof.
  revert a. induction k as [|k IH]; intros a; [done|].
  simpl. rewrite IH. destruct k; lia.
Qed.

Lemma height_hw_rows a i rest :
  Forall (λ x, 0 < x) rest →
  foldl Z.max a (hw_rows i rest) =
  if rest is [] then a else Z.max a (i + Z.of_nat (length rest)).
Proof.
  intros Hpos. revert a i.
  induction Hpos as [|r rest Hr _ IH]; intros a i; [done|].
  simpl. rewrite foldl_app, foldl_max_replicate, IH.
  destruct (Z.to_nat r) eqn:Hk; [lia|].
  destruct rest; simpl length; lia.
Qed.

Lemma hw_rows_round_trip p :
  isPartition p = true → latticeWordToMaybePartition [] (hw_rows 0 p) = Some p.
Proof.
  intros Hp. apply (lattice_hw_rows [] p); [|by apply isPartition_positive].
  by apply andb_true_iff in Hp as [? _].
Qed.

Lemma hw_rows_lattice p : isPartition p = true → isLatticeWord (hw_rows 0 p) = true.
Proof.
  intros Hp. unfold isLatticeWord. rewrite hw_rows_round_trip by done.
  by apply bool_decide_eq_true.
Qed.

Lemma hw_rows_height p :
  isPartition p = true → vertexHeight (hw_rows 0 p) = Z.of_nat (length p).
Proof.
  intros Hp. unfold vertexHeight.
  rewrite height_hw_rows by (by apply isPartition_positive).
  destruct p; simpl length; lia.
Qed.

Lemma hw_rows_length p :
  isPartition p = true → Z.of_nat (length (hw_rows 0 p)) = size_of p.
Proof.
  intros Hp. rewrite (latticeWord_size _ _ _ (hw_rows_round_trip p Hp)).
  unfold size_of. simpl. lia.
Qed.

(** X7: for a valid partition [p] the word built by [partitionToHw] is a
    lattice word with one letter per cell, [p[i]] letters [i + 1], and its
    height is the number of rows of [p]; so [visitGLnCrystal] accepts it as
    a start in GL(n) exactly when [p] has at most [n] rows. *)
Theorem partitionToHw_shape (p : Partition) :
  isPartition p = true →
  partitionToHw p = Ret (hw_rows 0 p) ∧
  isLatticeWord (hw_rows 0 p) = true ∧
  Z.of_nat (length (hw_rows 0 p)) = size_of p ∧
  (∀ i : nat, count_letter (Z.of_nat i + 1) (hw_rows 0 p) = row p i) ∧
  vertexHeight (hw_rows 0 p) = Z.of_nat (length p) ∧
  ∀ A fuel n (visit : A → Vertex → A) a0,
    (∃ msg, visitGLnCrystal fuel n (hw_rows 0 p) visit a0 = Throw msg)
    ↔ n < Z.of_nat (length p).
Proof.
  intros Hp.
  pose proof (hw_rows_round_trip p Hp) as Hrt.
  pose proof (hw_rows_lattice p Hp) as Hlw.
  pose proof (hw_rows_height p Hp) as Hh.
  split_and!; [|done| | |done|].
  - unfold partitionToHw. by rewrite Hp.
  - by apply hw_rows_length.
  - intros i. rewrite (latticeWord_row_count _ _ _ i Hrt).
    unfold row. rewrite lookup_nil. simpl. lia.
  - intros A fuel n visit a0. unfold visitGLnCrystal. rewrite Hlw, Hh. simpl.
    destruct (Z.leb_spec (Z.of_nat (length p)) n); simpl.
    + split; [|lia]. intros [msg Hm].
      by destruct (dfs_loop _ _ _ _) as [[] ?].
    + split; [done|by eexists].
Qed.

Lemma partitionToHw_shape_witness :
  isPartition [4; 2; 1] = true ∧
  partitionToHw [4; 2; 1] = Ret (hw_rows 0 [4; 2; 1]) ∧
  vertexHeight (hw_rows 0 [4; 2; 1]) = Z.of_nat (length [4; 2; 1]).
Proof.
  split; [reflexivity|].
  destruct (partitionToHw_shape [4; 2; 1] eq_refl) as (H1 & _ & _ & _ & H2 & _).
  split; [exact H1|exact H2].
Defined.

(** ** The shape of the crystal graph *)

Lemma size_of_insert (v : list Z) (k : nat) x y :
  v !! k = Some x → size_of (<[k := y]> v) = size_of v + (y - x).
Proof.
  revert k. induction v as [|a v IH]; intros [|k] Hk; simplify_eq/=.
  - unfold size_of. simpl. lia.
  - unfold size_of in *. simpl. rewrite (IH k Hk). lia.
Qed.

Lemma count_letter_insert (v : list Z) (k : nat) x y z :
  v !! k = Some x →
  count_letter z (<[k := y]> v) =
  count_letter z v + (if decide (y = z) then 1 else 0)
                   - (if decide (x = z) then 1 else 0).
Proof.
  revert k. induction v as [|a v IH]; intros [|k] Hk; simplify_eq/=.
  - rewrite !count_letter_cons. lia.
  - rewrite !count_letter_cons, (IH k Hk). lia.
Qed.

Lemma crystal_f_step i v w :
  StackVersion.crystal_f i v = Some w →
  ∃ k : nat, crystal_f i v = Z.of_nat k ∧ v !! k = Some i ∧
             w = <[k := i + 1]> v.
Proof.
  intros Hw.
  destruct (crystal_f_cases i v) as [[_ Hnone]|(w' & Hk & Hget & -> & Hw' & _)];
    [congruence|].
  apply js_get_Some in Hget as [_ Hget].
  exists (Z.to_nat (crystal_f i v)). split_and!; [lia|done|congruence].
Qed.

Lemma crystal_f_step_size i v w :
  StackVersion.crystal_f i v = Some w → size_of w = size_of v + 1.
Proof.
  intros (k & _ & Hk & ->)%crystal_f_step.
  rewrite (size_of_insert _ _ _ _ Hk). lia.
Qed.

(** X8: an edge of the crystal replaces one letter [i] by [i + 1]: the
    word keeps its length, the sum of its letters grows by one, one letter
    [i] is traded for one letter [i + 1]; hence the sum never decreases
    along a path and the graph has no cycle. *)
Theorem edge_effect (n : Z) (v w : Vertex) :
  (edge n v w →
   ∃ i (k : nat), 1 ≤ i < n ∧ crystal_f i v = Z.of_nat k ∧
     v !! k = Some i ∧ w = <[k := i + 1]> v ∧
     length w = length v ∧ size_of w = size_of v + 1 ∧
     ∀ z, count_letter z w =
          count_letter z v + (if decide (i + 1 = z) then 1 else 0)
                           - (if decide (i = z) then 1 else 0)) ∧
  (reachable n v w → size_of v ≤ size_of w) ∧
  (reachable n v w → reachable n w v → v = w).
Proof.
  assert (∀ a b, edge n a b → size_of b = size_of a + 1) as Hedge.
  { intros a b (i & _ & Hf). by eapply crystal_f_step_size. }
  assert (∀ a b, reachable n a b →
            size_of a ≤ size_of b ∧ (size_of a = size_of b → a = b)) as Hreach.
  { intros a. unfold reachable. apply rtc_ind_r; [done|].
    intros y z _ Hyz [Hle _]. apply Hedge in Hyz. lia. }
  split_and!.
  - intros (i & Hi & (k & Hf & Hk & ->)%crystal_f_step).
    exists i, k. do 4 (split; [done|]). split_and!.
    + by rewrite length_insert.
    + rewrite (size_of_insert _ _ _ _ Hk). lia.
    + intros z. by apply count_letter_insert.
  - intros Hvw. by apply Hreach.
  - intros Hvw Hwv. apply Hreach in Hvw as [? Heq]. apply Hreach in Hwv as [? _].
    apply Heq. lia.
Qed.

Lemma edge_effect_witness :
  edge 3 [1; 1] [2; 1] ∧ reachable 3 [1; 1] [2; 1] ∧
  size_of [1; 1] ≤ size_of [2; 1].
Proof.
  assert (edge 3 [1; 1] [2; 1]) as He by (exists 1; split; [lia|reflexivity]).
  assert (reachable 3 [1; 1] [2; 1]) as Hr by (by apply rtc_once).
  split; [exact He|]. split; [exact Hr|].
  exact (proj1 (proj2 (edge_effect 3 [1; 1] [2; 1])) Hr).
Defined.

(** ** Linear combinations as formal sums *)

Lemma coefficient_nil p : coefficient p [] = 0.
Proof. done. Qed.

Lemma coefficient_cons p t l :
  coefficient p (t :: l) =
  (if decide (part t = p) then mult t else 0) + coefficient p l.
Proof. done. Qed.

Lemma coefficient_app p l1 l2 :
  coefficient p (l1 ++ l2) = coefficient p l1 + coefficient p l2.
Proof.
  unfold coefficient. induction l1 as [|t l1 IH]; simpl; [done|].
  rewrite IH. lia.
Qed.

Lemma coefficient_perm p l1 l2 :
  l1 ≡ₚ l2 → coefficient p l1 = coefficient p l2.
Proof.
  unfold coefficient. induction 1; simpl; lia.
Qed.

Lemma sort_insert_perm a l : sort_insert a l ≡ₚ a :: l.
Proof.
  induction l as [|b l IH]; simpl; [done|].
  destruct (keeps_before a b); [done|].
  rewrite IH. apply Permutation_swap.
Qed.

Lemma sort_desc_perm l : sort_desc l ≡ₚ l.
Proof.
  induction l as [|a l IH]; simpl; [done|].
  by rewrite sort_insert_perm, IH.
Qed.

Lemma normalise_step_coefficient p result t :
  coefficient p (normalise_step result t) =
  coefficient p result + (if decide (part t = p) then mult t else 0).
Proof.
  unfold normalise_step. destruct (Z.eqb_spec (mult t) 0) as [Hz|Hz].
  { rewrite Hz. destruct (decide _); lia. }
  destruct result as [|lst rest]; [unfold coefficient; simpl; lia|].
  destruct (compareLists (part lst) (part t)) eqn:Hc;
    try (unfold coefficient; simpl; lia).
  apply compareLists_Zero in Hc.
  destruct (Z.eqb_spec (mult lst + mult t) 0);
    unfold coefficient; simpl; rewrite Hc; destruct (decide _); lia.
Qed.

Lemma normalise_loop_coefficient p l result :
  coefficient p (foldl normalise_step result l) =
  coefficient p result + coefficient p l.
Proof.
  revert result. induction l as [|t l IH]; intros result; cbn [foldl].
  { rewrite coefficient_nil. lia. }
  rewrite IH, normalise_step_coefficient, coefficient_cons. lia.
Qed.

Lemma algebraNormalise_coefficient p l :
  coefficient p (algebraNormalise l) = coefficient p l.
Proof.
  unfold algebraNormalise.
  rewrite (coefficient_perm p _ _ (reverse_Permutation _)).
  rewrite normalise_loop_coefficient.
  rewrite (coefficient_perm p _ _ (sort_desc_perm l)).
  rewrite coefficient_nil. lia.
Qed.

Lemma coefficient_absent p l :
  Forall (λ t, part t ≠ p) l → coefficient p l = 0.
Proof.
  unfold coefficient. induction 1 as [|t l Ht _ IH]; simpl; [done|].
  rewrite IH. by destruct (decide _).
Qed.

Lemma gt_part_ne a t : gt_part a t → part t ≠ part a.
Proof.
  unfold gt_part. intros Hgt Heq. rewrite Heq in Hgt.
  by rewrite (proj2 (compareLists_Zero _ _) eq_refl) in Hgt.
Qed.

Global Instance gt_part_trans : Transitive gt_part.
Proof. intros a b c Hab Hbc. eapply gt_ge_trans; [done|by apply gt_ge]. Qed.

Lemma normal_head a l :
  Sorted gt_part (a :: l) → Forall (λ t, gt_part a t) l ∧ Sorted gt_part l.
Proof.
  intros Hs. apply Sorted_StronglySorted in Hs; [|apply _].
  apply StronglySorted_inv in Hs as [Hs Ha]. split; [done|].
  by apply StronglySorted_Sorted.
Qed.

(** Two lists in normal form that denote the same formal sum are equal. *)
Lemma normal_form_unique l1 l2 :
  is_normal l1 = true → is_normal l2 = true →
  (∀ p, coefficient p l1 = coefficient p l2) → l1 = l2.
Proof.
  rewrite !is_normal_spec. intros [Hs1 Hm1] [Hs2 Hm2].
  revert l2 Hs2 Hm2.
  assert (∀ a l, Sorted gt_part (a :: l) →
            ∀ p, coefficient p (a :: l) =
                 (if decide (part a = p) then mult a else 0) + coefficient p l)
    as Hcons by done.
  assert (∀ a l l', Sorted gt_part (a :: l) → mult a ≠ 0 →
            Sorted gt_part l' →
            (∀ p, coefficient p (a :: l) = coefficient p l') →
            ∃ b l'', l' = b :: l'' ∧ ¬ gt_part a b) as Hfind.
  { intros a l l' Hs Hm Hs' Hco.
    destruct l' as [|b l''].
    { specialize (Hco (part a)). rewrite coefficient_nil in Hco.
      rewrite Hcons in Hco by done.
      destruct (normal_head _ _ Hs) as [Ha _].
      rewrite coefficient_absent in Hco.
      - destruct (decide _); [lia|done].
      - eapply Forall_impl; [done|]. intros t. apply gt_part_ne. }
    exists b, l''. split; [done|]. intros Hab.
    specialize (Hco (part a)). rewrite Hcons in Hco by done.
    destruct (normal_head _ _ Hs) as [Ha _].
    destruct (normal_head _ _ Hs') as [Hb _].
    rewrite (coefficient_absent (part a) l) in Hco.
    2:{ eapply Forall_impl; [done|]. intros t. apply gt_part_ne. }
    rewrite (coefficient_absent (part a) (b :: l'')) in Hco.
    2:{ constructor; [by apply gt_part_ne|].
        eapply Forall_impl; [done|]. intros t Hbt.
        apply gt_part_ne. by etrans. }
    destruct (decide _); [lia|done]. }
  induction l1 as [|a l1 IH]; intros l2 Hs2 Hm2 Hco.
  - destruct l2 as [|b l2]; [done|].
    destruct (Hfind b l2 [] Hs2) as (? & ? & ? & _); [|constructor| |done].
    + by apply Forall_cons_1 in Hm2 as [? _].
    + intros p. by rewrite Hco.
  - apply Forall_cons_1 in Hm1 as [Hma Hm1].
    destruct (Hfind a l1 l2 Hs1 Hma Hs2 Hco) as (b & l2' & -> & Hab).
    apply Forall_cons_1 in Hm2 as [Hmb Hm2].
    destruct (Hfind b l2' (a :: l1) Hs2 Hmb Hs1) as (? & ? & [= <- <-] & Hba).
    { intros p. by rewrite Hco. }
    assert (part a = part b) as Hpart.
    { apply compareLists_Zero. unfold gt_part in Hab, Hba.
      rewrite (compareLists_flip (part a) (part b)) in Hba.
      by destruct (compareLists (part a) (part b)). }
    assert (mult a = mult b) as Hmult.
    { specialize (Hco (part a)). rewrite !Hcons in Hco by done.
      destruct (normal_head _ _ Hs1) as [Ha _].
      destruct (normal_head _ _ Hs2) as [Hb _].
      rewrite (coefficient_absent (part a) l1) in Hco.
      2:{ eapply Forall_impl; [done|]. intros t. apply gt_part_ne. }
      rewrite (coefficient_absent (part a) l2') in Hco.
      2:{ rewrite Hpart. eapply Forall_impl; [done|].
          intros t. apply gt_part_ne. }
      rewrite Hpart in Hco. destruct (decide _); [lia|done]. }
    assert (a = b) as <- by (destruct a, b; simpl in *; congruence).
    f_equal. apply IH; [by eapply normal_head|done|by eapply normal_head|done|].
    intros p. specialize (Hco p). rewrite !Hcons in Hco by done. lia.
Qed.

Lemma coefficient_concat p (lins : list Linear) :
  coefficient p (concat lins) = foldr (λ l acc, coefficient p l + acc) 0 lins.
Proof.
  induction lins as [|l lins IH]; simpl; [done|].
  by rewrite coefficient_app, IH.
Qed.

(** ** The traversal, for every visitor *)

Lemma traversal_returns n start :
  1 ≤ n → isLatticeWord start = true → vertexHeight start ≤ n →
  ∃ k vs,
    NoDup vs ∧ (∀ v, v ∈ vs ↔ reachable n start v) ∧
    ∀ k', (k ≤ k')%nat → ∀ A (visit : A → Vertex → A) a0,
      visitGLnCrystal k' n start visit a0 = Ret (foldl visit a0 vs).
Proof.
  intros Hn Hlw Hh.
  destruct (traversal_halts n start Hn (start_well_formed n start Hlw Hh))
    as (k & st & Hrun & Hnd & Hvs).
  exists k, (client st). split_and!; [done|done|].
  intros k' Hk A visit a0. by rewrite visitGLnCrystal_run, Hrun.
Qed.

Lemma vertexHeight_le n v :
  0 ≤ n → Forall (λ x, x ≤ n) v → vertexHeight v ≤ n.
Proof.
  intros Hn Hall. unfold vertexHeight.
  cut (∀ a, a ≤ n → foldl Z.max a v ≤ n); [intros H; by apply H|].
  induction Hall as [|x v Hx _ IH]; intros a Ha; simpl; [done|].
  apply IH. lia.
Qed.

(** ** The partitions returned by [tensorPartitions] *)

Lemma push_if_lattice_omap left acc vs :
  foldl (push_if_lattice left) acc vs =
  acc ++ omap (latticeWordToMaybePartition left) vs.
Proof.
  revert acc. induction vs as [|v vs IH]; intros acc; simpl.
  { by rewrite app_nil_r. }
  rewrite IH. unfold push_if_lattice.
  destruct (latticeWordToMaybePartition left v); [|done].
  by rewrite <- app_assoc.
Qed.

Lemma tensor_term n left right v r :
  0 ≤ n → isPartition left = true → Z.of_nat (length left) ≤ n →
  isPartition right = true →
  reachable n (hw_rows 0 right) v → Z.of_nat (length right) ≤ n →
  latticeWordToMaybePartition left v = Some r →
  isPartition r = true ∧ size_of r = size_of left + size_of right ∧
  Z.of_nat (length r) ≤ n.
Proof.
  intros Hn Hl Hln Hr Hv Hrn Hlw.
  assert (well_formed n (length (hw_rows 0 right)) v) as [Hlen Hall].
  { apply reachable_well_formed; [|done].
    apply start_well_formed; [by apply hw_rows_lattice|].
    by rewrite hw_rows_height. }
  split_and!.
  - exact (latticeWord_partition left v r Hl Hlw).
  - rewrite (latticeWord_size _ _ _ Hlw), Hlen. by rewrite hw_rows_length.
  - rewrite (latticeWord_length _ _ _ Hlw).
    assert (vertexHeight v ≤ n); [|lia].
    apply vertexHeight_le; [done|].
    eapply Forall_impl; [done|]. intros x ?; simpl in *. lia.
Qed.

Lemma tensorPartitions_run n p q :
  2 ≤ n → isPartition p = true → isPartition q = true →
  Z.of_nat (length p) ≤ n → Z.of_nat (length q) ≤ n →
  ∃ k left right vs,
    (left = p ∧ right = q ∨ left = q ∧ right = p) ∧
    NoDup vs ∧ (∀ v, v ∈ vs ↔ reachable n (hw_rows 0 right) v) ∧
    ∀ k', (k ≤ k')%nat →
      tensorPartitions k' n p q =
      Ret (omap (latticeWordToMaybePartition left) vs).
Proof.
  intros Hn Hp Hq Hpn Hqn.
  destruct (traversal_returns n (hw_rows 0 p))
    as (kp & vp & Hndp & Hvp & Hrunp);
    [lia|by apply hw_rows_lattice|by rewrite hw_rows_height|].
  destruct (traversal_returns n (hw_rows 0 q))
    as (kq & vq & Hndq & Hvq & Hrunq);
    [lia|by apply hw_rows_lattice|by rewrite hw_rows_height|].
  unfold tensorPartitions, dimensionInGL, partitionToHw. rewrite Hp, Hq.
  destruct (Z.leb_spec 2 n); [|lia]. simpl.
  destruct (num_lt _ _); simpl.
  - exists kp, q, p, vp. split_and!; [by right|done|done|].
    intros k' Hk. rewrite Hp. simpl. rewrite Hrunp by lia.
    by rewrite push_if_lattice_omap.
  - exists kq, p, q, vq. split_and!; [by left|done|done|].
    intros k' Hk. rewrite Hq. simpl. rewrite Hrunq by lia.
    by rewrite push_if_lattice_omap.
Qed.

(** ** Restriction to GL(n) *)

Lemma coefficient_filter (P : Partition → Prop) `{∀ p, Decision (P p)} p lin :
  coefficient p (filter (λ t, P (part t)) lin) =
  if decide (P p) then coefficient p lin else 0.
Proof.
  induction lin as [|t lin IH]; [by destruct (decide _)|].
  rewrite filter_cons. destruct (decide (P (part t))) as [Ht|Ht].
  - rewrite !coefficient_cons, IH.
    destruct (decide (P p)); [done|]. destruct (decide (part t = p)); [|done].
    by subst.
  - rewrite IH, coefficient_cons. destruct (decide (P p)); [|done].
    destruct (decide (part t = p)); [by subst|lia].
Qed.

(** X12: [restrict] does nothing in the symmetric algebra.  In the ring of
    GL(n) it removes exactly the terms whose partition has more than [n]
    rows (the coefficient of such a partition becomes 0, the others are
    kept), never returns the empty list (it returns the unit 0 instead),
    and restricting twice is restricting once. *)
Theorem restrict_spec (lin : Linear) :
  AlgebraType.restrict AlgebraType.Sym lin = lin ∧
  ∀ n type, AlgebraType.GL n = Ret type →
    AlgebraType.restrict type lin ≠ [] ∧
    Forall (λ t, Z.of_nat (length (part t)) ≤ n) (AlgebraType.restrict type lin) ∧
    (∀ p, coefficient p (AlgebraType.restrict type lin) =
          if decide (Z.of_nat (length p) ≤ n) then coefficient p lin else 0) ∧
    AlgebraType.restrict type (AlgebraType.restrict type lin)
      = AlgebraType.restrict type lin.
Proof.
  split; [done|]. intros n type Htype. unfold AlgebraType.GL in Htype.
  destruct (Z.leb_spec 2 n) as [Hn|]; [|done]. simpl in Htype.
  injection Htype as <-. unfold AlgebraType.restrict. simpl.
  assert (∀ p l,
            coefficient p (filter (λ elem, Z.of_nat (length (part elem)) ≤ n) l)
            = if decide (Z.of_nat (length p) ≤ n) then coefficient p l else 0)
    as Hco.
  { intros p l.
    exact (coefficient_filter (λ q : list Z, Z.of_nat (length q) ≤ n) p l). }
  destruct (filter (λ elem, Z.of_nat (length (part elem)) ≤ n) lin)
    as [|t r] eqn:Hf; cbn [length Nat.eqb].
  - split_and!; [done| | |].
    + repeat constructor. simpl. lia.
    + intros p. specialize (Hco p lin). rewrite Hf, coefficient_nil in Hco.
      rewrite <- Hco. unfold coefficient. simpl.
      destruct (decide ([] = p)); lia.
    + unfold algebraUnit. rewrite filter_cons_True by (simpl; lia). done.
  - assert (Forall (λ t, Z.of_nat (length (part t)) ≤ n) (t :: r)) as Hall.
    { rewrite <- Hf. apply Forall_forall.
      by intros x [? _]%list_elem_of_filter. }
    split_and!; [done|done| |].
    + intros p. rewrite <- Hf. apply Hco.
    + assert (filter (λ elem, Z.of_nat (length (part elem)) ≤ n) (t :: r)
              = t :: r) as ->; [|done].
      rewrite <- Hf. clear. induction lin as [|x lin IH]; [done|].
      rewrite filter_cons. destruct (decide _) as [Hx|]; [|done].
      rewrite filter_cons_True by done. by rewrite IH.
Qed.

Lemma restrict_spec_witness :
  AlgebraType.GL 2 = Ret (AlgebraType.Make "gl" 2) ∧
  AlgebraType.restrict (AlgebraType.Make "gl" 2) [Term [3; 2; 1] 1]
    = algebraUnit 0 ∧
  AlgebraType.restrict (AlgebraType.Make "gl" 2) [Term [3; 2; 1] 1] ≠ [].
Proof.
  split; [reflexivity|]. split; [reflexivity|].
  exact (proj1 (proj2 (restrict_spec [Term [3; 2; 1] 1]) 2 _ eq_refl)).
Defined.

(** ** Products *)

Lemma mul_inner_unit_left fuel type k lin product :
  mul_inner fuel type (Term [] k) lin product =
  Ret (product ++ ((λ t, Term (part t) (k * mult t)) <$> lin)).
Proof.
  revert product. induction lin as [|t lin IH]; intros product; simpl.
  { by rewrite app_nil_r. }
  rewrite IH. by rewrite <- app_assoc.
Qed.

Lemma mul_outer_unit_right fuel type k lin product :
  mul_outer fuel type lin [Term [] k] product =
  Ret (product ++ ((λ t, Term (part t) (mult t * k)) <$> lin)).
Proof.
  revert product. induction lin as [|t lin IH]; intros product; simpl.
  { by rewrite app_nil_r. }
  unfold mul_terms. simpl.
  destruct (part t) as [|x p] eqn:Hp; simpl; rewrite IH, <- app_assoc; simpl;
    by rewrite ?Hp.
Qed.

Lemma coefficient_scale p k (lin : Linear) (f : term → term) :
  (∀ t, part (f t) = part t ∧ mult (f t) = k * mult t) →
  coefficient p (f <$> lin) = k * coefficient p lin.
Proof.
  intros Hf. induction lin as [|t lin IH]; [rewrite !coefficient_nil; simpl; lia|].
  rewrite fmap_cons, !coefficient_cons, IH.
  destruct (Hf t) as [-> ->]. destruct (decide _); lia.
Qed.

(** ** Products of well-formed linear combinations *)

Lemma valid_type_cases type :
  valid_type type →
  AlgebraType.algebra type = "sym" ∨
  (AlgebraType.algebra type = "gl" ∧ 2 ≤ AlgebraType.n type).
Proof.
  intros [->|[n Hn]]; [by left|right].
  unfold AlgebraType.GL in Hn. destruct (Z.leb_spec 2 n); [|done].
  simpl in Hn. by injection Hn as <-.
Qed.

Lemma normalise_parts (P : Partition → Prop) l :
  Forall (λ t, P (part t)) l → Forall (λ t, P (part t)) (algebraNormalise l).
Proof.
  intros Hl. unfold algebraNormalise. apply Forall_reverse.
  assert (Forall (λ t, P (part t)) (sort_desc l)) as Hs.
  { by rewrite sort_desc_perm. }
  assert (Forall (λ t, P (part t)) []) as Hacc by constructor.
  revert Hacc. generalize (@nil term).
  induction Hs as [|t s Ht _ IH]; intros acc Hacc; [done|].
  simpl. apply IH. unfold normalise_step.
  destruct (mult t =? 0); [done|].
  destruct Hacc as [|lst acc Hlst Hacc]; [by repeat constructor|].
  destruct (compareLists _ _); [by repeat constructor| |by repeat constructor].
  destruct (_ =? 0); [done|by constructor].
Qed.

Lemma mul_terms_returns type t1 t2 :
  valid_type type → fits type (part t1) → fits type (part t2) →
  ∃ k pushed, Forall (λ t, fits type (part t)) pushed ∧
    ∀ k', (k ≤ k')%nat → mul_terms k' type t1 t2 = Ret pushed.
Proof.
  intros Hty [Hp1 Hn1] [Hp2 Hn2]. unfold mul_terms.
  destruct (part t1) as [|x1 p1] eqn:E1; simpl.
  { exists 0%nat. eexists. split; [|done]. by repeat constructor. }
  destruct (part t2) as [|x2 p2] eqn:E2; simpl.
  { exists 0%nat. eexists. split; [|done]. by repeat constructor. }
  set (n' := AlgebraType.tensorIn type (x1 :: p1) (x2 :: p2)).
  assert (2 ≤ n' ∧ Z.of_nat (length (x1 :: p1)) ≤ n' ∧
          Z.of_nat (length (x2 :: p2)) ≤ n' ∧
          (AlgebraType.algebra type = "gl" → n' = AlgebraType.n type))
    as (Hn' & Hl1 & Hl2 & Hgl).
  { unfold n', AlgebraType.tensorIn.
    destruct (valid_type_cases type Hty) as [Hs|[Hg ?]].
    - rewrite Hs. simpl. split_and!; try lia. discriminate.
    - rewrite Hg. simpl. split_and!; auto. }
  destruct (tensorPartitions_run n' (x1 :: p1) (x2 :: p2))
    as (k & left & right & vs & Hlr & _ & Hvs & Hrun); [done..|].
  exists k. eexists. split.
  2:{ intros k' Hk. rewrite Hrun by done. simpl. done. }
  apply Forall_fmap, Forall_forall.
  intros r (v & Hv%Hvs & Hr)%list_elem_of_omap. simpl.
  assert (isPartition r = true ∧ Z.of_nat (length r) ≤ n') as [? ?].
  { destruct Hlr as [[-> ->]|[-> ->]].
    - by destruct (tensor_term n' _ _ v r ltac:(lia) Hp1 Hl1 Hp2 Hv Hl2 Hr)
        as (? & _ & ?).
    - by destruct (tensor_term n' _ _ v r ltac:(lia) Hp2 Hl2 Hp1 Hv Hl1 Hr)
        as (? & _ & ?). }
  split; [done|]. intros Hg. rewrite <- (Hgl Hg). done.
Qed.

Lemma mul_inner_returns type t1 lin :
  valid_type type → fits type (part t1) →
  Forall (λ t, fits type (part t)) lin →
  ∃ k pushed, Forall (λ t, fits type (part t)) pushed ∧
    ∀ k', (k ≤ k')%nat → ∀ product,
      mul_inner k' type t1 lin product = Ret (product ++ pushed).
Proof.
  intros Hty H1. induction 1 as [|t2 lin H2 _ (k & pushed & Hfit & Hrun)].
  { exists 0%nat, []. split; [constructor|]. intros k' _ product. simpl.
    by rewrite app_nil_r. }
  destruct (mul_terms_returns type t1 t2 Hty H1 H2) as (k2 & new & Hnew & Hrun2).
  exists (k `max` k2)%nat, (new ++ pushed). split; [by apply Forall_app|].
  intros k' Hk product. simpl. rewrite Hrun2 by lia. simpl.
  rewrite Hrun by lia. by rewrite <- app_assoc.
Qed.

Lemma mul_outer_returns type sofar lin :
  valid_type type → Forall (λ t, fits type (part t)) sofar →
  Forall (λ t, fits type (part t)) lin →
  ∃ k pushed, Forall (λ t, fits type (part t)) pushed ∧
    ∀ k', (k ≤ k')%nat → ∀ product,
      mul_outer k' type sofar lin product = Ret (product ++ pushed).
Proof.
  intros Hty Hs Hl. induction Hs as [|t1 sofar H1 _ (k & pushed & Hfit & Hrun)].
  { exists 0%nat, []. split; [constructor|]. intros k' _ product. simpl.
    by rewrite app_nil_r. }
  destruct (mul_inner_returns type t1 lin Hty H1 Hl) as (k1 & new & Hnew & Hrun1).
  exists (k `max` k1)%nat, (new ++ pushed). split; [by apply Forall_app|].
  intros k' Hk product. simpl. rewrite Hrun1 by lia. simpl.
  rewrite Hrun by lia. by rewrite <- app_assoc.
Qed.

Lemma mul_loop_returns type sofar lins :
  valid_type type → Forall (λ t, fits type (part t)) sofar →
  Forall (Forall (λ t, fits type (part t))) lins →
  ∃ k r, Forall (λ t, fits type (part t)) r ∧
    (lins ≠ [] → is_normal r = true) ∧
    ∀ k', (k ≤ k')%nat → mul_loop k' type sofar lins = Ret r.
Proof.
  intros Hty Hs Hl. revert sofar Hs.
  induction Hl as [|lin lins Hlin _ IH]; intros sofar Hs.
  { exists 0%nat, sofar. by split_and!. }
  destruct (mul_outer_returns type sofar lin Hty Hs Hlin)
    as (k1 & product & Hprod & Hrun1).
  destruct (IH (algebraNormalise product)) as (k & r & Hr & Hnorm & Hrun).
  { by apply (normalise_parts (fits type)). }
  exists (k `max` k1)%nat, r. split_and!; [done| |].
  - intros _. destruct lins as [|lin' lins]; [|by apply Hnorm].
    specialize (Hrun k ltac:(lia)). simpl in Hrun. injection Hrun as <-.
    apply algebraNormalise_normal.
  - intros k' Hk. simpl. rewrite Hrun1 by lia. simpl. apply Hrun. lia.
Qed.

Lemma algebraMul_total type lins :
  valid_type type → Forall (Forall (λ t, fits type (part t))) lins →
  ∃ k r, Forall (λ t, fits type (part t)) r ∧
    ((2 ≤ length lins)%nat → is_normal r = true) ∧
    ∀ k', (k ≤ k')%nat → algebraMul k' type lins = Ret r.
Proof.
  intros Hty Hl. destruct Hl as [|first rest Hfirst Hrest].
  { exists 0%nat, (algebraUnit 1). split_and!; [|simpl; lia|done].
    repeat constructor. intros Hg. simpl.
    destruct (valid_type_cases type Hty) as [Hs|[_ ?]]; [congruence|lia]. }
  destruct (mul_loop_returns type first rest Hty Hfirst Hrest)
    as (k & r & Hr & Hnorm & Hrun).
  exists k, r. split_and!; [done| |done].
  intros Hlen. apply Hnorm. destruct rest; [simpl in Hlen; lia|done].
Qed.

(** X14: on well-formed input, [algebraMul] and [algebraPow] return.  In
    the symmetric algebra or in the ring of a GL(n) made by
    [AlgebraType.GL], if every partition of every factor is valid (and has
    at most [n] rows for GL(n)), then every call of [tensorPartitions]
    passes its assertions and every traversal ends: with enough iterations
    allowed, [algebraMul] returns one result, whose partitions are again
    valid (with at most [n] rows) and which is in normal form as soon as
    there are two factors; so does [algebraPow] for the exponent 0 and for
    an exponent that is an array length which the engine can spread into
    the call.  An exponent that is negative or above 2^32 - 1 throws, and
    for an exponent above what the engine can spread [algebraPow] returns
    nothing, however many iterations are allowed. *)
Theorem algebraMul_returns (max_spread : Z) (type : AlgebraType.t)
    (lins : list Linear) (lin : Linear) (pow : Z) :
  valid_type type →
  Forall (Forall (λ t, fits type (part t))) lins →
  Forall (λ t, fits type (part t)) lin →
  (∃ k r, Forall (λ t, fits type (part t)) r ∧
     ((2 ≤ length lins)%nat → is_normal r = true) ∧
     ∀ k', (k ≤ k')%nat → algebraMul k' type lins = Ret r) ∧
  (pow = 0 ∨ (0 < pow ≤ 4294967295 ∧ pow ≤ max_spread) →
   ∃ k r, Forall (λ t, fits type (part t)) r ∧
     ∀ k', (k ≤ k')%nat → algebraPow max_spread k' type lin pow = Ret r) ∧
  (pow < 0 ∨ 4294967295 < pow →
   ∀ k, ∃ msg, algebraPow max_spread k type lin pow = Throw msg) ∧
  (0 < pow → max_spread < pow →
   ∀ k r, algebraPow max_spread k type lin pow ≠ Ret r).
Proof.
  intros Hty Hlins Hlin. split_and!.
  - by apply algebraMul_total.
  - intros Hpow. unfold algebraPow.
    destruct (Z.eqb_spec pow 0).
    { exists 0%nat, (algebraUnit 1). split; [|done].
      destruct (algebraMul_total type [] Hty) as (k0 & r & Hr & _ & Hrun);
        [constructor|].
      specialize (Hrun _ (Nat.le_refl _)). simpl in Hrun.
      injection Hrun as Hrun. by rewrite Hrun. }
    destruct (Z.ltb_spec pow 0); [lia|].
    destruct (Z.ltb_spec 4294967295 pow); [lia|].
    destruct (Z.ltb_spec max_spread pow); [lia|]. simpl.
    destruct (algebraMul_total type (replicate (Z.to_nat pow) lin) Hty)
      as (k & r & Hr & _ & Hrun).
    { by apply Forall_replicate. }
    by exists k, r.
  - intros Hpow k. unfold algebraPow.
    destruct (Z.eqb_spec pow 0); [lia|].
    destruct (Z.ltb_spec pow 0); [by eexists|].
    destruct (Z.ltb_spec 4294967295 pow); [by eexists|lia].
  - intros Hpow Hmax k r. unfold algebraPow.
    destruct (Z.eqb_spec pow 0); [lia|].
    destruct (_ || _); [done|].
    destruct (Z.ltb_spec max_spread pow); [done|lia].
Qed.

Lemma algebraMul_returns_witness :
  (∃ k r, Forall (λ t, fits AlgebraType.Sym (part t)) r ∧
     ((2 ≤ 2)%nat → is_normal r = true) ∧
     ∀ k', (k ≤ k')%nat →
       algebraMul k' AlgebraType.Sym [[Term [2; 1] 1]; [Term [1] 1]] = Ret r) ∧
  (∃ k r, Forall (λ t, fits AlgebraType.Sym (part t)) r ∧
     ∀ k', (k ≤ k')%nat →
       algebraPow 120000 k' AlgebraType.Sym [Term [1] 1] 3 = Ret r) ∧
  (∀ k r, algebraPow 120000 k AlgebraType.Sym [Term [1] 1] 125000 ≠ Ret r).
Proof.
  assert (valid_type AlgebraType.Sym) as Hty by (by left).
  assert (Forall (Forall (λ t, fits AlgebraType.Sym (part t)))
            [[Term [2; 1] 1]; [Term [1] 1]]) as Hl.
  { repeat constructor; simpl; discriminate. }
  assert (Forall (λ t, fits AlgebraType.Sym (part t)) [Term [1] 1]) as Hlin.
  { repeat constructor; simpl; discriminate. }
  split; [|split].
  - exact (proj1 (algebraMul_returns 120000 AlgebraType.Sym _ _ 3
                    Hty Hl Hlin)).
  - apply (proj1 (proj2 (algebraMul_returns 120000 AlgebraType.Sym _ _ 3
                           Hty Hl Hlin))). lia.
  - apply (proj2 (proj2 (proj2 (algebraMul_returns 120000 AlgebraType.Sym
                                  _ _ 125000 Hty Hl Hlin)))); lia.
Defined.

Example algebraMul_tests :
  algebraMul 100 AlgebraType.Sym [[Term [1] 1]; [Term [1] 1]]
    = Ret [Term [2] 1; Term [1; 1] 1] ∧
  algebraMul 100 (AlgebraType.Make "gl" 2)
    [[Term [1] 1]; [Term [1] 1]; [Term [1] 1]]
    = Ret [Term [3] 1; Term [2; 1] 2] ∧
  algebraPow 120000 100 AlgebraType.Sym [Term [1] 1] 3
    = Ret [Term [3] 1; Term [2; 1] 2; Term [1; 1; 1] 1] ∧
  algebraPow 120000 100 AlgebraType.Sym [Term [1] 1] 125000
    = Throw "Maximum call stack size exceeded" ∧
  algebraPow 120000 100 AlgebraType.Sym [Term [1] 1] (-1)
    = Throw "Invalid array length" ∧
  algebraAdd [[Term [] 1]; [Term [] 1]; [Term [2; 1] 1]; [Term [] 1];
              [Term [1] 1]]
    = [Term [2; 1] 1; Term [1] 1; Term [] 3].
Proof. repeat split; by vm_compute. Qed.

(** ** The cost and the memory of the traversal *)

Lemma dfs_step_debt n st st' :
  dfs_step n push_copy st = Continue st' → debt n st' = debt n st - 1.
Proof.
  unfold dfs_step, debt. destruct st as [sn v ms es te cl]; simpl.
  destruct (Z.eqb_spec te n) as [->|Hte].
  - destruct ms as [|idx ms]; [done|].
    destruct (js_add_at v idx (-1)); [|done].
    destruct es as [|resume es]; [done|].
    intros [= <-]. simpl. lia.
  - destruct (crystal_f te v <? 0).
    { intros [= <-]. simpl. lia. }
    destruct (js_add_at v (crystal_f te v) 1) as [moved|]; [|done].
    destruct (bool_decide _).
    + destruct (js_add_at moved _ _); [|done]. intros [= <-]. simpl. lia.
    + intros [= <-]. simpl. unfold push_copy. rewrite length_app. simpl. lia.
Qed.

Lemma dfs_loop_debt k n st st' :
  dfs_loop k n push_copy st = (Running, st') →
  debt n st' = debt n st - Z.of_nat k.
Proof.
  revert st. induction k as [|k IH]; intros st; simpl.
  { intros [= <-]. lia. }
  destruct (dfs_step n push_copy st) as [|st1|] eqn:Hstep; [done| |done].
  intros Hrun. rewrite (IH _ Hrun), (dfs_step_debt _ _ _ Hstep). lia.
Qed.

Lemma dfs_loop_break {A} k n (visit : A → Vertex → A) st st' :
  dfs_loop k n visit st = (Halted, st') →
  ∃ j, (j < k)%nat ∧ dfs_loop j n visit st = (Running, st') ∧
       dfs_step n visit st' = Break.
Proof.
  revert st. induction k as [|k IH]; intros st; simpl; [done|].
  destruct (dfs_step n visit st) as [|st1|] eqn:Hstep; [| |done].
  - intros [= <-]. exists 0%nat. split; [lia|done].
  - intros (j & Hj & Hrun & Hbr)%IH. exists (S j). split; [lia|].
    simpl. by rewrite Hstep.
Qed.

Lemma dfs_loop_prefix {A} j i n (visit : A → Vertex → A) st st' :
  dfs_loop j n visit st = (Running, st') → (i ≤ j)%nat →
  (dfs_loop i n visit st).1 = Running.
Proof.
  revert i st. induction j as [|j IH]; intros i st Hrun Hi.
  { by replace i with 0%nat by lia. }
  destruct i as [|i]; [done|]. simpl in *.
  destruct (dfs_step n visit st); [done| |done].
  apply (IH i _ Hrun). lia.
Qed.

Lemma dfs_loop_last {A} j n (visit : A → Vertex → A) st st' :
  dfs_loop j n visit st = (Running, st') → dfs_step n visit st' = Break →
  dfs_loop (S j) n visit st = (Halted, st').
Proof.
  revert st. induction j as [|j IH]; intros st.
  { intros [= <-] Hbr. simpl. by rewrite Hbr. }
  intros Hrun Hbr. simpl in Hrun.
  change (dfs_loop (S (S j)) n visit st) with
    (match dfs_step n visit st with
     | Break => (Halted, st)
     | Continue st1 => dfs_loop (S j) n visit st1
     | Undefined => (Stuck, st)
     end).
  destruct (dfs_step n visit st); [done| |done]. by apply IH.
Qed.

Lemma dfs_step_break {A} n (visit : A → Vertex → A) st :
  dfs_step n visit st = Break → toExpand st = n ∧ mutStack st = [].
Proof.
  unfold dfs_step. destruct (Z.eqb_spec (toExpand st) n).
  - destruct (mutStack st); [done|].
    destruct (js_add_at _ _ _); [|done]. by destruct (expStack st).
  - destruct (_ <? 0); [done|]. destruct (js_add_at _ _ _); [|done].
    destruct (bool_decide _); [|done]. by destruct (js_add_at _ _ _).
Qed.

Lemma path_depth n visited start v te ms es verts :
  path n visited start v te ms es verts →
  length ms = length es ∧
  size_of v = size_of start + Z.of_nat (length ms).
Proof.
  induction 1 as [|parent e ms es verts v te _ [IH1 IH2] _ Hf]; simpl.
  { split; [done|lia]. }
  split; [by rewrite IH1|].
  rewrite (crystal_f_step_size _ _ _ Hf), IH2. lia.
Qed.

Lemma well_formed_size n m v :
  well_formed n m v → Z.of_nat m ≤ size_of v ≤ n * Z.of_nat m.
Proof.
  intros [<- Hv]. induction Hv as [|x v Hx _ IH]; simpl; [lia|].
  change (size_of (x :: v)) with (x + size_of v). lia.
Qed.

Lemma traversal_cost n start :
  1 ≤ n → well_formed n (length start) start →
  ∃ st, NoDup (client st) ∧ (∀ v, v ∈ client st ↔ reachable n start v) ∧
    mutVert st = start ∧ mutStack st = [] ∧ expStack st = [] ∧
    ∀ k, if decide (n * Z.of_nat (length (client st)) ≤ Z.of_nat k)
         then dfs_loop k n push_copy (dfs_start push_copy [] start)
              = (Halted, st)
         else (dfs_loop k n push_copy (dfs_start push_copy [] start)).1
              = Running.
Proof.
  intros Hn Hwf.
  destruct (traversal_halts n start Hn Hwf) as (k0 & st & Hhalt & Hnd & Hall).
  destruct (dfs_loop_break _ _ _ _ _ (Hhalt k0 (Nat.le_refl _)))
    as (j & _ & Hrun & Hbr).
  pose proof (dfs_loop_debt _ _ _ _ Hrun) as Hdebt.
  destruct (dfs_loop_inv n start j _ Hn (dfs_inv_start n start Hn))
    as [_ Hinv].
  rewrite Hrun in Hinv. simpl in Hinv.
  destruct (dfs_step_break _ _ _ Hbr) as [Hte Hms].
  destruct (inv_path _ _ _ Hinv) as (verts & Hpath & _).
  rewrite Hms in Hpath.
  assert (expStack st = [] ∧ mutVert st = start) as [Hes Hv].
  { by inversion Hpath. }
  assert (Z.of_nat j = n * Z.of_nat (length (client st)) - 1) as Hj.
  { unfold debt in Hdebt. rewrite Hes, Hte in Hdebt. simpl in Hdebt. lia. }
  exists st. split_and!; [done..|]. intros k.
  destruct (decide _) as [Hk|Hk].
  - apply (dfs_loop_stable (S j)); [by apply dfs_loop_last|lia].
  - apply (dfs_loop_prefix j k _ _ _ _ Hrun). lia.
Qed.

(** X15: the exact cost of the traversal.  For [n >= 1] and a valid start,
    the loop of [visitGLnCrystal] makes exactly [n] times as many
    iterations as there are vertices in the crystal: with fewer iterations
    allowed the traversal is still running, with that many (or more) it has
    returned, having called the visitor once on each reachable vertex. *)
Theorem visitGLnCrystal_cost (n : Z) (start : Vertex) :
  1 ≤ n → isLatticeWord start = true → vertexHeight start ≤ n →
  ∃ vs, NoDup vs ∧ (∀ v, v ∈ vs ↔ reachable n start v) ∧
    ∀ fuel A (visit : A → Vertex → A) (a0 : A),
      visitGLnCrystal fuel n start visit a0 =
      if decide (n * Z.of_nat (length vs) ≤ Z.of_nat fuel)
      then Ret (foldl visit a0 vs) else Timeout.
Proof.
  intros Hn Hlw Hh.
  destruct (traversal_cost n start Hn (start_well_formed n start Hlw Hh))
    as (st & Hnd & Hall & _ & _ & _ & Hcost).
  exists (client st). split; [done|]. split; [done|].
  intros fuel A visit a0. rewrite visitGLnCrystal_run by done.
  specialize (Hcost fuel). destruct (decide _).
  - by rewrite Hcost.
  - destruct (dfs_loop fuel n push_copy _) as [s st']. simpl in Hcost.
    by rewrite Hcost.
Qed.

Lemma visitGLnCrystal_cost_witness :
  ∃ vs, NoDup vs ∧ (∀ v, v ∈ vs ↔ reachable 3 [1; 1; 2] v) ∧
    ∀ fuel A (visit : A → Vertex → A) (a0 : A),
      visitGLnCrystal fuel 3 [1; 1; 2] visit a0 =
      if decide (3 * Z.of_nat (length vs) ≤ Z.of_nat fuel)
      then Ret (foldl visit a0 vs) else Timeout.
Proof.
  apply (visitGLnCrystal_cost 3 [1; 1; 2]); [lia|reflexivity|].
  vm_compute. discriminate.
Defined.

Example expandInGL_cost :
  expandInGL 23 3 [1; 1; 2] = Timeout ∧
  expandInGL 24 3 [1; 1; 2]
    = Ret [[1; 1; 2]; [2; 1; 2]; [3; 1; 2]; [3; 1; 3]; [3; 2; 3];
           [1; 1; 3]; [2; 1; 3]; [2; 2; 3]].
Proof. split; by vm_compute. Qed.

(** X16: the memory of the traversal.  At every iteration, whatever the
    visitor, the two stacks have the same length, which is the number of
    steps from [start] down to the working vertex, that is the difference
    of their letter sums; it never exceeds [(n - 1) * start.length].  The
    working vertex is always a vertex of the crystal, and when the loop
    ends both stacks are empty and the working vertex is [start] again. *)
Theorem visitGLnCrystal_depth (n : Z) (start : Vertex) (k : nat) {A}
    (visit : A → Vertex → A) (a0 : A) :
  1 ≤ n → isLatticeWord start = true → vertexHeight start ≤ n →
  let run := dfs_loop k n visit (dfs_start visit a0 start) in
  length (mutStack run.2) = length (expStack run.2) ∧
  Z.of_nat (length (mutStack run.2))
    = size_of (mutVert run.2) - size_of start ∧
  Z.of_nat (length (mutStack run.2)) ≤ (n - 1) * Z.of_nat (length start) ∧
  reachable n start (mutVert run.2) ∧
  (run.1 = Halted →
   mutStack run.2 = [] ∧ expStack run.2 = [] ∧ mutVert run.2 = start).
Proof.
  intros Hn Hlw Hh run.
  pose proof (start_well_formed n start Hlw Hh) as Hwf.
  assert (run = ((dfs_loop k n push_copy (dfs_start push_copy [] start)).1,
                 replay visit a0
                   (dfs_loop k n push_copy (dfs_start push_copy [] start)).2))
    as Hrun
    by exact (dfs_loop_replay k n visit a0 (dfs_start push_copy [] start)).
  destruct (dfs_loop_inv n start k _ Hn (dfs_inv_start n start Hn))
    as [_ Hinv].
  destruct (dfs_loop k n push_copy (dfs_start push_copy [] start))
    as [s st] eqn:Hloop.
  rewrite Hrun. simpl in *.
  destruct (inv_path _ _ _ Hinv) as (verts & Hpath & _).
  destruct (path_depth _ _ _ _ _ _ _ _ Hpath) as [Hlen Hsize].
  destruct (path_top _ _ _ _ _ _ _ _ Hpath) as (_ & _ & Hvis & _).
  assert (reachable n start (mutVert st)) as Hreach.
  { pose proof (inv_reach _ _ _ Hinv) as Hall.
    rewrite Forall_forall in Hall. by apply Hall. }
  pose proof (well_formed_size _ _ _
                (reachable_well_formed _ _ _ Hwf Hreach)) as Hb1.
  pose proof (well_formed_size _ _ _ Hwf) as Hb2.
  split_and!; [done|lia|lia|done|].
  intros ->.
  destruct (dfs_loop_break _ _ _ _ _ Hloop) as (j & _ & _ & Hbr).
  destruct (dfs_step_break _ _ _ Hbr) as [_ Hms].
  rewrite Hms in Hpath. by inversion Hpath.
Qed.

Lemma visitGLnCrystal_depth_witness :
  let run := dfs_loop 7 3 push_copy (dfs_start push_copy [] [1; 1; 2]) in
  length (mutStack run.2) = length (expStack run.2) ∧
  Z.of_nat (length (mutStack run.2))
    = size_of (mutVert run.2) - size_of [1; 1; 2] ∧
  Z.of_nat (length (mutStack run.2)) ≤ (3 - 1) * Z.of_nat (length [1; 1; 2]) ∧
  reachable 3 [1; 1; 2] (mutVert run.2) ∧
  (run.1 = Halted →
   mutStack run.2 = [] ∧ expStack run.2 = [] ∧ mutVert run.2 = [1; 1; 2]).
Proof.
  apply (visitGLnCrystal_depth 3 [1; 1; 2] 7 push_copy []);
    [lia|reflexivity|]. vm_compute. discriminate.
Defined.

(** ** The earlier, breadth-first revision *)

Lemma pretty_N_go_char_free c x s :
  (∀ d, pretty_N_char d ≠ c) → char_free c s →
  char_free c (pretty_N_go x s).
Proof.
  intros Hc. revert s. induction (N.lt_wf_0 x) as [x _ IH]; intros s Hs.
  assert (x = 0 ∨ 0 < x)%N as [->|Hx] by lia.
  { by rewrite pretty_N_go_0. }
  rewrite pretty_N_go_step by done.
  apply IH; [by apply N.div_lt|]. split; [apply Hc|done].
Qed.

Lemma pretty_Z_char_free c (z : Z) :
  (∀ d, pretty_N_char d ≠ c) → c ≠ "-"%char → char_free c (pretty z).
Proof.
  intros Hc Hm.
  assert (∀ p : positive, char_free c (pretty p)) as Hpos.
  { intros p. unfold pretty, pretty_positive, pretty, pretty_N.
    destruct (decide (N.pos p = 0)%N); [done|].
    by apply pretty_N_go_char_free. }
  destruct z as [|p|p]; unfold pretty, pretty_Z.
  - split; [|done]. apply (Hc 0%N).
  - apply Hpos.
  - split; [done|]. apply Hpos.
Qed.

Lemma char_free_prefix_inj c s1 s2 r1 r2 :
  char_free c s1 → char_free c s2 →
  (r1 = "" ∨ ∃ t, r1 = String c t) →
  (r2 = "" ∨ ∃ t, r2 = String c t) →
  s1 +:+ r1 = s2 +:+ r2 → s1 = s2 ∧ r1 = r2.
Proof.
  revert s2. induction s1 as [|c1 s1 IH]; intros [|c2 s2] H1 H2 Hr1 Hr2 Heq;
    simpl in *.
  - done.
  - destruct H2 as [Hc _]. destruct Hr1 as [->|[t ->]]; [done|]. by simplify_eq.
  - destruct H1 as [Hc _]. destruct Hr2 as [->|[t ->]]; [done|]. by simplify_eq.
  - destruct H1 as [_ H1], H2 as [_ H2]. simplify_eq.
    destruct (IH s2) as [-> ->]; done.
Qed.

Lemma join_char_rest c (s : string) (l : list string) :
  ∃ r, join (String c "") (s :: l) = s +:+ r ∧
       ((r = "" ∧ l = []) ∨ (r = String c (join (String c "") l) ∧ l ≠ [])).
Proof.
  destruct l as [|s' l].
  - exists "". split; [|by left]. simpl. by rewrite append_empty_r.
  - exists (String c (join (String c "") (s' :: l))). split; [done|by right].
Qed.

Lemma join_char_inj c (l1 l2 : list string) :
  Forall (λ s, char_free c s ∧ s ≠ "") l1 →
  Forall (λ s, char_free c s ∧ s ≠ "") l2 →
  join (String c "") l1 = join (String c "") l2 → l1 = l2.
Proof.
  intros H1. revert l2. induction H1 as [|s1 l1 [Hc1 Hn1] H1 IH];
    intros l2 H2 Heq.
  - destruct H2 as [|s2 l2 [Hc2 Hn2] H2]; [done|].
    destruct (join_char_rest c s2 l2) as (r & Hr & _). rewrite Hr in Heq.
    simpl in Heq. destruct s2; [done|discriminate].
  - destruct H2 as [|s2 l2 [Hc2 Hn2] H2].
    { destruct (join_char_rest c s1 l1) as (r & Hr & _). rewrite Hr in Heq.
      simpl in Heq. destruct s1; [done|discriminate]. }
    destruct (join_char_rest c s1 l1) as (r1 & Hr1 & Hd1).
    destruct (join_char_rest c s2 l2) as (r2 & Hr2 & Hd2).
    rewrite Hr1, Hr2 in Heq.
    apply (char_free_prefix_inj c) in Heq as [-> Hr]; [|done|done|..].
    + f_equal. destruct Hd1 as [[-> ->]|[-> Hl1]], Hd2 as [[-> ->]|[-> Hl2]];
        try done.
      apply IH; [done|]. by simplify_eq.
    + destruct Hd1 as [[-> _]|[-> _]]; eauto.
    + destruct Hd2 as [[-> _]|[-> _]]; eauto.
Qed.

Lemma key_inj (v w : list Z) : BreadthFirst.key v = BreadthFirst.key w → v = w.
Proof.
  assert (∀ x : Z, char_free "|" (pretty x) ∧ pretty x ≠ "") as Hfree.
  { intros x. split; [|apply pretty_Z_comma_free].
    apply pretty_Z_char_free; [|done].
    intros d. unfold pretty_N_char. by repeat case_match. }
  unfold BreadthFirst.key. intros Heq%(join_char_inj "|").
  - revert w Heq. induction v as [|x v IH]; intros [|y w] Heq; try done.
    injection Heq as Hx Hrest.
    f_equal; [by apply (inj pretty)|by apply IH].
  - apply Forall_fmap, Forall_true. intros x. apply Hfree.
  - apply Forall_fmap, Forall_true. intros x. apply Hfree.
Qed.

Lemma hw_loop_eq p v :
  BreadthFirst.hw_loop p v = latticeWordToMaybePartition p v.
Proof.
  revert p. induction v as [|x v IH]; intros p; simpl; [done|].
  destruct (lattice_step p x); [apply IH|done].
Qed.

Lemma isLatticeWord_eq v : BreadthFirst.isLatticeWord v = isLatticeWord v.
Proof.
  unfold BreadthFirst.isLatticeWord, BreadthFirst.hwToMaybePartition,
    isLatticeWord. by rewrite hw_loop_eq.
Qed.

Lemma try_edge_collected n start crystal v sn nf i :
  collected n start sn (crystal ++ nf) → reachable n start v → 1 ≤ i < n →
  ∃ more,
    (BreadthFirst.try_edge v (sn, nf) i).2 = nf ++ more ∧
    collected n start (BreadthFirst.try_edge v (sn, nf) i).1
              (crystal ++ nf ++ more) ∧
    ∀ w, StackVersion.crystal_f i v = Some w → w ∈ crystal ++ nf ++ more.
Proof.
  intros (Hseen & Hnd & Hreach) Hv Hi. unfold BreadthFirst.try_edge. simpl.
  destruct (StackVersion.crystal_f i v) as [w|] eqn:Hf.
  2:{ exists []. rewrite !app_nil_r. by split_and!. }
  destruct (bool_decide_reflect (BreadthFirst.key w ∈ sn)) as [Hin|Hin]; simpl.
  - exists []. rewrite !app_nil_r. split_and!; [done..|].
    intros w' [= <-]. apply Hseen in Hin.
    apply list_elem_of_fmap in Hin as (w' & Hk & Hw').
    by rewrite (key_inj _ _ Hk).
  - exists [w]. split; [done|]. rewrite !app_assoc. split.
    + split_and!.
      * intros s. rewrite fmap_app, elem_of_app, elem_of_union, Hseen.
        simpl. rewrite elem_of_singleton, list_elem_of_singleton. tauto.
      * apply NoDup_app. split_and!; [done| |apply NoDup_singleton].
        intros x Hx ->%list_elem_of_singleton. apply Hin, Hseen.
        by apply list_elem_of_fmap_2.
      * apply Forall_app. split; [done|]. apply Forall_singleton.
        eapply rtc_r; [done|]. by exists i.
    + intros w' [= <-]. apply elem_of_app. right. by apply list_elem_of_singleton.
Qed.

Lemma edges_collected n start crystal v (ops : list Z) sn nf :
  Forall (λ i, 1 ≤ i < n) ops →
  collected n start sn (crystal ++ nf) → reachable n start v →
  ∃ more,
    (foldl (BreadthFirst.try_edge v) (sn, nf) ops).2 = nf ++ more ∧
    collected n start (foldl (BreadthFirst.try_edge v) (sn, nf) ops).1
              (crystal ++ nf ++ more) ∧
    ∀ i w, i ∈ ops → StackVersion.crystal_f i v = Some w →
           w ∈ crystal ++ nf ++ more.
Proof.
  intros Hops. revert sn nf.
  induction Hops as [|i ops Hi _ IH]; intros sn nf Hcol Hv; simpl.
  { exists []. rewrite !app_nil_r. split_and!; [done..|].
    by intros i w ?%elem_of_nil. }
  destruct (try_edge_collected n start crystal v sn nf i Hcol Hv Hi)
    as (more1 & Hnf1 & Hcol1 & Hexp1).
  destruct (BreadthFirst.try_edge v (sn, nf) i) as [sn1 nf1]. simpl in *.
  subst nf1.
  destruct (IH sn1 (nf ++ more1) Hcol1 Hv) as (more2 & Hnf2 & Hcol2 & Hexp2).
  exists (more1 ++ more2). rewrite Hnf2, <- !app_assoc in *.
  split_and!; [done..|].
  intros j w [->|Hj]%elem_of_cons Hf; [|by eapply Hexp2].
  specialize (Hexp1 w Hf). rewrite !elem_of_app in *. tauto.
Qed.

Lemma frontier_collected n start crystal (vs : list Vertex) sn nf :
  Forall (reachable n start) vs →
  collected n start sn (crystal ++ nf) →
  let new := foldl (λ acc v, foldl (BreadthFirst.try_edge v) acc
                               (seqZ 1 (n - 1))) (sn, nf) vs in
  ∃ more,
    new.2 = nf ++ more ∧
    collected n start new.1 (crystal ++ nf ++ more) ∧
    ∀ v, v ∈ vs → expanded (crystal ++ nf ++ more) v n.
Proof.
  intros Hvs. revert sn nf.
  induction Hvs as [|v vs Hv _ IH]; intros sn nf Hcol; simpl.
  { exists []. rewrite !app_nil_r. split_and!; [done..|].
    by intros v ?%elem_of_nil. }
  destruct (edges_collected n start crystal v (seqZ 1 (n - 1)) sn nf)
    as (more1 & Hnf1 & Hcol1 & Hexp1); [|done..|].
  { apply Forall_forall. intros i Hi%elem_of_seqZ. lia. }
  destruct (foldl (BreadthFirst.try_edge v) (sn, nf) (seqZ 1 (n - 1)))
    as [sn1 nf1]. simpl in *. subst nf1.
  destruct (IH sn1 (nf ++ more1) Hcol1) as (more2 & Hnf2 & Hcol2 & Hexp2).
  exists (more1 ++ more2). rewrite Hnf2, <- !app_assoc in *.
  split_and!; [done..|].
  intros u [->|Hu]%elem_of_cons; [|by apply Hexp2].
  intros i w Hi Hf.
  assert (w ∈ crystal ++ nf ++ more1) as Hw.
  { apply (Hexp1 i w); [|done]. apply elem_of_seqZ. lia. }
  rewrite !elem_of_app in *. tauto.
Qed.

Lemma bfs_round_inv n start crystal seen frontier :
  bfs_inv n start crystal seen frontier →
  bfs_inv n start
    (crystal ++ (BreadthFirst.expand_frontier n frontier seen).2)
    (BreadthFirst.expand_frontier n frontier seen).1
    (BreadthFirst.expand_frontier n frontier seen).2.
Proof.
  intros (Hcol & Hhead & Hfr & Hexp). unfold BreadthFirst.expand_frontier.
  destruct (frontier_collected n start crystal frontier seen [])
    as (more & Hnf & Hcol' & Hexp').
  { destruct Hcol as (_ & _ & Hreach). rewrite Forall_forall in Hreach.
    apply Forall_forall. auto. }
  { by rewrite app_nil_r. }
  simpl in *. rewrite Hnf. split_and!.
  - done.
  - by destruct crystal.
  - intros v Hv. apply elem_of_app. by right.
  - intros w [Hw|Hw]%elem_of_app; [|by left]. right.
    destruct (Hexp w Hw) as [Hin|Hdone]; [by apply Hexp'|].
    eapply expanded_mono; [|done]. intros x Hx. apply elem_of_app. by left.
Qed.

Lemma bfs_loop_stable k k' n crystal seen frontier r :
  BreadthFirst.bfs_loop k n crystal seen frontier = Ret r → (k ≤ k')%nat →
  BreadthFirst.bfs_loop k' n crystal seen frontier = Ret r.
Proof.
  revert k' crystal seen frontier.
  induction k as [|k IH]; intros k' crystal seen frontier Hrun Hk.
  - destruct frontier; [|done]. by destruct k'.
  - destruct k' as [|k']; [lia|]. destruct frontier; [done|].
    simpl in *. apply IH; [done|lia].
Qed.

Lemma bfs_loop_returns n start fuel crystal seen frontier :
  well_formed n (length start) start →
  bfs_inv n start crystal seen frontier →
  frontier = [] ∨
    (length (words n (length start)) + 1 ≤ fuel + length crystal)%nat →
  ∃ vs sn, BreadthFirst.bfs_loop fuel n crystal seen frontier = Ret vs ∧
           bfs_inv n start vs sn [].
Proof.
  intros Hwf. revert crystal seen frontier.
  induction fuel as [|fuel IH]; intros crystal seen frontier Hinv Hfuel.
  - assert (length crystal ≤ length (words n (length start)))%nat.
    { destruct Hinv as ((_ & Hnd & Hreach) & _).
      apply visited_bound; [done|].
      eapply Forall_impl; [done|]. intros v Hv.
      by apply (reachable_well_formed n start). }
    destruct Hfuel as [->|?]; [|lia]. by exists crystal, seen.
  - destruct frontier as [|v frontier]; [by exists crystal, seen|].
    pose proof (bfs_round_inv n start crystal seen (v :: frontier) Hinv)
      as Hinv'.
    simpl. apply IH; [done|].
    destruct (BreadthFirst.expand_frontier n (v :: frontier) seen).2; [by left|].
    right. destruct Hfuel as [?|Hfuel]; [done|].
    rewrite length_app. simpl. lia.
Qed.

Lemma bfs_expand n start :
  isLatticeWord start = true → vertexHeight start ≤ n →
  ∃ k vs, NoDup vs ∧ (∀ v, v ∈ vs ↔ reachable n start v) ∧
    head vs = Some start ∧
    ∀ k', (k ≤ k')%nat → BreadthFirst.expandInGL k' n start = Ret vs.
Proof.
  intros Hlw Hh.
  pose proof (start_well_formed n start Hlw Hh) as Hwf.
  assert (bfs_inv n start [start] {[BreadthFirst.key start]} [start]) as Hinv.
  { split_and!; [split_and!| | |].
    - intros s. simpl. by rewrite elem_of_singleton, list_elem_of_singleton.
    - apply NoDup_singleton.
    - apply Forall_singleton. apply rtc_refl.
    - done.
    - done.
    - intros w Hw. by left. }
  destruct (bfs_loop_returns n start (length (words n (length start)))
              _ _ _ Hwf Hinv) as (vs & sn & Hrun & Hfin).
  { right. simpl. lia. }
  destruct Hfin as ((_ & Hnd & Hreach) & Hhead & _ & Hexp).
  exists (length (words n (length start))), vs. split_and!; [done| |done|].
  - intros v. split.
    + rewrite Forall_forall in Hreach. apply Hreach.
    + apply closed_reachable.
      * destruct vs; [done|]. injection Hhead as ->. apply list_elem_of_here.
      * intros w Hw. destruct (Hexp w Hw) as [?%elem_of_nil|]; done.
  - intros k' Hk. unfold BreadthFirst.expandInGL.
    rewrite isLatticeWord_eq, Hlw. simpl.
    destruct (Z.leb_spec (vertexHeight start) n); [|lia]. simpl.
    by apply (bfs_loop_stable (length (words n (length start)))).
Qed.

Lemma foldl_push_copy (acc vs : list Vertex) :
  foldl push_copy acc vs = acc ++ vs.
Proof.
  revert acc. induction vs as [|v vs IH]; intros acc; simpl.
  { by rewrite app_nil_r. }
  rewrite IH. unfold push_copy. by rewrite <- app_assoc.
Qed.

(** X17: the breadth-first [expandInGL] of the earlier revision.  For a
    valid start (and any [n], also [n <= 0], where the depth-first loop
    does not end) it returns, once enough rounds are allowed, a list
    without repetition of exactly the vertices reachable from [start],
    which begins with [start]; for [n >= 1] the depth-first [expandInGL]
    returns a permutation of that list. *)
Theorem breadth_first_expandInGL (n : Z) (start : Vertex) :
  isLatticeWord start = true → vertexHeight start ≤ n →
  ∃ k vs, NoDup vs ∧ (∀ v, v ∈ vs ↔ reachable n start v) ∧
    head vs = Some start ∧
    (∀ k', (k ≤ k')%nat → BreadthFirst.expandInGL k' n start = Ret vs) ∧
    (1 ≤ n → ∃ vs', vs ≡ₚ vs' ∧
       ∀ k', (k ≤ k')%nat → expandInGL k' n start = Ret vs').
Proof.
  intros Hlw Hh.
  destruct (bfs_expand n start Hlw Hh) as (k1 & vs & Hnd & Hall & Hhead & Hrun).
  destruct (decide (1 ≤ n)) as [Hn|Hn].
  - destruct (traversal_returns n start Hn Hlw Hh)
      as (k2 & vs' & Hnd' & Hall' & Hrun').
    exists (k1 `max` k2)%nat, vs. split_and!; [done..| |].
    + intros k' Hk. apply Hrun. lia.
    + intros _. exists vs'. split.
      * apply NoDup_Permutation; [done..|]. intros v. by rewrite Hall, Hall'.
      * intros k' Hk. unfold expandInGL. rewrite Hrun' by lia.
        by rewrite foldl_push_copy.
  - exists k1, vs. split_and!; [done..|]. intros; lia.
Qed.

Lemma breadth_first_expandInGL_witness :
  ∃ k vs, NoDup vs ∧ (∀ v, v ∈ vs ↔ reachable 3 [1; 1; 2] v) ∧
    head vs = Some [1; 1; 2] ∧
    (∀ k', (k ≤ k')%nat → BreadthFirst.expandInGL k' 3 [1; 1; 2] = Ret vs) ∧
    (1 ≤ 3 → ∃ vs', vs ≡ₚ vs' ∧
       ∀ k', (k ≤ k')%nat → expandInGL k' 3 [1; 1; 2] = Ret vs').
Proof.
  apply (breadth_first_expandInGL 3 [1; 1; 2]); [reflexivity|].
  vm_compute. discriminate.
Defined.

Example breadth_first_tests :
  BreadthFirst.expandInGL 5 3 [1; 1; 2]
    = Ret [[1; 1; 2]; [2; 1; 2]; [1; 1; 3]; [3; 1; 2]; [2; 1; 3];
           [3; 1; 3]; [2; 2; 3]; [3; 2; 3]] ∧
  BreadthFirst.expandInGL 1 0 [] = Ret [[]] ∧
  BreadthFirst.tensorPartitions 10 3 [2; 1] [1]
    = Ret [[3; 1]; [2; 2]; [2; 1; 1]].
Proof. repeat split; by vm_compute. Qed.

Lemma tensorHw_acc v acc cs :
  foldl (λ result c,
           let tensorElem := v ++ c in
           if BreadthFirst.isLatticeWord tensorElem
           then result ++ [tensorElem] else result) acc cs =
  acc ++ filter (λ w, isLatticeWord w = true) ((v ++.) <$> cs).
Proof.
  revert acc. induction cs as [|c cs IH]; intros acc; simpl.
  { by rewrite app_nil_r. }
  rewrite IH, isLatticeWord_eq, filter_cons.
  destruct (decide (isLatticeWord (v ++ c) = true)) as [->|Hc].
  - by rewrite <- app_assoc.
  - by destruct (isLatticeWord (v ++ c)).
Qed.

Lemma hwToPartition_lattice (ws : list Vertex) :
  map_outcome BreadthFirst.hwToPartition
    (filter (λ w, isLatticeWord w = true) ws)
  = Ret (omap (latticeWordToMaybePartition []) ws).
Proof.
  induction ws as [|w ws IH]; [done|]. rewrite filter_cons.
  destruct (decide (isLatticeWord w = true)) as [Hw|Hw]; simpl.
  - apply bool_decide_eq_true in Hw as [r Hw].
    unfold BreadthFirst.hwToPartition at 1, BreadthFirst.hwToMaybePartition.
    rewrite hw_loop_eq, Hw. simpl. by rewrite IH.
  - destruct (latticeWordToMaybePartition [] w) as [r|] eqn:Hr; [|done].
    destruct Hw. unfold isLatticeWord. apply bool_decide_eq_true.
    by rewrite Hr.
Qed.

Lemma tensorHw_partitions left cs :
  isPartition left = true →
  map_outcome BreadthFirst.hwToPartition
    (BreadthFirst.tensorHwWithCrystal (hw_rows 0 left) cs)
  = Ret (omap (latticeWordToMaybePartition left) cs).
Proof.
  intros Hp. unfold BreadthFirst.tensorHwWithCrystal.
  rewrite tensorHw_acc, app_nil_l, hwToPartition_lattice. f_equal.
  induction cs as [|c cs IH]; [done|].
  change (omap (latticeWordToMaybePartition [])
            ((hw_rows 0 left ++.) <$> c :: cs))
    with (match latticeWordToMaybePartition [] (hw_rows 0 left ++ c) with
          | Some r => r :: omap (latticeWordToMaybePartition [])
                             ((hw_rows 0 left ++.) <$> cs)
          | None => omap (latticeWordToMaybePartition [])
                      ((hw_rows 0 left ++.) <$> cs)
          end).
  by rewrite IH, latticeWord_from_partition.
Qed.

Lemma bfs_loop_no_throw fuel n crystal seen frontier msg :
  BreadthFirst.bfs_loop fuel n crystal seen frontier ≠ Throw msg.
Proof.
  revert crystal seen frontier.
  induction fuel as [|fuel IH]; intros crystal seen [|v frontier]; try done.
  simpl. apply IH.
Qed.

(** X18: the two revisions of [tensorPartitions] agree.  They throw on the
    same arguments, with the same message; and for [n >= 2] and valid
    partitions with at most [n] rows both return once enough iterations
    are allowed, the breadth-first revision the same partitions as the
    depth-first one, with the same multiplicities, in another order. *)
Theorem tensorPartitions_revisions_agree (n : Z) (p q : Partition) :
  (∀ fuel msg, BreadthFirst.tensorPartitions fuel n p q = Throw msg ↔
               tensorPartitions fuel n p q = Throw msg) ∧
  (2 ≤ n → isPartition p = true → isPartition q = true →
   Z.of_nat (length p) ≤ n → Z.of_nat (length q) ≤ n →
   ∃ k old new, old ≡ₚ new ∧
     ∀ k', (k ≤ k')%nat →
       BreadthFirst.tensorPartitions k' n p q = Ret old ∧
       tensorPartitions k' n p q = Ret new).
Proof.
  assert (∀ left right, isPartition left = true → isPartition right = true →
            (∀ fuel msg,
               (v1 ←! partitionToHw left;
                v2 ←! partitionToHw right;
                crystal2 ←! BreadthFirst.expandInGL fuel n v2;
                map_outcome BreadthFirst.hwToPartition
                  (BreadthFirst.tensorHwWithCrystal v1 crystal2)) = Throw msg ↔
               (start ←! partitionToHw right;
                visitGLnCrystal fuel n start (push_if_lattice left) [])
               = Throw msg) ∧
            (1 ≤ n → Z.of_nat (length right) ≤ n →
             ∃ k old new, old ≡ₚ new ∧
               ∀ k', (k ≤ k')%nat →
                 (v1 ←! partitionToHw left;
                  v2 ←! partitionToHw right;
                  crystal2 ←! BreadthFirst.expandInGL k' n v2;
                  map_outcome BreadthFirst.hwToPartition
                    (BreadthFirst.tensorHwWithCrystal v1 crystal2)) = Ret old ∧
                 (start ←! partitionToHw right;
                  visitGLnCrystal k' n start (push_if_lattice left) [])
                 = Ret new)) as Htail.
  { intros left right Hl Hr. unfold partitionToHw. rewrite Hl, Hr. simpl.
    pose proof (hw_rows_lattice right Hr) as Hlw.
    pose proof (hw_rows_height right Hr) as Hh.
    split.
    - intros fuel msg.
      unfold BreadthFirst.expandInGL, visitGLnCrystal.
      rewrite isLatticeWord_eq, Hlw. simpl.
      destruct (vertexHeight (hw_rows 0 right) <=? n); simpl; [|done].
      split.
      + destruct (BreadthFirst.bfs_loop _ _ _ _ _) as [cs| | |] eqn:Hrun;
          simpl; try done.
        * by rewrite tensorHw_partitions.
        * intros [= ->]. by apply bfs_loop_no_throw in Hrun.
      + by destruct (dfs_loop _ _ _ _) as [[] ?].
    - intros Hn Hrows.
      destruct (bfs_expand n (hw_rows 0 right) Hlw) as
        (k1 & vs & Hnd & Hall & _ & Hrun); [lia|].
      destruct (traversal_returns n (hw_rows 0 right) Hn Hlw) as
        (k2 & vs' & Hnd' & Hall' & Hrun'); [lia|].
      exists (k1 `max` k2)%nat,
        (omap (latticeWordToMaybePartition left) vs),
        (omap (latticeWordToMaybePartition left) vs').
      split.
      + apply omap_Permutation, NoDup_Permutation; [done..|].
        intros v. by rewrite Hall, Hall'.
      + intros k' Hk. rewrite Hrun, Hrun' by lia. simpl.
        rewrite tensorHw_partitions by done. split; [done|].
        by rewrite (push_if_lattice_omap left [] vs'). }
  unfold BreadthFirst.tensorPartitions, tensorPartitions.
  destruct (isPartition p) eqn:Hp, (isPartition q) eqn:Hq;
    rewrite ?andb_false_r; simpl.
  2-4: split; [done|]; intros; done.
  unfold dimensionInGL. rewrite Hp, Hq. simpl.
  destruct (Z.leb_spec 2 n) as [Hn|Hn]; simpl.
  2:{ split; [done|]. intros; lia. }
  destruct (num_lt _ _).
  - destruct (Htail q p Hq Hp) as [Hthrow Hret]. split; [done|].
    intros _ _ _ Hrp Hrq. apply Hret; lia.
  - destruct (Htail p q Hp Hq) as [Hthrow Hret]. split; [done|].
    intros _ _ _ Hrp Hrq. apply Hret; lia.
Qed.

Lemma tensorPartitions_revisions_agree_witness :
  ∃ k old new, old ≡ₚ new ∧
    ∀ k', (k ≤ k')%nat →
      BreadthFirst.tensorPartitions k' 3 [2; 1] [1] = Ret old ∧
      tensorPartitions k' 3 [2; 1] [1] = Ret new.
Proof.
  apply (proj2 (tensorPartitions_revisions_agree 3 [2; 1] [1]));
    [lia|reflexivity|reflexivity|simpl; lia|simpl; lia].
Defined.

(** ** Distributivity *)

Lemma weighted_cons g t l :
  weighted g (t :: l) = mult t * g (part t) + weighted g l.
Proof. done. Qed.

Lemma weighted_app g l1 l2 :
  weighted g (l1 ++ l2) = weighted g l1 + weighted g l2.
Proof.
  induction l1 as [|t l1 IH]; [done|].
  change ((t :: l1) ++ l2) with (t :: (l1 ++ l2)).
  rewrite !weighted_cons, IH. lia.
Qed.

Lemma weighted_perm g l1 l2 : l1 ≡ₚ l2 → weighted g l1 = weighted g l2.
Proof. unfold weighted. induction 1; simpl; lia. Qed.

Lemma weighted_plus g1 g2 l :
  weighted (λ q, g1 q + g2 q) l = weighted g1 l + weighted g2 l.
Proof.
  induction l as [|t l IH]; [done|]. rewrite !weighted_cons, IH. lia.
Qed.

Lemma weighted_ext g1 g2 l :
  (∀ t, t ∈ l → g1 (part t) = g2 (part t)) → weighted g1 l = weighted g2 l.
Proof.
  induction l as [|t l IH]; intros Hg; [done|].
  rewrite !weighted_cons, IH, (Hg t); [done|apply list_elem_of_here|].
  intros t' Ht'. apply Hg. by apply list_elem_of_further.
Qed.

Lemma weighted_normalise_step g result t :
  weighted g (normalise_step result t) =
  weighted g result + mult t * g (part t).
Proof.
  unfold normalise_step. destruct (Z.eqb_spec (mult t) 0) as [Hz|Hz].
  { rewrite Hz. lia. }
  destruct result as [|lst rest]; [by rewrite !weighted_cons; simpl; lia|].
  destruct (compareLists (part lst) (part t)) eqn:Hc;
    try (rewrite !weighted_cons; simpl; lia).
  apply compareLists_Zero in Hc.
  destruct (Z.eqb_spec (mult lst + mult t) 0);
    rewrite !weighted_cons; simpl; rewrite <- ?Hc; nia.
Qed.

Lemma weighted_normalise g l : weighted g (algebraNormalise l) = weighted g l.
Proof.
  unfold algebraNormalise.
  rewrite (weighted_perm g _ _ (reverse_Permutation _)).
  rewrite <- (weighted_perm g _ _ (sort_desc_perm l)).
  assert (∀ s result, weighted g (foldl normalise_step result s) =
                      weighted g result + weighted g s) as Hloop.
  { induction s as [|t s IH]; intros result; cbn [foldl].
    - unfold weighted at 3. simpl. lia.
    - rewrite IH, weighted_normalise_step, weighted_cons. lia. }
  by rewrite Hloop.
Qed.

Lemma mul_terms_parts k type t1 t2 :
  mul_terms k type t1 t2 =
  (ps ←! product_parts k type (part t1) (part t2);
   Ret ((λ q, Term q (mult t1 * mult t2)) <$> ps)).
Proof.
  unfold mul_terms, product_parts.
  destruct (length (part t1) =? 0)%nat; [done|].
  by destruct (length (part t2) =? 0)%nat.
Qed.

Lemma coefficient_pushed p m (ps : list Partition) :
  coefficient p ((λ q, Term q m) <$> ps) =
  m * Z.of_nat (length (filter (λ q, q = p) ps)).
Proof.
  induction ps as [|q ps IH]; [rewrite fmap_nil, coefficient_nil; simpl; lia|].
  rewrite fmap_cons, coefficient_cons, IH, filter_cons. simpl.
  destruct (decide (q = p)); simpl; lia.
Qed.

Lemma mul_inner_coefficient k type t1 lin product product' p :
  mul_inner k type t1 lin product = Ret product' →
  coefficient p product' =
  coefficient p product +
  mult t1 * weighted (structure_constant k type p (part t1)) lin.
Proof.
  revert product. induction lin as [|t2 lin IH]; intros product;
    cbn [mul_inner].
  { intros [= <-]. unfold weighted. simpl. lia. }
  rewrite mul_terms_parts, weighted_cons. unfold structure_constant at 1.
  destruct (product_parts k type (part t1) (part t2)) as [ps| | |]; try done.
  simpl. intros Hrun. rewrite (IH _ Hrun), coefficient_app.
  rewrite coefficient_pushed. lia.
Qed.

Lemma mul_inner_defined k type t1 lin product :
  (∃ r, mul_inner k type t1 lin product = Ret r) ↔
  defined_on k type (part t1) lin.
Proof.
  unfold defined_on. revert product.
  induction lin as [|t2 lin IH]; intros product; simpl.
  { split; [constructor|by eexists]. }
  rewrite mul_terms_parts, Forall_cons.
  destruct (product_parts k type (part t1) (part t2)) as [ps| | |]; simpl.
  - rewrite IH. split; [by eauto|tauto].
  - split; [by intros [? ?]|by intros [[? ?] _]].
  - split; [by intros [? ?]|by intros [[? ?] _]].
  - split; [by intros [? ?]|by intros [[? ?] _]].
Qed.

Lemma mul_outer_coefficient k type sofar lin product product' p :
  mul_outer k type sofar lin product = Ret product' →
  coefficient p product' =
  coefficient p product +
  weighted (λ p1, weighted (structure_constant k type p p1) lin) sofar.
Proof.
  revert product. induction sofar as [|t1 sofar IH]; intros product;
    cbn [mul_outer].
  { intros [= <-]. unfold weighted. simpl. lia. }
  rewrite weighted_cons.
  destruct (mul_inner k type t1 lin product) as [mid| | |] eqn:Hin; try done.
  simpl. intros Hrun.
  rewrite (IH _ Hrun), (mul_inner_coefficient _ _ _ _ _ _ p Hin). lia.
Qed.

Lemma mul_outer_defined k type sofar lin product :
  (∃ r, mul_outer k type sofar lin product = Ret r) ↔
  Forall (λ t1, defined_on k type (part t1) lin) sofar.
Proof.
  revert product. induction sofar as [|t1 sofar IH]; intros product; simpl.
  { split; [constructor|by eexists]. }
  rewrite Forall_cons, <- (mul_inner_defined k type t1 lin product).
  destruct (mul_inner k type t1 lin product) as [mid| | |]; simpl.
  - rewrite IH. split; [by eauto|tauto].
  - split; [by intros [? ?]|by intros [[? ?] _]].
  - split; [by intros [? ?]|by intros [[? ?] _]].
  - split; [by intros [? ?]|by intros [[? ?] _]].
Qed.

Lemma algebraMul_pair k type a c r :
  algebraMul k type [a; c] = Ret r ↔
  ∃ product, mul_outer k type a c [] = Ret product ∧
             r = algebraNormalise product.
Proof.
  simpl. destruct (mul_outer k type a c []) as [product| | |]; simpl.
  - split; [intros [= <-]; by eexists|by intros (? & [= <-] & ->)].
  - split; [done|by intros (? & ? & _)].
  - split; [done|by intros (? & ? & _)].
  - split; [done|by intros (? & ? & _)].
Qed.

Lemma algebraMul_pair_coefficient k type a c r p :
  algebraMul k type [a; c] = Ret r →
  coefficient p r =
  weighted (λ p1, weighted (structure_constant k type p p1) c) a.
Proof.
  intros (product & Hrun & ->)%algebraMul_pair.
  rewrite algebraNormalise_coefficient,
    (mul_outer_coefficient _ _ _ _ _ _ p Hrun), coefficient_nil. lia.
Qed.

Lemma algebraMul_pair_defined k type a c :
  (∃ r, algebraMul k type [a; c] = Ret r) ↔
  Forall (λ t1, defined_on k type (part t1) c) a.
Proof.
  rewrite <- (mul_outer_defined k type a c []). split.
  - intros [r (product & Hrun & _)%algebraMul_pair]. by eexists.
  - intros [product Hrun]. exists (algebraNormalise product).
    apply algebraMul_pair. by eexists.
Qed.

(** ** Evaluation of the postfix form *)

Lemma safe_bind {A B} (E : string → Prop) (P : A → Prop) (Q : B → Prop)
    (o : outcome A) (k : A → outcome B) :
  safe E P o → (∀ a, P a → safe E Q (k a)) → safe E Q (bind o k).
Proof. destruct o; simpl; auto. Qed.

Lemma safe_mono {A} (E E' : string → Prop) (P P' : A → Prop) o :
  safe E P o → (∀ m, E m → E' m) → (∀ a, P a → P' a) → safe E' P' o.
Proof. destruct o; simpl; auto. Qed.

Lemma tensorPartitions_safe k n p q :
  2 ≤ n → isPartition p = true → isPartition q = true →
  Z.of_nat (length p) ≤ n → Z.of_nat (length q) ≤ n →
  safe (λ _, False)
       (Forall (λ r, isPartition r = true ∧ Z.of_nat (length r) ≤ n))
       (tensorPartitions k n p q).
Proof.
  intros Hn Hp Hq Hpn Hqn.
  assert (∀ left right,
            isPartition left = true → isPartition right = true →
            Z.of_nat (length left) ≤ n → Z.of_nat (length right) ≤ n →
            safe (λ _, False)
              (Forall (λ r, isPartition r = true ∧ Z.of_nat (length r) ≤ n))
              (visitGLnCrystal k n (hw_rows 0 right)
                 (push_if_lattice left) [])) as Hvisit.
  { intros left right Hl Hr Hln Hrn.
    pose proof (hw_rows_lattice right Hr) as Hlw.
    pose proof (hw_rows_height right Hr) as Hh.
    rewrite visitGLnCrystal_run by (done || lia).
    destruct (traversal_cost n (hw_rows 0 right))
      as (st & _ & Hall & _ & _ & _ & Hcost); [lia| |].
    { apply start_well_formed; [done|lia]. }
    specialize (Hcost k). destruct (decide _).
    - rewrite Hcost. simpl. rewrite push_if_lattice_omap. simpl.
      apply Forall_forall. intros r (v & Hv%Hall & Hr')%list_elem_of_omap.
      by destruct (tensor_term n left right v r) as (? & _ & ?); [lia|..].
    - destruct (dfs_loop k n push_copy _) as [s st']. simpl in Hcost.
      by rewrite Hcost. }
  unfold tensorPartitions, dimensionInGL, partitionToHw. rewrite Hp, Hq.
  destruct (Z.leb_spec 2 n); [|lia]. simpl.
  destruct (num_lt _ _); simpl.
  - rewrite Hp. simpl. by apply Hvisit.
  - rewrite Hq. simpl. by apply Hvisit.
Qed.

Lemma mul_terms_safe k type t1 t2 :
  valid_type type → fits type (part t1) → fits type (part t2) →
  safe (λ _, False) (Forall (λ t, fits type (part t)))
       (mul_terms k type t1 t2).
Proof.
  intros Hty [Hp1 Hn1] [Hp2 Hn2]. unfold mul_terms.
  destruct (part t1) as [|x1 p1] eqn:E1; simpl.
  { by repeat constructor. }
  destruct (part t2) as [|x2 p2] eqn:E2; simpl.
  { by repeat constructor. }
  set (n' := AlgebraType.tensorIn type (x1 :: p1) (x2 :: p2)).
  assert (2 ≤ n' ∧ Z.of_nat (length (x1 :: p1)) ≤ n' ∧
          Z.of_nat (length (x2 :: p2)) ≤ n' ∧
          (AlgebraType.algebra type = "gl" → n' = AlgebraType.n type))
    as (Hn' & Hl1 & Hl2 & Hgl).
  { unfold n', AlgebraType.tensorIn.
    destruct (valid_type_cases type Hty) as [Hs|[Hg ?]].
    - rewrite Hs. simpl. split_and!; try lia. discriminate.
    - rewrite Hg. simpl. split_and!; auto. }
  eapply safe_bind; [by apply (tensorPartitions_safe k n')|].
  intros parts Hparts. simpl.
  apply Forall_fmap. eapply Forall_impl; [done|].
  intros r [Hr Hrn]. split; [done|]. intros Hg. simpl.
  rewrite <- (Hgl Hg). done.
Qed.

Lemma mul_inner_safe k type t1 lin product :
  valid_type type → fits type (part t1) →
  Forall (λ t, fits type (part t)) lin →
  Forall (λ t, fits type (part t)) product →
  safe (λ _, False) (Forall (λ t, fits type (part t)))
       (mul_inner k type t1 lin product).
Proof.
  intros Hty H1 Hlin. revert product.
  induction Hlin as [|t2 lin H2 _ IH]; intros product Hprod; simpl; [done|].
  eapply safe_bind; [by apply mul_terms_safe|].
  intros pushed Hpushed. apply IH. by apply Forall_app.
Qed.

Lemma mul_outer_safe k type sofar lin product :
  valid_type type → Forall (λ t, fits type (part t)) sofar →
  Forall (λ t, fits type (part t)) lin →
  Forall (λ t, fits type (part t)) product →
  safe (λ _, False) (Forall (λ t, fits type (part t)))
       (mul_outer k type sofar lin product).
Proof.
  intros Hty Hsofar Hlin. revert product.
  induction Hsofar as [|t1 sofar H1 _ IH]; intros product Hprod; simpl;
    [done|].
  eapply safe_bind; [by apply mul_inner_safe|]. apply IH.
Qed.

Lemma algebraMul_safe k type lins :
  valid_type type → Forall (Forall (λ t, fits type (part t))) lins →
  safe (λ _, False) (Forall (λ t, fits type (part t)))
       (algebraMul k type lins).
Proof.
  intros Hty Hlins. destruct Hlins as [|first rest Hfirst Hrest]; simpl.
  { repeat constructor. intros Hg. simpl.
    destruct (valid_type_cases type Hty) as [Hs|[_ ?]]; [congruence|lia]. }
  revert first Hfirst. induction Hrest as [|lin rest Hlin _ IH];
    intros first Hfirst; simpl; [done|].
  eapply safe_bind; [by apply mul_outer_safe|].
  intros product Hprod. apply IH.
  by apply (normalise_parts (fits type)).
Qed.

Lemma algebraPow_safe max_spread k type lin pow :
  valid_type type → Forall (λ t, fits type (part t)) lin →
  safe (λ m, m = "Invalid array length" ∨
             m = "Maximum call stack size exceeded")
       (Forall (λ t, fits type (part t)))
       (algebraPow max_spread k type lin pow).
Proof.
  intros Hty Hlin. unfold algebraPow.
  destruct (pow =? 0).
  { apply (algebraMul_safe 0 type [] Hty). constructor. }
  destruct (_ || _); [by left|].
  destruct (max_spread <? pow); [by right|].
  eapply safe_mono; [apply algebraMul_safe; [done|]|done..].
  by apply Forall_replicate.
Qed.

Lemma restrict_fits type lin :
  valid_type type → Forall (λ t, isPartition (part t) = true) lin →
  Forall (λ t, fits type (part t)) (AlgebraType.restrict type lin).
Proof.
  intros Hty Hlin. unfold AlgebraType.restrict, fits.
  destruct (valid_type_cases type Hty) as [Hs|[Hg Hn]].
  - rewrite Hs. simpl. eapply Forall_impl; [done|].
    intros t Ht. by split.
  - rewrite Hg. simpl.
    destruct (filter _ lin) as [|t r] eqn:Hf; cbn [length Nat.eqb].
    { repeat constructor. simpl. lia. }
    rewrite <- Hf. apply Forall_forall.
    intros t' [Hrows Ht']%list_elem_of_filter.
    rewrite Forall_forall in Hlin. split; [by apply Hlin|done].
Qed.

(** X20: no assertion fails during evaluation.  For the symmetric algebra
    or a GL(n) made by [AlgebraType.GL], and for any list of items whose
    arrays are partitions (as [toRPN] checks before it emits one), also one
    that is not a well-formed postfix form, [evaluate] returns a
    [ParseError], or a linear combination whose partitions are valid (with
    at most [n] rows in GL(n)), or is still running when the iterations
    allowed are used up; the only [Error]s it can throw are the two of
    [algebraPow]: the one of [Array(pow)] for an exponent that is not an
    array length, and the one of the call for an exponent above what the
    engine can spread into it. *)
Theorem evaluate_safe (max_spread : Z) (fuel : nat) (type : AlgebraType.t)
    (str_length : Z) (rpnResult : ParseError.t + list Item.t) :
  valid_type type →
  (∀ items, rpnResult = inr items →
     Forall (λ it, ∀ nums, Item.item it = Item.Arr nums →
                           isPartition nums = true) items) →
  match evaluate max_spread fuel type str_length rpnResult with
  | Ret (inl err) => True
  | Ret (inr lin) => Forall (λ t, fits type (part t)) lin
  | Throw m => m = "Invalid array length" ∨
               m = "Maximum call stack size exceeded"
  | Timeout => True
  | Fault => False
  end.
Proof.
  intros Hty Hitems.
  change (safe (λ m, m = "Invalid array length" ∨
                     m = "Maximum call stack size exceeded")
            (λ r, match r with
                  | inl _ => True
                  | inr lin => Forall (λ t, fits type (part t)) lin
                  end)
            (evaluate max_spread fuel type str_length rpnResult)).
  destruct rpnResult as [err|items]; [done|]. simpl.
  specialize (Hitems items eq_refl).
  assert (Forall (Forall (λ t, fits type (part t))) (@nil Linear)) as Hstack
    by constructor.
  revert Hstack. generalize (@nil Linear).
  induction Hitems as [|it items Hit _ IH]; intros stack Hstack;
    cbn [evaluate_loop].
  { destruct Hstack as [|result stack Hresult Hstack]; [done|].
    by destruct stack. }
  destruct (Item.item it) as [num|nums|op] eqn:Hitem.
  - apply IH. constructor; [|done]. repeat constructor. simpl.
    destruct (valid_type_cases type Hty) as [Hs|[_ ?]]; [congruence|lia].
  - unfold algebraPart. rewrite (Hit nums eq_refl). simpl.
    apply IH. constructor; [|done].
    apply restrict_fits; [done|]. repeat constructor. simpl. by apply Hit.
  - destruct Hstack as [|rightArg stack Hright Hstack]; [done|].
    destruct Hstack as [|leftArg stack Hleft Hstack]; [done|].
    destruct (String.eqb op "+").
    { apply IH. constructor; [|done]. unfold algebraAdd.
      apply (normalise_parts (fits type)). simpl. rewrite app_nil_r.
      by apply Forall_app. }
    destruct (String.eqb op "*").
    { eapply safe_bind.
      - eapply safe_mono;
          [apply (algebraMul_safe fuel type [leftArg; rightArg]); [done|]|..].
        + by repeat constructor.
        + done.
        + intros a Ha. exact Ha.
      - intros product Hproduct. apply IH. by constructor. }
    destruct (String.eqb op "^"); [|by apply IH].
    destruct Hright as [|exponent rest _ Hrest]; [done|].
    destruct Hrest; [|done].
    destruct (0 <? length (part exponent))%nat; [done|].
    eapply safe_bind; [by apply algebraPow_safe|].
    intros power Hpower. apply IH. by constructor.
Qed.

Lemma evaluate_safe_witness :
  match evaluate 120000 40 AlgebraType.Sym 7
          (inr [Item.Make (Item.Arr [2; 1]) 0; Item.Make (Item.Arr [1]) 6;
                Item.Make (Item.Str "*") 4]) with
  | Ret (inl err) => True
  | Ret (inr lin) => Forall (λ t, fits AlgebraType.Sym (part t)) lin
  | Throw m => m = "Invalid array length" ∨
               m = "Maximum call stack size exceeded"
  | Timeout => True
  | Fault => False
  end.
Proof.
  apply (evaluate_safe 120000 40 AlgebraType.Sym 7); [by left|].
  intros items [= <-]. repeat constructor; by intros nums [= <-].
Defined.

(** X21: [evaluate] computes the value of an expression from its postfix
    form.  Run on the postfix form of [e] followed by other items, the
    loop either stops with the failure of [e] (a [ParseError] for an
    exponent that is not a number, or what [algebraMul] or [algebraPow]
    ended with) or goes on with the value of [e] pushed on the stack; so
    [evaluate] of the postfix form alone is the value of [e], whose
    operands are computed from left to right. *)
Theorem evaluate_postfix (max_spread : Z) (fuel : nat) (type : AlgebraType.t)
    (str_length : Z) (e : expr) :
  (∀ rest stack,
     evaluate_loop max_spread fuel type str_length (postfix e ++ rest) stack =
     (v ←! expr_value max_spread fuel type e;
      match v with
      | inl err => Ret (inl err)
      | inr lin => evaluate_loop max_spread fuel type str_length rest (lin :: stack)
      end)) ∧
  evaluate max_spread fuel type str_length (inr (postfix e)) = expr_value max_spread fuel type e.
Proof.
  assert (∀ rest stack,
     evaluate_loop max_spread fuel type str_length (postfix e ++ rest) stack =
     (v ←! expr_value max_spread fuel type e;
      match v with
      | inl err => Ret (inl err)
      | inr lin => evaluate_loop max_spread fuel type str_length rest (lin :: stack)
      end)) as Hloop.
  { induction e as [num pos|nums pos|o pos l IHl r IHr]; intros rest stack.
    - done.
    - simpl. by destruct (algebraPart nums).
    - cbn [postfix expr_value]. rewrite <- !app_assoc, IHl.
      destruct (expr_value max_spread fuel type l) as [[err|vl]| | |]; try done.
      cbn [bind]. rewrite IHr.
      destruct (expr_value max_spread fuel type r) as [[err|vr]| | |]; try done.
      cbn [bind].
      destruct o; cbn [evaluate_loop app Item.item Item.pos op_token];
        simpl (String.eqb _ _); cbn iota.
      + done.
      + by destruct (algebraMul fuel type [vl; vr]).
      + destruct vr as [|exponent [|? ?]]; try done.
        destruct (0 <? length (part exponent))%nat; [done|].
        by destruct (algebraPow max_spread fuel type vl (mult exponent)). }
  split; [done|].
  unfold evaluate. rewrite <- (app_nil_r (postfix e)), Hloop.
  by destruct (expr_value max_spread fuel type e) as [[err|v]| | |].
Qed.

Example evaluate_tests :
  evaluate 120000 40 AlgebraType.Sym 5
    (inr [Item.Make (Item.Num 1) 0; Item.Make (Item.Num 2) 4;
          Item.Make (Item.Str "+") 2]) = Ret (inr (algebraUnit 3)) ∧
  evaluate 120000 40 AlgebraType.Sym 3
    (inr [Item.Make (Item.Num 1) 0; Item.Make (Item.Str "+") 2])
    = Ret (inl (ParseError.Make 2 1 "Not enough arguments to +")) ∧
  evaluate 120000 40 AlgebraType.Sym 3
    (inr [Item.Make (Item.Num 1) 0; Item.Make (Item.Num 1) 2])
    = Ret (inl (ParseError.Make 0 3 "Missing operations")) ∧
  evaluate 120000 40 (AlgebraType.Make "gl" 2) 9
    (inr [Item.Make (Item.Arr [3; 2; 1]) 0]) = Ret (inr (algebraUnit 0)) ∧
  evaluate 120000 40 (AlgebraType.Make "gl" 2) 5
    (inr [Item.Make (Item.Arr [2]) 0; Item.Make (Item.Num 2) 4;
          Item.Make (Item.Str "^") 3])
    = Ret (inr [Term [4] 1; Term [3; 1] 1; Term [2; 2] 1]) ∧
  evaluate 120000 40 AlgebraType.Sym 8
    (inr [Item.Make (Item.Num 1) 0; Item.Make (Item.Num 200000) 2;
          Item.Make (Item.Str "^") 1])
    = Throw "Maximum call stack size exceeded".
Proof. repeat split; by vm_compute. Qed.

(** ** The crystals of GL(n) inside those of GL(N) *)

Lemma reachable_mono n N start v :
  n ≤ N → reachable n start v → reachable N start v.
Proof.
  intros Hn. apply rtc_subrel. intros u w (i & Hi & Hf). exists i.
  split; [lia|done].
Qed.

Lemma reachable_truncate n N start v :
  reachable N start v → Forall (λ x, x ≤ n) v → reachable n start v.
Proof.
  revert v. unfold reachable.
  apply (rtc_ind_r (λ v, Forall (λ x, x ≤ n) v → rtc (edge n) start v));
    [intros; apply rtc_refl|].
  intros u w Hsu (i & Hi & Hf) IH Hv.
  destruct (crystal_f_step _ _ _ Hf) as (k & _ & Hk & ->).
  assert (i + 1 ≤ n) as Hin.
  { rewrite Forall_forall in Hv. apply Hv.
    apply (list_elem_of_lookup_2 _ k). apply list_lookup_insert_eq.
    by eapply lookup_lt_Some. }
  eapply rtc_r.
  - apply IH. apply Forall_lookup. intros j x Hj.
    destruct (decide (j = k)) as [->|Hjk].
    + rewrite Hk in Hj. injection Hj as <-. lia.
    + rewrite Forall_lookup in Hv. apply (Hv j).
      by rewrite list_lookup_insert_ne.
  - exists i. split; [lia|done].
Qed.

(** X22: the crystal of GL(n) is the part of the crystal of a larger GL(N)
    whose letters do not exceed [n].  For [1 <= n <= N] and a valid start
    of height at most [n], both calls of [expandInGL] return, and the
    result for [n] is, up to the order, the result for [N] without the
    vertices in which a letter above [n] occurs. *)
Theorem expandInGL_truncation (n N : Z) (start : Vertex) :
  1 ≤ n ≤ N → isLatticeWord start = true → vertexHeight start ≤ n →
  ∃ k small large,
    small ≡ₚ filter (λ v, vertexHeight v ≤ n) large ∧
    ∀ k', (k ≤ k')%nat →
      expandInGL k' n start = Ret small ∧ expandInGL k' N start = Ret large.
Proof.
  intros Hn Hlw Hh.
  destruct (traversal_returns n start) as (k1 & small & Hnd1 & Hall1 & Hrun1);
    [lia|done..|].
  destruct (traversal_returns N start) as (k2 & large & Hnd2 & Hall2 & Hrun2);
    [lia|done|lia|].
  exists (k1 `max` k2)%nat, small, large. split.
  - apply NoDup_Permutation; [done|by apply NoDup_filter|].
    intros v. rewrite list_elem_of_filter, Hall1, Hall2. split.
    + intros Hv. split; [|by apply (reachable_mono n N); [lia|]].
      pose proof (reachable_well_formed n start v
                    (start_well_formed n start Hlw Hh) Hv) as [_ Hletters].
      apply vertexHeight_le; [lia|].
      eapply Forall_impl; [done|]. intros x ?. simpl in *. lia.
    + intros [Hheight Hv]. apply (reachable_truncate n N); [done|].
      eapply Forall_impl; [apply vertexHeight_bound|].
      intros x ?. simpl in *. lia.
  - intros k' Hk. unfold expandInGL.
    rewrite Hrun1, Hrun2 by lia. by rewrite !foldl_push_copy.
Qed.

Lemma expandInGL_truncation_witness :
  ∃ k small large,
    small ≡ₚ filter (λ v, vertexHeight v ≤ 2) large ∧
    ∀ k', (k ≤ k')%nat →
      expandInGL k' 2 [1; 1; 2] = Ret small ∧
      expandInGL k' 3 [1; 1; 2] = Ret large.
Proof.
  apply (expandInGL_truncation 2 3 [1; 1; 2]); [lia|reflexivity|].
  vm_compute. discriminate.
Defined.

(** ** Powers *)

Lemma mul_loop_snoc k type first rest last :
  mul_loop k type first (rest ++ [last]) =
  (r ←! mul_loop k type first rest; mul_loop k type r [last]).
Proof.
  revert first. induction rest as [|lin rest IH]; intros first; [done|].
  cbn [app mul_loop].
  destruct (mul_outer k type first lin []) as [product| | |]; try done.
  cbn [bind]. apply IH.
Qed.

(** X23: powers by repeated multiplication.  [algebraPow] with exponent 1
    returns its argument as it is, not normalised; and for an exponent
    [pow >= 1] such that the engine can still spread [pow + 1] elements
    into the call, the power [pow + 1] is the product of the power [pow]
    with the argument.  At the limit the equation stops: the power
    [max_spread + 1] returns nothing, whatever the power [max_spread]
    does. *)
Theorem algebraPow_step (max_spread : Z) (k : nat) (type : AlgebraType.t)
    (lin : Linear) (pow : Z) :
  (1 ≤ max_spread → algebraPow max_spread k type lin 1 = Ret lin) ∧
  (1 ≤ pow < 4294967295 → pow + 1 ≤ max_spread →
   algebraPow max_spread k type lin (pow + 1) =
   (r ←! algebraPow max_spread k type lin pow; algebraMul k type [r; lin])) ∧
  (1 ≤ pow → pow = max_spread →
   ∀ r, algebraPow max_spread k type lin (pow + 1) ≠ Ret r).
Proof.
  split_and!.
  - intros Hmax. unfold algebraPow. simpl.
    by destruct (Z.ltb_spec max_spread 1); [lia|].
  - intros Hpow Hmax. unfold algebraPow.
    destruct (Z.eqb_spec (pow + 1) 0); [lia|].
    destruct (Z.eqb_spec pow 0); [lia|].
    destruct (Z.ltb_spec (pow + 1) 0); [lia|].
    destruct (Z.ltb_spec pow 0); [lia|].
    destruct (Z.ltb_spec 4294967295 (pow + 1)); [lia|].
    destruct (Z.ltb_spec 4294967295 pow); [lia|]. cbn [orb].
    destruct (Z.ltb_spec max_spread (pow + 1)); [lia|].
    destruct (Z.ltb_spec max_spread pow); [lia|].
    replace (Z.to_nat (pow + 1)) with (S (Z.to_nat pow)) by lia.
    rewrite replicate_S_end.
    destruct (Z.to_nat pow) as [|m] eqn:Hm; [lia|].
    cbn [replicate app algebraMul]. apply mul_loop_snoc.
  - intros Hpow Hmax r. unfold algebraPow.
    destruct (Z.eqb_spec (pow + 1) 0); [lia|].
    destruct (_ || _); [done|].
    by destruct (Z.ltb_spec max_spread (pow + 1)); [|lia].
Qed.

Lemma algebraPow_step_witness :
  algebraPow 120000 30 AlgebraType.Sym [Term [1] 1] (2 + 1) =
  (r ←! algebraPow 120000 30 AlgebraType.Sym [Term [1] 1] 2;
   algebraMul 30 AlgebraType.Sym [r; [Term [1] 1]]) ∧
  ∀ r, algebraPow 2 30 AlgebraType.Sym [Term [1] 1] (2 + 1) ≠ Ret r.
Proof.
  split.
  - apply (proj1 (proj2 (algebraPow_step 120000 30 AlgebraType.Sym
                           [Term [1] 1] 2))); lia.
  - apply (proj2 (proj2 (algebraPow_step 2 30 AlgebraType.Sym
                           [Term [1] 1] 2))); lia.
Defined.

(** ** Multiplicities in the range of exact arithmetic *)

Lemma absweighted_cons g t l :
  absweighted g (t :: l) = Z.abs (mult t) * g (part t) + absweighted g l.
Proof. done. Qed.

Lemma absweighted_app g l1 l2 :
  absweighted g (l1 ++ l2) = absweighted g l1 + absweighted g l2.
Proof.
  induction l1 as [|t l1 IH]; [done|].
  change ((t :: l1) ++ l2) with (t :: (l1 ++ l2)).
  rewrite !absweighted_cons, IH. lia.
Qed.

Lemma absweighted_perm g l1 l2 :
  l1 ≡ₚ l2 → absweighted g l1 = absweighted g l2.
Proof. unfold absweighted. induction 1; simpl; lia. Qed.

Lemma absweighted_nonneg g l : (∀ p, 0 ≤ g p) → 0 ≤ absweighted g l.
Proof.
  intros Hg. induction l as [|t l IH]; [done|].
  rewrite absweighted_cons. specialize (Hg (part t)). nia.
Qed.

Lemma absweighted_plus g1 g2 l :
  absweighted (λ q, g1 q + g2 q) l = absweighted g1 l + absweighted g2 l.
Proof.
  induction l as [|t l IH]; [done|]. rewrite !absweighted_cons, IH. lia.
Qed.

Lemma absweighted_mono g1 g2 l :
  (∀ p, g1 p ≤ g2 p) → absweighted g1 l ≤ absweighted g2 l.
Proof.
  intros Hg. induction l as [|t l IH]; [done|].
  rewrite !absweighted_cons. specialize (Hg (part t)). nia.
Qed.

Lemma absweighted_normalise_step g result t :
  (∀ p, 0 ≤ g p) →
  absweighted g (normalise_step result t) ≤
  absweighted g result + Z.abs (mult t) * g (part t).
Proof.
  intros Hg. unfold normalise_step.
  pose proof (Hg (part t)) as Ht.
  destruct (Z.eqb_spec (mult t) 0) as [Hz|Hz]; [nia|].
  destruct result as [|lst rest]; [rewrite !absweighted_cons; simpl; lia|].
  pose proof (absweighted_nonneg g rest Hg) as Hrest.
  destruct (compareLists (part lst) (part t)) eqn:Hc;
    try (rewrite !absweighted_cons; simpl; lia).
  apply compareLists_Zero in Hc. rewrite <- Hc in *.
  pose proof (Z.abs_triangle (mult lst) (mult t)).
  pose proof (Z.abs_nonneg (mult lst)). pose proof (Z.abs_nonneg (mult t)).
  destruct (Z.eqb_spec (mult lst + mult t) 0);
    rewrite !absweighted_cons; simpl; nia.
Qed.

Lemma absweighted_normalise_loop g s result :
  (∀ p, 0 ≤ g p) →
  absweighted g (foldl normalise_step result s) ≤
  absweighted g result + absweighted g s.
Proof.
  intros Hg. revert result.
  induction s as [|t s IH]; intros result; cbn [foldl].
  { unfold absweighted at 3. simpl. lia. }
  specialize (IH (normalise_step result t)).
  pose proof (absweighted_normalise_step g result t Hg).
  rewrite absweighted_cons. lia.
Qed.

Lemma absweighted_normalise g l :
  (∀ p, 0 ≤ g p) → absweighted g (algebraNormalise l) ≤ absweighted g l.
Proof.
  intros Hg. unfold algebraNormalise.
  rewrite (absweighted_perm g _ _ (reverse_Permutation _)).
  rewrite <- (absweighted_perm g _ _ (sort_desc_perm l)).
  apply (absweighted_normalise_loop g (sort_desc l) [] Hg).
Qed.

Lemma weight_nonneg l : 0 ≤ weight l.
Proof. by apply absweighted_nonneg. Qed.

Lemma weight_app l1 l2 : weight (l1 ++ l2) = weight l1 + weight l2.
Proof. apply absweighted_app. Qed.

Lemma weight_normalise l : weight (algebraNormalise l) ≤ weight l.
Proof. by apply absweighted_normalise. Qed.

Lemma weight_bound l t : t ∈ l → Z.abs (mult t) ≤ weight l.
Proof.
  induction l as [|t' l IH]; [by intros ?%elem_of_nil|].
  unfold weight in *. rewrite absweighted_cons.
  pose proof (weight_nonneg l) as Hl. unfold weight in Hl.
  intros [->|Ht]%elem_of_cons; [lia|]. specialize (IH Ht). lia.
Qed.

Lemma weight_scale k (lin : Linear) (f : term → term) :
  (∀ t, Z.abs (mult (f t)) = Z.abs k * Z.abs (mult t)) →
  weight (f <$> lin) = Z.abs k * weight lin.
Proof.
  intros Hf. unfold weight.
  induction lin as [|t lin IH]; [simpl; unfold absweighted; simpl; lia|].
  rewrite fmap_cons, !absweighted_cons, IH, Hf. lia.
Qed.

Lemma weight_pushed m (ps : list Partition) :
  weight ((λ q, Term q m) <$> ps) = Z.abs m * Z.of_nat (length ps).
Proof.
  unfold weight.
  induction ps as [|q ps IH]; [simpl; unfold absweighted; simpl; lia|].
  rewrite fmap_cons, absweighted_cons, IH. simpl. lia.
Qed.

Lemma product_count_nonneg k type p1 p2 : 0 ≤ product_count k type p1 p2.
Proof. unfold product_count. destruct (product_parts _ _ _ _); lia. Qed.

Lemma mul_inner_weight k type t1 lin product product' :
  mul_inner k type t1 lin product = Ret product' →
  weight product' =
  weight product +
  Z.abs (mult t1) * absweighted (product_count k type (part t1)) lin.
Proof.
  revert product. induction lin as [|t2 lin IH]; intros product;
    cbn [mul_inner].
  { intros [= <-]. unfold absweighted. simpl. lia. }
  rewrite mul_terms_parts, absweighted_cons. unfold product_count at 1.
  destruct (product_parts k type (part t1) (part t2)) as [ps| | |]; try done.
  simpl. intros Hrun. rewrite (IH _ Hrun), weight_app, weight_pushed.
  rewrite Z.abs_mul. lia.
Qed.

Lemma mul_outer_weight k type sofar lin product product' :
  mul_outer k type sofar lin product = Ret product' →
  weight product' =
  weight product +
  absweighted (λ p1, absweighted (product_count k type p1) lin) sofar.
Proof.
  revert product. induction sofar as [|t1 sofar IH]; intros product;
    cbn [mul_outer].
  { intros [= <-]. unfold absweighted. simpl. lia. }
  rewrite absweighted_cons.
  destruct (mul_inner k type t1 lin product) as [mid| | |] eqn:Hin; try done.
  simpl. intros Hrun.
  rewrite (IH _ Hrun), (mul_inner_weight _ _ _ _ _ _ Hin). lia.
Qed.

(** X9: on multiplicities in the range of exact arithmetic,
    [algebraNormalise] keeps the formal sum.  For lists whose weight (the
    sum of the absolute values of the multiplicities) is at most
    [MAX_SAFE_INTEGER], every multiplicity that the loop holds at any time,
    so every sum it forms, is a safe integer; the coefficient of every
    partition (the sum of the multiplicities of its terms) is unchanged;
    and the result is a canonical form: two such lists normalise to the
    same list exactly when they have the same coefficients. *)
Theorem algebraNormalise_canonical (l1 l2 : Linear) :
  weight l1 ≤ MAX_SAFE_INTEGER → weight l2 ≤ MAX_SAFE_INTEGER →
  (∀ s s', sort_desc l1 = s ++ s' →
     Forall (λ t, Z.abs (mult t) ≤ MAX_SAFE_INTEGER)
            (foldl normalise_step [] s)) ∧
  weight (algebraNormalise l1) ≤ weight l1 ∧
  (∀ p, coefficient p (algebraNormalise l1) = coefficient p l1) ∧
  (algebraNormalise l1 = algebraNormalise l2 ↔
   ∀ p, coefficient p l1 = coefficient p l2).
Proof.
  intros H1 H2. split_and!.
  - intros s s' Hs. apply Forall_forall. intros t Ht.
    pose proof (weight_bound _ _ Ht) as Hbound.
    pose proof (absweighted_normalise_loop (λ _, 1) s [] ltac:(lia)) as Hloop.
    change (weight (foldl normalise_step [] s) ≤ weight [] + weight s)
      in Hloop.
    pose proof (weight_nonneg s').
    assert (weight l1 = weight s + weight s') as Hl.
    { rewrite <- weight_app, <- Hs. symmetry.
      apply absweighted_perm, sort_desc_perm. }
    change (weight []) with 0 in Hloop. lia.
  - apply weight_normalise.
  - intros p. apply algebraNormalise_coefficient.
  - split.
    + intros Heq p.
      by rewrite <- (algebraNormalise_coefficient p l1), Heq,
        algebraNormalise_coefficient.
    + intros Hco. apply normal_form_unique; [apply algebraNormalise_normal..|].
      intros p. by rewrite !algebraNormalise_coefficient.
Qed.

Lemma algebraNormalise_canonical_witness :
  weight [Term [1] 1; Term [2] 3; Term [1] 1] ≤ MAX_SAFE_INTEGER ∧
  algebraNormalise [Term [1] 1; Term [2] 3; Term [1] 1]
    = algebraNormalise [Term [1] 2; Term [2] 3] ∧
  ∀ p, coefficient p [Term [1] 1; Term [2] 3; Term [1] 1]
       = coefficient p [Term [1] 2; Term [2] 3].
Proof.
  split; [by vm_compute|]. split; [reflexivity|].
  apply (proj1 (proj2 (proj2 (proj2
           (algebraNormalise_canonical
              [Term [1] 1; Term [2] 3; Term [1] 1]
              [Term [1] 2; Term [2] 3] ltac:(by vm_compute)
              ltac:(by vm_compute)))))).
  reflexivity.
Defined.

(** X10: on multiplicities in the range of exact arithmetic, [algebraAdd]
    adds coefficients.  For lists whose weights sum to at most
    [MAX_SAFE_INTEGER] the sums have at most the weight of their arguments
    together, so every addition is exact; [algebraAdd] returns a normal
    form, it is commutative and associative on the lists themselves,
    nested sums may be flattened, and adding the unit 0 only normalises. *)
Theorem algebraAdd_sum (a b c : Linear) :
  weight a + weight b + weight c ≤ MAX_SAFE_INTEGER →
  weight (algebraAdd [a; b]) ≤ weight a + weight b ∧
  weight (algebraAdd [a; b; c]) ≤ weight a + weight b + weight c ∧
  (∀ p, coefficient p (algebraAdd [a; b]) = coefficient p a + coefficient p b) ∧
  is_normal (algebraAdd [a; b]) = true ∧
  algebraAdd [a; b] = algebraAdd [b; a] ∧
  algebraAdd [algebraAdd [a; b]; c] = algebraAdd [a; b; c] ∧
  algebraAdd [a; algebraAdd [b; c]] = algebraAdd [a; b; c] ∧
  algebraAdd [a; algebraUnit 0] = algebraNormalise a ∧
  algebraAdd [] = [].
Proof.
  intros Hexact.
  assert (∀ l1 l2, (∀ p, coefficient p (concat l1) = coefficient p (concat l2)) →
            algebraAdd l1 = algebraAdd l2) as Heq.
  { intros l1 l2 H. unfold algebraAdd.
    apply normal_form_unique; [apply algebraNormalise_normal..|].
    intros p. by rewrite !algebraNormalise_coefficient. }
  split_and!.
  - unfold algebraAdd. etrans; [apply weight_normalise|].
    simpl. rewrite app_nil_r, weight_app. lia.
  - unfold algebraAdd. etrans; [apply weight_normalise|].
    simpl. rewrite app_nil_r, !weight_app. lia.
  - intros p. unfold algebraAdd.
    rewrite algebraNormalise_coefficient, coefficient_concat. simpl. lia.
  - apply algebraNormalise_normal.
  - apply Heq. intros p. rewrite !coefficient_concat. simpl. lia.
  - apply Heq. intros p. rewrite !coefficient_concat. simpl.
    unfold algebraAdd. rewrite algebraNormalise_coefficient, coefficient_concat.
    simpl. lia.
  - apply Heq. intros p. rewrite !coefficient_concat. simpl.
    unfold algebraAdd. rewrite algebraNormalise_coefficient, coefficient_concat.
    simpl. lia.
  - unfold algebraAdd.
    apply normal_form_unique; [apply algebraNormalise_normal..|]. intros p.
    rewrite !algebraNormalise_coefficient, coefficient_concat. simpl.
    destruct (decide _); lia.
  - done.
Qed.

Lemma algebraAdd_sum_witness :
  weight [Term [2] 1] + weight [Term [1] 2; Term [2] (-1)] + weight [Term [] 5]
    ≤ MAX_SAFE_INTEGER ∧
  algebraAdd [[Term [2] 1]; [Term [1] 2; Term [2] (-1)]]
    = algebraAdd [[Term [1] 2; Term [2] (-1)]; [Term [2] 1]].
Proof.
  split; [by vm_compute|].
  apply (algebraAdd_sum [Term [2] 1] [Term [1] 2; Term [2] (-1)]
           [Term [] 5]). by vm_compute.
Defined.

(** X13: the degenerate products.  [algebraMul] of no factor is the unit 1
    and of one factor is that factor, as it is; multiplying by a unit [k]
    gives the same on either side and makes no traversal (whatever the
    algebra).  When [k], the multiplicities and their products with [k]
    are in the range of exact arithmetic (the weight of the factor times
    [|k|] is at most [MAX_SAFE_INTEGER]), the result is the normal form of
    the other factor with every multiplicity multiplied by [k]: each
    coefficient is multiplied by [k], and the result stays in that
    range. *)
Theorem algebraMul_units (fuel : nat) (type : AlgebraType.t) (lin : Linear)
    (k : Z) :
  algebraMul fuel type [] = Ret (algebraUnit 1) ∧
  algebraMul fuel type [lin] = Ret lin ∧
  algebraMul fuel type [lin; algebraUnit k] =
    algebraMul fuel type [algebraUnit k; lin] ∧
  (Z.abs k ≤ MAX_SAFE_INTEGER → weight lin ≤ MAX_SAFE_INTEGER →
   Z.abs k * weight lin ≤ MAX_SAFE_INTEGER →
   algebraMul fuel type [lin; algebraUnit k] =
     Ret (algebraNormalise ((λ t, Term (part t) (mult t * k)) <$> lin)) ∧
   algebraMul fuel type [algebraUnit k; lin] =
     Ret (algebraNormalise ((λ t, Term (part t) (k * mult t)) <$> lin)) ∧
   Forall (λ t, Z.abs (mult t * k) ≤ MAX_SAFE_INTEGER) lin ∧
   ∀ r, algebraMul fuel type [lin; algebraUnit k] = Ret r →
        is_normal r = true ∧ weight r ≤ Z.abs k * weight lin ∧
        ∀ p, coefficient p r = k * coefficient p lin).
Proof.
  assert (algebraMul fuel type [lin; algebraUnit k] =
          Ret (algebraNormalise ((λ t, Term (part t) (mult t * k)) <$> lin)))
    as Hright.
  { unfold algebraMul, algebraUnit. simpl.
    by rewrite mul_outer_unit_right. }
  assert (algebraMul fuel type [algebraUnit k; lin] =
          Ret (algebraNormalise ((λ t, Term (part t) (k * mult t)) <$> lin)))
    as Hleft.
  { unfold algebraMul, algebraUnit. simpl.
    by rewrite mul_inner_unit_left. }
  split_and!; [done|done| |].
  - rewrite Hright, Hleft. do 2 f_equal.
    apply list_fmap_ext. intros _ t _. f_equal. lia.
  - intros Hk Hlin Hexact. split_and!; [done|done| |].
    + apply Forall_forall. intros t Ht.
      pose proof (weight_bound _ _ Ht). rewrite Z.abs_mul.
      pose proof (Z.abs_nonneg k). nia.
    + rewrite Hright. intros r [= <-].
      split; [apply algebraNormalise_normal|]. split.
      * etrans; [apply weight_normalise|].
        rewrite (weight_scale k); [done|].
        intros t. simpl. rewrite Z.abs_mul. lia.
      * intros p. rewrite algebraNormalise_coefficient.
        apply coefficient_scale. intros t. simpl. split; [done|lia].
Qed.

Lemma algebraMul_units_witness :
  Z.abs 2 * weight [Term [1] 1] ≤ MAX_SAFE_INTEGER ∧
  algebraMul 0 AlgebraType.Sym [[Term [1] 1]; algebraUnit 2]
    = Ret [Term [1] 2] ∧
  is_normal [Term [1] 2] = true ∧
  weight [Term [1] 2] ≤ Z.abs 2 * weight [Term [1] 1] ∧
  ∀ p, coefficient p [Term [1] 2] = 2 * coefficient p [Term [1] 1].
Proof.
  split; [by vm_compute|]. split; [reflexivity|].
  apply (proj2 (proj2 (proj2
           (proj2 (proj2 (proj2
              (algebraMul_units 0 AlgebraType.Sym [Term [1] 1] 2)))
              ltac:(by vm_compute) ltac:(by vm_compute)
              ltac:(by vm_compute))))).
  reflexivity.
Defined.

(** ** Distributivity in the range of exact arithmetic *)

Lemma algebraMul_pair_product k type a c product :
  mul_outer k type a c [] = Ret product →
  algebraMul k type [a; c] = Ret (algebraNormalise product).
Proof. intros Hrun. apply algebraMul_pair. by eexists. Qed.

(** X19: in the range of exact arithmetic, [algebraMul] distributes over
    [algebraAdd], on both sides.  Let the loops of [algebraMul] build the
    lists [pa] for [a] and [c] and [pb] for [b] and [c] (with the
    iterations allowed, in either algebra), and let the weights of [a] and
    [b] together, and those of [pa] and [pb] together, be at most
    [MAX_SAFE_INTEGER].  Then the loops also return for the sum of [a] and
    [b] with [c], with a list of at most the weight of [pa] and [pb]
    together, so every product and every sum is exact; and the product of
    the sum is the sum of the products, as lists.  The same holds with [c]
    as the left factor. *)
Theorem algebraMul_distributes (k : nat) (type : AlgebraType.t)
    (a b c : Linear) :
  weight a + weight b ≤ MAX_SAFE_INTEGER → weight c ≤ MAX_SAFE_INTEGER →
  (∀ pa pb,
     mul_outer k type a c [] = Ret pa → mul_outer k type b c [] = Ret pb →
     weight pa + weight pb ≤ MAX_SAFE_INTEGER →
     ∃ pab r1 r2,
       mul_outer k type (algebraAdd [a; b]) c [] = Ret pab ∧
       weight pab ≤ weight pa + weight pb ∧
       algebraMul k type [a; c] = Ret r1 ∧
       algebraMul k type [b; c] = Ret r2 ∧
       weight r1 + weight r2 ≤ weight pa + weight pb ∧
       algebraMul k type [algebraAdd [a; b]; c] = Ret (algebraAdd [r1; r2])) ∧
  (∀ pa pb,
     mul_outer k type c a [] = Ret pa → mul_outer k type c b [] = Ret pb →
     weight pa + weight pb ≤ MAX_SAFE_INTEGER →
     ∃ pab r1 r2,
       mul_outer k type c (algebraAdd [a; b]) [] = Ret pab ∧
       weight pab ≤ weight pa + weight pb ∧
       algebraMul k type [c; a] = Ret r1 ∧
       algebraMul k type [c; b] = Ret r2 ∧
       weight r1 + weight r2 ≤ weight pa + weight pb ∧
       algebraMul k type [c; algebraAdd [a; b]] = Ret (algebraAdd [r1; r2])).
Proof.
  intros Hab Hc.
  assert (∀ l1 l2 : Linear, concat [l1; l2] = l1 ++ l2) as Hcat.
  { intros l1 l2. simpl. by rewrite app_nil_r. }
  assert (∀ x y r1 r2 r,
            algebraMul k type [x; y] = Ret r →
            (∀ p, coefficient p r = coefficient p r1 + coefficient p r2) →
            algebraMul k type [x; y] = Ret (algebraAdd [r1; r2])) as Hsum.
  { intros x y r1 r2 r Hr Hco. rewrite Hr. f_equal.
    apply normal_form_unique.
    - apply algebraMul_pair in Hr as (? & _ & ->).
      apply algebraNormalise_normal.
    - apply algebraNormalise_normal.
    - intros p. unfold algebraAdd.
      by rewrite algebraNormalise_coefficient, Hcat, coefficient_app. }
  split; intros pa pb Hpa Hpb Hexact.
  - pose proof (algebraMul_pair_product _ _ _ _ _ Hpa) as H1.
    pose proof (algebraMul_pair_product _ _ _ _ _ Hpb) as H2.
    assert (∃ pab, mul_outer k type (algebraAdd [a; b]) c [] = Ret pab)
      as [pab Hpab].
    { apply mul_outer_defined. unfold algebraAdd. rewrite Hcat.
      apply (normalise_parts (λ p1, defined_on k type p1 c)).
      apply Forall_app.
      split; apply (mul_outer_defined k type _ c []); by eexists. }
    pose proof (algebraMul_pair_product _ _ _ _ _ Hpab) as Hr.
    exists pab, (algebraNormalise pa), (algebraNormalise pb).
    split_and!; [done| |done|done| |].
    + rewrite (mul_outer_weight _ _ _ _ _ _ Hpab),
        (mul_outer_weight _ _ _ _ _ _ Hpa),
        (mul_outer_weight _ _ _ _ _ _ Hpb).
      change (weight []) with 0. rewrite !Z.add_0_l.
      unfold algebraAdd. rewrite Hcat.
      etrans; [apply absweighted_normalise|].
      * intros p. apply absweighted_nonneg. intros q.
        apply product_count_nonneg.
      * rewrite absweighted_app. lia.
    + pose proof (weight_normalise pa). pose proof (weight_normalise pb). lia.
    + apply (Hsum _ _ _ _ _ Hr). intros p.
      rewrite (algebraMul_pair_coefficient _ _ _ _ _ p Hr),
        (algebraMul_pair_coefficient _ _ _ _ _ p H1),
        (algebraMul_pair_coefficient _ _ _ _ _ p H2).
      unfold algebraAdd. by rewrite weighted_normalise, Hcat, weighted_app.
  - pose proof (algebraMul_pair_product _ _ _ _ _ Hpa) as H1.
    pose proof (algebraMul_pair_product _ _ _ _ _ Hpb) as H2.
    assert (∃ pab, mul_outer k type c (algebraAdd [a; b]) [] = Ret pab)
      as [pab Hpab].
    { apply mul_outer_defined.
      assert (Forall (λ t1, defined_on k type (part t1) a) c) as Ha
        by (apply (mul_outer_defined k type c a []); by eexists).
      assert (Forall (λ t1, defined_on k type (part t1) b) c) as Hb
        by (apply (mul_outer_defined k type c b []); by eexists).
      rewrite Forall_forall in Ha, Hb. apply Forall_forall. intros t1 Ht1.
      unfold algebraAdd. rewrite Hcat.
      apply (normalise_parts
               (λ p2, ∃ ps, product_parts k type (part t1) p2 = Ret ps)).
      apply Forall_app. split; [by apply Ha|by apply Hb]. }
    pose proof (algebraMul_pair_product _ _ _ _ _ Hpab) as Hr.
    exists pab, (algebraNormalise pa), (algebraNormalise pb).
    split_and!; [done| |done|done| |].
    + rewrite (mul_outer_weight _ _ _ _ _ _ Hpab),
        (mul_outer_weight _ _ _ _ _ _ Hpa),
        (mul_outer_weight _ _ _ _ _ _ Hpb).
      change (weight []) with 0. rewrite !Z.add_0_l.
      rewrite <- absweighted_plus. apply absweighted_mono. intros p1.
      unfold algebraAdd. rewrite Hcat, <- absweighted_app.
      apply absweighted_normalise. intros q. apply product_count_nonneg.
    + pose proof (weight_normalise pa). pose proof (weight_normalise pb). lia.
    + apply (Hsum _ _ _ _ _ Hr). intros p.
      rewrite (algebraMul_pair_coefficient _ _ _ _ _ p Hr),
        (algebraMul_pair_coefficient _ _ _ _ _ p H1),
        (algebraMul_pair_coefficient _ _ _ _ _ p H2).
      rewrite <- weighted_plus. apply weighted_ext. intros t1 _.
      unfold algebraAdd. by rewrite weighted_normalise, Hcat, weighted_app.
Qed.

Lemma algebraMul_distributes_witness :
  weight [Term [1] 1] + weight [Term [2] 1] ≤ MAX_SAFE_INTEGER ∧
  ∃ pab r1 r2,
    mul_outer 30 AlgebraType.Sym
      (algebraAdd [[Term [1] 1]; [Term [2] 1]]) [Term [1] 1] [] = Ret pab ∧
    weight pab ≤ 2 + 2 ∧
    algebraMul 30 AlgebraType.Sym [[Term [1] 1]; [Term [1] 1]] = Ret r1 ∧
    algebraMul 30 AlgebraType.Sym [[Term [2] 1]; [Term [1] 1]] = Ret r2 ∧
    weight r1 + weight r2 ≤ 2 + 2 ∧
    algebraMul 30 AlgebraType.Sym
      [algebraAdd [[Term [1] 1]; [Term [2] 1]]; [Term [1] 1]]
    = Ret (algebraAdd [r1; r2]).
Proof.
  split; [by vm_compute|].
  apply (proj1 (algebraMul_distributes 30 AlgebraType.Sym
                  [Term [1] 1] [Term [2] 1] [Term [1] 1]
                  ltac:(by vm_compute) ltac:(by vm_compute))
           [Term [2] 1; Term [1; 1] 1] [Term [3] 1; Term [2; 1] 1]);
    [reflexivity|reflexivity|by vm_compute].
Defined.

(** ** The sides of [tensorPartitions] *)

(** X11: for [n >= 2] and valid partitions with at most [n] rows,
    [tensorPartitions] returns (no assertion fails and the traversal
    ends).  Both dimensions are computed; the second argument stays on the
    right unless the dimension of the first is smaller than that of the
    second, in which case the two are exchanged.  The result lists, for
    the vertices of the crystal of [right] in the order in which
    [expandInGL] returns them, the partitions of those that extend [left]
    to a lattice word.  Every partition returned is valid, has at most [n]
    rows and has as many cells as the two arguments together. *)
Theorem tensorPartitions_partitions (n : Z) (p q : Partition) :
  2 ≤ n → isPartition p = true → isPartition q = true →
  Z.of_nat (length p) ≤ n → Z.of_nat (length q) ≤ n →
  ∃ dim1 dim2,
    dimensionInGL n p = Ret dim1 ∧ dimensionInGL n q = Ret dim2 ∧
    ∀ left right,
      (left, right) = (if num_lt dim1 dim2 then (q, p) else (p, q)) →
      ∃ k vs,
        NoDup vs ∧ (∀ v, v ∈ vs ↔ reachable n (hw_rows 0 right) v) ∧
        ∀ k', (k ≤ k')%nat →
          expandInGL k' n (hw_rows 0 right) = Ret vs ∧
          tensorPartitions k' n p q =
            Ret (omap (latticeWordToMaybePartition left) vs) ∧
          Forall (λ r, isPartition r = true ∧
                       size_of r = size_of p + size_of q ∧
                       Z.of_nat (length r) ≤ n)
                 (omap (latticeWordToMaybePartition left) vs).
Proof.
  intros Hn Hp Hq Hpn Hqn.
  assert (∀ left right,
            isPartition left = true → isPartition right = true →
            Z.of_nat (length left) ≤ n → Z.of_nat (length right) ≤ n →
            ∃ k vs,
              NoDup vs ∧ (∀ v, v ∈ vs ↔ reachable n (hw_rows 0 right) v) ∧
              ∀ k', (k ≤ k')%nat →
                expandInGL k' n (hw_rows 0 right) = Ret vs ∧
                visitGLnCrystal k' n (hw_rows 0 right)
                  (push_if_lattice left) []
                = Ret (omap (latticeWordToMaybePartition left) vs) ∧
                Forall (λ r, isPartition r = true ∧
                             size_of r = size_of left + size_of right ∧
                             Z.of_nat (length r) ≤ n)
                       (omap (latticeWordToMaybePartition left) vs))
    as Hside.
  { intros left right Hl Hr Hln Hrn.
    destruct (traversal_returns n (hw_rows 0 right))
      as (k & vs & Hnd & Hvs & Hrun);
      [lia|by apply hw_rows_lattice|by rewrite hw_rows_height|].
    exists k, vs. split; [done|]. split; [done|]. intros k' Hk.
    split_and!.
    - unfold expandInGL. rewrite Hrun by done. by rewrite foldl_push_copy.
    - rewrite Hrun by done. by rewrite push_if_lattice_omap.
    - apply Forall_forall. intros r (v & Hv%Hvs & Hr')%list_elem_of_omap.
      by apply (tensor_term n left right v r); [lia|..]. }
  unfold tensorPartitions, dimensionInGL, partitionToHw. rewrite Hp, Hq.
  destruct (Z.leb_spec 2 n); [|lia]. cbn [andb assertOrCrash bind].
  eexists _, _. split; [done|]. split; [done|].
  intros left right Hlr.
  destruct (num_lt _ _); injection Hlr as -> ->.
  - destruct (Hside q p Hq Hp Hqn Hpn) as (k & vs & Hnd & Hvs & Hrun).
    exists k, vs. split; [done|]. split; [done|]. intros k' Hk.
    destruct (Hrun k' Hk) as (He & Hv & Hall).
    rewrite Hp. cbn [assertOrCrash bind]. split_and!; [done..|].
    eapply Forall_impl; [done|]. intros r (? & ? & ?). split_and!; [done| |done].
    lia.
  - destruct (Hside p q Hp Hq Hpn Hqn) as (k & vs & Hnd & Hvs & Hrun).
    exists k, vs. split; [done|]. split; [done|]. intros k' Hk.
    destruct (Hrun k' Hk) as (He & Hv & Hall).
    rewrite Hq. cbn [assertOrCrash bind]. by split_and!.
Qed.

Lemma tensorPartitions_partitions_witness :
  ∃ k vs,
    NoDup vs ∧ (∀ v, v ∈ vs ↔ reachable 4 (hw_rows 0 [1; 1]) v) ∧
    ∀ k', (k ≤ k')%nat →
      expandInGL k' 4 (hw_rows 0 [1; 1]) = Ret vs ∧
      tensorPartitions k' 4 [2; 1] [1; 1] =
        Ret (omap (latticeWordToMaybePartition [2; 1]) vs) ∧
      Forall (λ r, isPartition r = true ∧
                   size_of r = size_of [2; 1] + size_of [1; 1] ∧
                   Z.of_nat (length r) ≤ 4)
             (omap (latticeWordToMaybePartition [2; 1]) vs).
Proof.
  destruct (tensorPartitions_partitions 4 [2; 1] [1; 1])
    as (dim1 & dim2 & H1 & H2 & Hsides);
    [lia|reflexivity|reflexivity|simpl; lia|simpl; lia|].
  vm_compute in H1. vm_compute in H2.
  injection H1 as <-. injection H2 as <-.
  apply (Hsides [2; 1] [1; 1]). reflexivity.
Defined.

Example tensorPartitions_sides :
  tensorPartitions 100 4 [2; 1] [1; 1]
    = Ret [[3; 2]; [3; 1; 1]; [2; 2; 1]; [2; 1; 1; 1]] ∧
  visitGLnCrystal 100 4 (hw_rows 0 [1; 1]) (push_if_lattice [2; 1]) []
    = Ret [[3; 2]; [3; 1; 1]; [2; 2; 1]; [2; 1; 1; 1]] ∧
  visitGLnCrystal 100 4 (hw_rows 0 [2; 1]) (push_if_lattice [1; 1]) []
    = Ret [[3; 2]; [2; 2; 1]; [3; 1; 1]; [2; 1; 1; 1]].
Proof. repeat split; by vm_compute. Qed.
